(** * Animator: the crossfade animation engine of art0-8disks

    A shallow embedding of [js/animator.js] (class [Animator]), with the
    parts of its premium variant that differ, the image cache it draws
    from ([js/imageLoader.js]) and the helpers of the page script that
    drive it, and a verification of the properties its specification
    states about it and of further properties the code shows.

    Conventions of the embedding.
    - JavaScript numbers that carry time, opacity or geometry are exact
      rationals ([Q]); counters and indices are [nat].  Rounding is not
      modelled.  A division whose divisor is zero is outside the model
      (JavaScript yields an infinity or NaN there, [Qdiv] yields 0), so
      a statement about a quotient of durations assumes a positive
      divisor, and images are taken to have non-zero dimensions.
    - A JavaScript object used as a dictionary is a [gmap] of its own
      properties, keyed by property name; a [Set] of strings is a
      [gset].  Reading a key such an object has no property for finds
      the members of [Object.prototype] ([Js.get]).  The dictionary
      the caller hands to [setImages] is a plain object with arrays of
      strings as its properties, and is read that way, and so is
      [usedImages] where [getRandomImage] reads it at a colour of the
      caller's choosing.  [reset], the scheduler and the draw pass
      read the dictionaries the engine builds itself, [zones] and
      [usedImages], at the categories and at the active key only,
      where [setImages] has created a property of their own before
      any read (lemma [engine_reads_its_own_properties]); these reads
      are plain lookups.  The key [__proto__] is outside the model: an
      assignment under it replaces the prototype of the dictionary
      instead of adding a property, the model stores it like any
      other.
    - The [width] and [height] of the canvas element are attributes of
      type unsigned long: what is read back after an assignment is
      [Js.unsigned_long] of the number assigned.
    - [null]/[undefined] are [None].
    - Every method is a computation in the monad [M]: it threads the
      receiver ([this]), may throw, and emits the calls it makes on its
      collaborators (console, canvas context, observer callbacks, the
      frame scheduler of the browser).
    - [Math.random()] and [performance.now()] are inputs: each method
      that reads them takes the value read as an argument.
    - [window.imageLoader.get] is a variable of the section the methods
      live in. *)

From stdpp Require Import gmap strings list sorting.
From Stdlib Require Import QArith Qround Qminmax Lqa.

Set Default Proof Using "Type".

Local Open Scope string_scope.
Local Open Scope Q_scope.

(** ** JavaScript primitives used by the engine *)

Module Js.

(** Property keys: indexing an object with [undefined] uses the key
    ["undefined"]. *)
Definition key (c : option string) : string :=
  match c with Some k => k | None => "undefined" end.

(** Truthiness of a string-or-null value: [null] and the empty string
    are falsy. *)
Definition truthy_str (s : option string) : bool :=
  match s with
  | None => false
  | Some EmptyString => false
  | Some (String _ _) => true
  end.

(** Truthiness of a number: zero is falsy ([a || b] on numbers). *)
Definition num_or (a b : Q) : Q := if Qeq_bool a 0 then b else a.

Definition lt (a b : Q) : bool := negb (Qle_bool b a).
Definition le (a b : Q) : bool := Qle_bool a b.
Definition gt (a b : Q) : bool := lt b a.
Definition ge (a b : Q) : bool := le b a.

(** [Math.floor] of a non-negative number, as an array index. *)
Definition floor_index (x : Q) : option nat :=
  let z := Qfloor x in
  if (z <? 0)%Z then None else Some (Z.to_nat z).

(** [Math.pow(x, n)] for a small natural exponent. *)
Fixpoint pow (x : Q) (n : nat) : Q :=
  match n with
  | O => 1
  | S O => x
  | S n' => x * pow x n'
  end.

(** What reading a property of a plain object finds on
    [Object.prototype] when the object has no property of that name. *)
Inductive Inherited : Type :=
| Method (length : nat)  (* a built-in function, with its [length] *)
| ProtoObject.           (* the accessor [__proto__]: the prototype itself *)

(** The members of [Object.prototype], which every plain object
    inherits. *)
Definition ObjectPrototype : list (string * Inherited) :=
  [ ("constructor", Method 1);
    ("__defineGetter__", Method 2);
    ("__defineSetter__", Method 2);
    ("hasOwnProperty", Method 1);
    ("__lookupGetter__", Method 1);
    ("__lookupSetter__", Method 1);
    ("isPrototypeOf", Method 1);
    ("propertyIsEnumerable", Method 1);
    ("toString", Method 0);
    ("valueOf", Method 0);
    ("__proto__", ProtoObject);
    ("toLocaleString", Method 0) ].

Fixpoint member (k : string) (proto : list (string * Inherited)) : option Inherited :=
  match proto with
  | [] => None
  | (name, m) :: rest => if String.eqb k name then Some m else member k rest
  end.

(** The result of [object[k]]. *)
Inductive Found (V : Type) : Type :=
| Own (v : V)
| Foreign (m : Inherited)
| Undefined.
Arguments Own {V} v.
Arguments Foreign {V} m.
Arguments Undefined {V}.

(** [object[k]] on a plain object with the own properties [own]: the
    own property, else the member of [Object.prototype] of that name,
    else [undefined]. *)
Definition get {V} (own : gmap string V) (k : string) : Found V :=
  match own !! k with
  | Some v => Own v
  | None =>
      match member k ObjectPrototype with
      | Some m => Foreign m
      | None => Undefined
      end
  end.

(** [Math.trunc]: the integer part of a number. *)
Definition trunc (x : Q) : Z :=
  if Qle_bool 0 x then Qfloor x else Qceiling x.

(** What an attribute of type [unsigned long] that reflects a content
    attribute reads back after the number [x] is assigned to it, as
    [width] and [height] of a canvas element do: [x] is converted to an
    unsigned 32-bit integer (integer part, modulo 2^32), and a value
    above 2^31 - 1 is replaced by the default of the attribute. *)
Definition unsigned_long (default : Z) (x : Q) : Q :=
  let n := (trunc x mod 2 ^ 32)%Z in
  inject_Z (if (n <=? 2147483647)%Z then n else default).

End Js.

(** ** Data model *)

(** A decoded image handle, as the image provider hands it out. *)
Record Image : Type := mkImage {
  img_src : string;
  img_width : Q;
  img_height : Q
}.

(** One crossfade track: [{ current, incoming, alpha }]. *)
Record Zone : Type := mkZone {
  current : option Image;
  incoming : option Image;
  alpha : Q
}.

Inductive AnimationState : Type := IDLE | FADING | HOLDING.

(** The canvas element: only its backing-store size is read back. *)
Record CanvasEl : Type := mkCanvas {
  cv_width : Q;
  cv_height : Q
}.

(** The fields of [this], in the order the constructor assigns them.
    A callback field holds [true] when an observer is installed. *)
Record Animator : Type := mkAnimator {
  canvas : CanvasEl;
  displayWidth : Q;
  displayHeight : Q;
  dpr : Q;
  running : bool;
  paused : bool;
  animationId : option positive;
  lastTime : Q;
  fadeDuration : Q;
  holdDuration : Q;
  prefersReducedMotion : bool;
  state : AnimationState;
  stateTime : Q;
  imagesByColor : gmap string (list string);
  categories : list string;
  frameImage : option Image;
  backgroundImage : option Image;
  zones : gmap string Zone;
  currentZoneIndex : nat;
  currentSet : nat;
  usedImages : gmap string (gset string);
  transitioningOut : bool;
  transitionAlpha : Q;
  frameCount : nat;
  fpsTime : Q;
  currentFps : nat;
  targetFps : nat;
  frameInterval : Q;
  lastFrameTime : Q;
  onStatusUpdate : bool;
  onFpsUpdate : bool;
  onTransitionComplete : bool
}.

Definition setCanvas (v : CanvasEl) (a : Animator) : Animator :=
  {| canvas := v; displayWidth := displayWidth a; displayHeight := displayHeight a; dpr := dpr a;
     running := running a; paused := paused a; animationId := animationId a;
     lastTime := lastTime a; fadeDuration := fadeDuration a; holdDuration := holdDuration a;
     prefersReducedMotion := prefersReducedMotion a; state := state a; stateTime := stateTime a;
     imagesByColor := imagesByColor a; categories := categories a; frameImage := frameImage a;
     backgroundImage := backgroundImage a; zones := zones a;
     currentZoneIndex := currentZoneIndex a; currentSet := currentSet a;
     usedImages := usedImages a; transitioningOut := transitioningOut a;
     transitionAlpha := transitionAlpha a; frameCount := frameCount a; fpsTime := fpsTime a;
     currentFps := currentFps a; targetFps := targetFps a; frameInterval := frameInterval a;
     lastFrameTime := lastFrameTime a; onStatusUpdate := onStatusUpdate a;
     onFpsUpdate := onFpsUpdate a; onTransitionComplete := onTransitionComplete a |}.

Definition setDisplayWidth (v : Q) (a : Animator) : Animator :=
  {| canvas := canvas a; displayWidth := v; displayHeight := displayHeight a; dpr := dpr a;
     running := running a; paused := paused a; animationId := animationId a;
     lastTime := lastTime a; fadeDuration := fadeDuration a; holdDuration := holdDuration a;
     prefersReducedMotion := prefersReducedMotion a; state := state a; stateTime := stateTime a;
     imagesByColor := imagesByColor a; categories := categories a; frameImage := frameImage a;
     backgroundImage := backgroundImage a; zones := zones a;
     currentZoneIndex := currentZoneIndex a; currentSet := currentSet a;
     usedImages := usedImages a; transitioningOut := transitioningOut a;
     transitionAlpha := transitionAlpha a; frameCount := frameCount a; fpsTime := fpsTime a;
     currentFps := currentFps a; targetFps := targetFps a; frameInterval := frameInterval a;
     lastFrameTime := lastFrameTime a; onStatusUpdate := onStatusUpdate a;
     onFpsUpdate := onFpsUpdate a; onTransitionComplete := onTransitionComplete a |}.

Definition setDisplayHeight (v : Q) (a : Animator) : Animator :=
  {| canvas := canvas a; displayWidth := displayWidth a; displayHeight := v; dpr := dpr a;
     running := running a; paused := paused a; animationId := animationId a;
     lastTime := lastTime a; fadeDuration := fadeDuration a; holdDuration := holdDuration a;
     prefersReducedMotion := prefersReducedMotion a; state := state a; stateTime := stateTime a;
     imagesByColor := imagesByColor a; categories := categories a; frameImage := frameImage a;
     backgroundImage := backgroundImage a; zones := zones a;
     currentZoneIndex := currentZoneIndex a; currentSet := currentSet a;
     usedImages := usedImages a; transitioningOut := transitioningOut a;
     transitionAlpha := transitionAlpha a; frameCount := frameCount a; fpsTime := fpsTime a;
     currentFps := currentFps a; targetFps := targetFps a; frameInterval := frameInterval a;
     lastFrameTime := lastFrameTime a; onStatusUpdate := onStatusUpdate a;
     onFpsUpdate := onFpsUpdate a; onTransitionComplete := onTransitionComplete a |}.

Definition setDpr (v : Q) (a : Animator) : Animator :=
  {| canvas := canvas a; displayWidth := displayWidth a; displayHeight := displayHeight a;
     dpr := v; running := running a; paused := paused a; animationId := animationId a;
     lastTime := lastTime a; fadeDuration := fadeDuration a; holdDuration := holdDuration a;
     prefersReducedMotion := prefersReducedMotion a; state := state a; stateTime := stateTime a;
     imagesByColor := imagesByColor a; categories := categories a; frameImage := frameImage a;
     backgroundImage := backgroundImage a; zones := zones a;
     currentZoneIndex := currentZoneIndex a; currentSet := currentSet a;
     usedImages := usedImages a; transitioningOut := transitioningOut a;
     transitionAlpha := transitionAlpha a; frameCount := frameCount a; fpsTime := fpsTime a;
     currentFps := currentFps a; targetFps := targetFps a; frameInterval := frameInterval a;
     lastFrameTime := lastFrameTime a; onStatusUpdate := onStatusUpdate a;
     onFpsUpdate := onFpsUpdate a; onTransitionComplete := onTransitionComplete a |}.

Definition setRunning (v : bool) (a : Animator) : Animator :=
  {| canvas := canvas a; displayWidth := displayWidth a; displayHeight := displayHeight a;
     dpr := dpr a; running := v; paused := paused a; animationId := animationId a;
     lastTime := lastTime a; fadeDuration := fadeDuration a; holdDuration := holdDuration a;
     prefersReducedMotion := prefersReducedMotion a; state := state a; stateTime := stateTime a;
     imagesByColor := imagesByColor a; categories := categories a; frameImage := frameImage a;
     backgroundImage := backgroundImage a; zones := zones a;
     currentZoneIndex := currentZoneIndex a; currentSet := currentSet a;
     usedImages := usedImages a; transitioningOut := transitioningOut a;
     transitionAlpha := transitionAlpha a; frameCount := frameCount a; fpsTime := fpsTime a;
     currentFps := currentFps a; targetFps := targetFps a; frameInterval := frameInterval a;
     lastFrameTime := lastFrameTime a; onStatusUpdate := onStatusUpdate a;
     onFpsUpdate := onFpsUpdate a; onTransitionComplete := onTransitionComplete a |}.

Definition setPaused (v : bool) (a : Animator) : Animator :=
  {| canvas := canvas a; displayWidth := displayWidth a; displayHeight := displayHeight a;
     dpr := dpr a; running := running a; paused := v; animationId := animationId a;
     lastTime := lastTime a; fadeDuration := fadeDuration a; holdDuration := holdDuration a;
     prefersReducedMotion := prefersReducedMotion a; state := state a; stateTime := stateTime a;
     imagesByColor := imagesByColor a; categories := categories a; frameImage := frameImage a;
     backgroundImage := backgroundImage a; zones := zones a;
     currentZoneIndex := currentZoneIndex a; currentSet := currentSet a;
     usedImages := usedImages a; transitioningOut := transitioningOut a;
     transitionAlpha := transitionAlpha a; frameCount := frameCount a; fpsTime := fpsTime a;
     currentFps := currentFps a; targetFps := targetFps a; frameInterval := frameInterval a;
     lastFrameTime := lastFrameTime a; onStatusUpdate := onStatusUpdate a;
     onFpsUpdate := onFpsUpdate a; onTransitionComplete := onTransitionComplete a |}.

Definition setAnimationId (v : option positive) (a : Animator) : Animator :=
  {| canvas := canvas a; displayWidth := displayWidth a; displayHeight := displayHeight a;
     dpr := dpr a; running := running a; paused := paused a; animationId := v;
     lastTime := lastTime a; fadeDuration := fadeDuration a; holdDuration := holdDuration a;
     prefersReducedMotion := prefersReducedMotion a; state := state a; stateTime := stateTime a;
     imagesByColor := imagesByColor a; categories := categories a; frameImage := frameImage a;
     backgroundImage := backgroundImage a; zones := zones a;
     currentZoneIndex := currentZoneIndex a; currentSet := currentSet a;
     usedImages := usedImages a; transitioningOut := transitioningOut a;
     transitionAlpha := transitionAlpha a; frameCount := frameCount a; fpsTime := fpsTime a;
     currentFps := currentFps a; targetFps := targetFps a; frameInterval := frameInterval a;
     lastFrameTime := lastFrameTime a; onStatusUpdate := onStatusUpdate a;
     onFpsUpdate := onFpsUpdate a; onTransitionComplete := onTransitionComplete a |}.

Definition setLastTime (v : Q) (a : Animator) : Animator :=
  {| canvas := canvas a; displayWidth := displayWidth a; displayHeight := displayHeight a;
     dpr := dpr a; running := running a; paused := paused a; animationId := animationId a;
     lastTime := v; fadeDuration := fadeDuration a; holdDuration := holdDuration a;
     prefersReducedMotion := prefersReducedMotion a; state := state a; stateTime := stateTime a;
     imagesByColor := imagesByColor a; categories := categories a; frameImage := frameImage a;
     backgroundImage := backgroundImage a; zones := zones a;
     currentZoneIndex := currentZoneIndex a; currentSet := currentSet a;
     usedImages := usedImages a; transitioningOut := transitioningOut a;
     transitionAlpha := transitionAlpha a; frameCount := frameCount a; fpsTime := fpsTime a;
     currentFps := currentFps a; targetFps := targetFps a; frameInterval := frameInterval a;
     lastFrameTime := lastFrameTime a; onStatusUpdate := onStatusUpdate a;
     onFpsUpdate := onFpsUpdate a; onTransitionComplete := onTransitionComplete a |}.

Definition setFadeDuration (v : Q) (a : Animator) : Animator :=
  {| canvas := canvas a; displayWidth := displayWidth a; displayHeight := displayHeight a;
     dpr := dpr a; running := running a; paused := paused a; animationId := animationId a;
     lastTime := lastTime a; fadeDuration := v; holdDuration := holdDuration a;
     prefersReducedMotion := prefersReducedMotion a; state := state a; stateTime := stateTime a;
     imagesByColor := imagesByColor a; categories := categories a; frameImage := frameImage a;
     backgroundImage := backgroundImage a; zones := zones a;
     currentZoneIndex := currentZoneIndex a; currentSet := currentSet a;
     usedImages := usedImages a; transitioningOut := transitioningOut a;
     transitionAlpha := transitionAlpha a; frameCount := frameCount a; fpsTime := fpsTime a;
     currentFps := currentFps a; targetFps := targetFps a; frameInterval := frameInterval a;
     lastFrameTime := lastFrameTime a; onStatusUpdate := onStatusUpdate a;
     onFpsUpdate := onFpsUpdate a; onTransitionComplete := onTransitionComplete a |}.

Definition setHoldDuration (v : Q) (a : Animator) : Animator :=
  {| canvas := canvas a; displayWidth := displayWidth a; displayHeight := displayHeight a;
     dpr := dpr a; running := running a; paused := paused a; animationId := animationId a;
     lastTime := lastTime a; fadeDuration := fadeDuration a; holdDuration := v;
     prefersReducedMotion := prefersReducedMotion a; state := state a; stateTime := stateTime a;
     imagesByColor := imagesByColor a; categories := categories a; frameImage := frameImage a;
     backgroundImage := backgroundImage a; zones := zones a;
     currentZoneIndex := currentZoneIndex a; currentSet := currentSet a;
     usedImages := usedImages a; transitioningOut := transitioningOut a;
     transitionAlpha := transitionAlpha a; frameCount := frameCount a; fpsTime := fpsTime a;
     currentFps := currentFps a; targetFps := targetFps a; frameInterval := frameInterval a;
     lastFrameTime := lastFrameTime a; onStatusUpdate := onStatusUpdate a;
     onFpsUpdate := onFpsUpdate a; onTransitionComplete := onTransitionComplete a |}.

Definition setPrefersReducedMotion (v : bool) (a : Animator) : Animator :=
  {| canvas := canvas a; displayWidth := displayWidth a; displayHeight := displayHeight a;
     dpr := dpr a; running := running a; paused := paused a; animationId := animationId a;
     lastTime := lastTime a; fadeDuration := fadeDuration a; holdDuration := holdDuration a;
     prefersReducedMotion := v; state := state a; stateTime := stateTime a;
     imagesByColor := imagesByColor a; categories := categories a; frameImage := frameImage a;
     backgroundImage := backgroundImage a; zones := zones a;
     currentZoneIndex := currentZoneIndex a; currentSet := currentSet a;
     usedImages := usedImages a; transitioningOut := transitioningOut a;
     transitionAlpha := transitionAlpha a; frameCount := frameCount a; fpsTime := fpsTime a;
     currentFps := currentFps a; targetFps := targetFps a; frameInterval := frameInterval a;
     lastFrameTime := lastFrameTime a; onStatusUpdate := onStatusUpdate a;
     onFpsUpdate := onFpsUpdate a; onTransitionComplete := onTransitionComplete a |}.

Definition setState (v : AnimationState) (a : Animator) : Animator :=
  {| canvas := canvas a; displayWidth := displayWidth a; displayHeight := displayHeight a;
     dpr := dpr a; running := running a; paused := paused a; animationId := animationId a;
     lastTime := lastTime a; fadeDuration := fadeDuration a; holdDuration := holdDuration a;
     prefersReducedMotion := prefersReducedMotion a; state := v; stateTime := stateTime a;
     imagesByColor := imagesByColor a; categories := categories a; frameImage := frameImage a;
     backgroundImage := backgroundImage a; zones := zones a;
     currentZoneIndex := currentZoneIndex a; currentSet := currentSet a;
     usedImages := usedImages a; transitioningOut := transitioningOut a;
     transitionAlpha := transitionAlpha a; frameCount := frameCount a; fpsTime := fpsTime a;
     currentFps := currentFps a; targetFps := targetFps a; frameInterval := frameInterval a;
     lastFrameTime := lastFrameTime a; onStatusUpdate := onStatusUpdate a;
     onFpsUpdate := onFpsUpdate a; onTransitionComplete := onTransitionComplete a |}.

Definition setStateTime (v : Q) (a : Animator) : Animator :=
  {| canvas := canvas a; displayWidth := displayWidth a; displayHeight := displayHeight a;
     dpr := dpr a; running := running a; paused := paused a; animationId := animationId a;
     lastTime := lastTime a; fadeDuration := fadeDuration a; holdDuration := holdDuration a;
     prefersReducedMotion := prefersReducedMotion a; state := state a; stateTime := v;
     imagesByColor := imagesByColor a; categories := categories a; frameImage := frameImage a;
     backgroundImage := backgroundImage a; zones := zones a;
     currentZoneIndex := currentZoneIndex a; currentSet := currentSet a;
     usedImages := usedImages a; transitioningOut := transitioningOut a;
     transitionAlpha := transitionAlpha a; frameCount := frameCount a; fpsTime := fpsTime a;
     currentFps := currentFps a; targetFps := targetFps a; frameInterval := frameInterval a;
     lastFrameTime := lastFrameTime a; onStatusUpdate := onStatusUpdate a;
     onFpsUpdate := onFpsUpdate a; onTransitionComplete := onTransitionComplete a |}.

Definition setImagesByColor (v : gmap string (list string)) (a : Animator) : Animator :=
  {| canvas := canvas a; displayWidth := displayWidth a; displayHeight := displayHeight a;
     dpr := dpr a; running := running a; paused := paused a; animationId := animationId a;
     lastTime := lastTime a; fadeDuration := fadeDuration a; holdDuration := holdDuration a;
     prefersReducedMotion := prefersReducedMotion a; state := state a; stateTime := stateTime a;
     imagesByColor := v; categories := categories a; frameImage := frameImage a;
     backgroundImage := backgroundImage a; zones := zones a;
     currentZoneIndex := currentZoneIndex a; currentSet := currentSet a;
     usedImages := usedImages a; transitioningOut := transitioningOut a;
     transitionAlpha := transitionAlpha a; frameCount := frameCount a; fpsTime := fpsTime a;
     currentFps := currentFps a; targetFps := targetFps a; frameInterval := frameInterval a;
     lastFrameTime := lastFrameTime a; onStatusUpdate := onStatusUpdate a;
     onFpsUpdate := onFpsUpdate a; onTransitionComplete := onTransitionComplete a |}.

Definition setCategories (v : list string) (a : Animator) : Animator :=
  {| canvas := canvas a; displayWidth := displayWidth a; displayHeight := displayHeight a;
     dpr := dpr a; running := running a; paused := paused a; animationId := animationId a;
     lastTime := lastTime a; fadeDuration := fadeDuration a; holdDuration := holdDuration a;
     prefersReducedMotion := prefersReducedMotion a; state := state a; stateTime := stateTime a;
     imagesByColor := imagesByColor a; categories := v; frameImage := frameImage a;
     backgroundImage := backgroundImage a; zones := zones a;
     currentZoneIndex := currentZoneIndex a; currentSet := currentSet a;
     usedImages := usedImages a; transitioningOut := transitioningOut a;
     transitionAlpha := transitionAlpha a; frameCount := frameCount a; fpsTime := fpsTime a;
     currentFps := currentFps a; targetFps := targetFps a; frameInterval := frameInterval a;
     lastFrameTime := lastFrameTime a; onStatusUpdate := onStatusUpdate a;
     onFpsUpdate := onFpsUpdate a; onTransitionComplete := onTransitionComplete a |}.

Definition setFrameImage (v : option Image) (a : Animator) : Animator :=
  {| canvas := canvas a; displayWidth := displayWidth a; displayHeight := displayHeight a;
     dpr := dpr a; running := running a; paused := paused a; animationId := animationId a;
     lastTime := lastTime a; fadeDuration := fadeDuration a; holdDuration := holdDuration a;
     prefersReducedMotion := prefersReducedMotion a; state := state a; stateTime := stateTime a;
     imagesByColor := imagesByColor a; categories := categories a; frameImage := v;
     backgroundImage := backgroundImage a; zones := zones a;
     currentZoneIndex := currentZoneIndex a; currentSet := currentSet a;
     usedImages := usedImages a; transitioningOut := transitioningOut a;
     transitionAlpha := transitionAlpha a; frameCount := frameCount a; fpsTime := fpsTime a;
     currentFps := currentFps a; targetFps := targetFps a; frameInterval := frameInterval a;
     lastFrameTime := lastFrameTime a; onStatusUpdate := onStatusUpdate a;
     onFpsUpdate := onFpsUpdate a; onTransitionComplete := onTransitionComplete a |}.

Definition setBackgroundImage (v : option Image) (a : Animator) : Animator :=
  {| canvas := canvas a; displayWidth := displayWidth a; displayHeight := displayHeight a;
     dpr := dpr a; running := running a; paused := paused a; animationId := animationId a;
     lastTime := lastTime a; fadeDuration := fadeDuration a; holdDuration := holdDuration a;
     prefersReducedMotion := prefersReducedMotion a; state := state a; stateTime := stateTime a;
     imagesByColor := imagesByColor a; categories := categories a; frameImage := frameImage a;
     backgroundImage := v; zones := zones a; currentZoneIndex := currentZoneIndex a;
     currentSet := currentSet a; usedImages := usedImages a;
     transitioningOut := transitioningOut a; transitionAlpha := transitionAlpha a;
     frameCount := frameCount a; fpsTime := fpsTime a; currentFps := currentFps a;
     targetFps := targetFps a; frameInterval := frameInterval a; lastFrameTime := lastFrameTime a;
     onStatusUpdate := onStatusUpdate a; onFpsUpdate := onFpsUpdate a;
     onTransitionComplete := onTransitionComplete a |}.

Definition setZones (v : gmap string Zone) (a : Animator) : Animator :=
  {| canvas := canvas a; displayWidth := displayWidth a; displayHeight := displayHeight a;
     dpr := dpr a; running := running a; paused := paused a; animationId := animationId a;
     lastTime := lastTime a; fadeDuration := fadeDuration a; holdDuration := holdDuration a;
     prefersReducedMotion := prefersReducedMotion a; state := state a; stateTime := stateTime a;
     imagesByColor := imagesByColor a; categories := categories a; frameImage := frameImage a;
     backgroundImage := backgroundImage a; zones := v; currentZoneIndex := currentZoneIndex a;
     currentSet := currentSet a; usedImages := usedImages a;
     transitioningOut := transitioningOut a; transitionAlpha := transitionAlpha a;
     frameCount := frameCount a; fpsTime := fpsTime a; currentFps := currentFps a;
     targetFps := targetFps a; frameInterval := frameInterval a; lastFrameTime := lastFrameTime a;
     onStatusUpdate := onStatusUpdate a; onFpsUpdate := onFpsUpdate a;
     onTransitionComplete := onTransitionComplete a |}.

Definition setCurrentZoneIndex (v : nat) (a : Animator) : Animator :=
  {| canvas := canvas a; displayWidth := displayWidth a; displayHeight := displayHeight a;
     dpr := dpr a; running := running a; paused := paused a; animationId := animationId a;
     lastTime := lastTime a; fadeDuration := fadeDuration a; holdDuration := holdDuration a;
     prefersReducedMotion := prefersReducedMotion a; state := state a; stateTime := stateTime a;
     imagesByColor := imagesByColor a; categories := categories a; frameImage := frameImage a;
     backgroundImage := backgroundImage a; zones := zones a; currentZoneIndex := v;
     currentSet := currentSet a; usedImages := usedImages a;
     transitioningOut := transitioningOut a; transitionAlpha := transitionAlpha a;
     frameCount := frameCount a; fpsTime := fpsTime a; currentFps := currentFps a;
     targetFps := targetFps a; frameInterval := frameInterval a; lastFrameTime := lastFrameTime a;
     onStatusUpdate := onStatusUpdate a; onFpsUpdate := onFpsUpdate a;
     onTransitionComplete := onTransitionComplete a |}.

Definition setCurrentSet (v : nat) (a : Animator) : Animator :=
  {| canvas := canvas a; displayWidth := displayWidth a; displayHeight := displayHeight a;
     dpr := dpr a; running := running a; paused := paused a; animationId := animationId a;
     lastTime := lastTime a; fadeDuration := fadeDuration a; holdDuration := holdDuration a;
     prefersReducedMotion := prefersReducedMotion a; state := state a; stateTime := stateTime a;
     imagesByColor := imagesByColor a; categories := categories a; frameImage := frameImage a;
     backgroundImage := backgroundImage a; zones := zones a;
     currentZoneIndex := currentZoneIndex a; currentSet := v; usedImages := usedImages a;
     transitioningOut := transitioningOut a; transitionAlpha := transitionAlpha a;
     frameCount := frameCount a; fpsTime := fpsTime a; currentFps := currentFps a;
     targetFps := targetFps a; frameInterval := frameInterval a; lastFrameTime := lastFrameTime a;
     onStatusUpdate := onStatusUpdate a; onFpsUpdate := onFpsUpdate a;
     onTransitionComplete := onTransitionComplete a |}.

Definition setUsedImages (v : gmap string (gset string)) (a : Animator) : Animator :=
  {| canvas := canvas a; displayWidth := displayWidth a; displayHeight := displayHeight a;
     dpr := dpr a; running := running a; paused := paused a; animationId := animationId a;
     lastTime := lastTime a; fadeDuration := fadeDuration a; holdDuration := holdDuration a;
     prefersReducedMotion := prefersReducedMotion a; state := state a; stateTime := stateTime a;
     imagesByColor := imagesByColor a; categories := categories a; frameImage := frameImage a;
     backgroundImage := backgroundImage a; zones := zones a;
     currentZoneIndex := currentZoneIndex a; currentSet := currentSet a; usedImages := v;
     transitioningOut := transitioningOut a; transitionAlpha := transitionAlpha a;
     frameCount := frameCount a; fpsTime := fpsTime a; currentFps := currentFps a;
     targetFps := targetFps a; frameInterval := frameInterval a; lastFrameTime := lastFrameTime a;
     onStatusUpdate := onStatusUpdate a; onFpsUpdate := onFpsUpdate a;
     onTransitionComplete := onTransitionComplete a |}.

Definition setTransitioningOut (v : bool) (a : Animator) : Animator :=
  {| canvas := canvas a; displayWidth := displayWidth a; displayHeight := displayHeight a;
     dpr := dpr a; running := running a; paused := paused a; animationId := animationId a;
     lastTime := lastTime a; fadeDuration := fadeDuration a; holdDuration := holdDuration a;
     prefersReducedMotion := prefersReducedMotion a; state := state a; stateTime := stateTime a;
     imagesByColor := imagesByColor a; categories := categories a; frameImage := frameImage a;
     backgroundImage := backgroundImage a; zones := zones a;
     currentZoneIndex := currentZoneIndex a; currentSet := currentSet a;
     usedImages := usedImages a; transitioningOut := v; transitionAlpha := transitionAlpha a;
     frameCount := frameCount a; fpsTime := fpsTime a; currentFps := currentFps a;
     targetFps := targetFps a; frameInterval := frameInterval a; lastFrameTime := lastFrameTime a;
     onStatusUpdate := onStatusUpdate a; onFpsUpdate := onFpsUpdate a;
     onTransitionComplete := onTransitionComplete a |}.

Definition setTransitionAlpha (v : Q) (a : Animator) : Animator :=
  {| canvas := canvas a; displayWidth := displayWidth a; displayHeight := displayHeight a;
     dpr := dpr a; running := running a; paused := paused a; animationId := animationId a;
     lastTime := lastTime a; fadeDuration := fadeDuration a; holdDuration := holdDuration a;
     prefersReducedMotion := prefersReducedMotion a; state := state a; stateTime := stateTime a;
     imagesByColor := imagesByColor a; categories := categories a; frameImage := frameImage a;
     backgroundImage := backgroundImage a; zones := zones a;
     currentZoneIndex := currentZoneIndex a; currentSet := currentSet a;
     usedImages := usedImages a; transitioningOut := transitioningOut a; transitionAlpha := v;
     frameCount := frameCount a; fpsTime := fpsTime a; currentFps := currentFps a;
     targetFps := targetFps a; frameInterval := frameInterval a; lastFrameTime := lastFrameTime a;
     onStatusUpdate := onStatusUpdate a; onFpsUpdate := onFpsUpdate a;
     onTransitionComplete := onTransitionComplete a |}.

Definition setFrameCount (v : nat) (a : Animator) : Animator :=
  {| canvas := canvas a; displayWidth := displayWidth a; displayHeight := displayHeight a;
     dpr := dpr a; running := running a; paused := paused a; animationId := animationId a;
     lastTime := lastTime a; fadeDuration := fadeDuration a; holdDuration := holdDuration a;
     prefersReducedMotion := prefersReducedMotion a; state := state a; stateTime := stateTime a;
     imagesByColor := imagesByColor a; categories := categories a; frameImage := frameImage a;
     backgroundImage := backgroundImage a; zones := zones a;
     currentZoneIndex := currentZoneIndex a; currentSet := currentSet a;
     usedImages := usedImages a; transitioningOut := transitioningOut a;
     transitionAlpha := transitionAlpha a; frameCount := v; fpsTime := fpsTime a;
     currentFps := currentFps a; targetFps := targetFps a; frameInterval := frameInterval a;
     lastFrameTime := lastFrameTime a; onStatusUpdate := onStatusUpdate a;
     onFpsUpdate := onFpsUpdate a; onTransitionComplete := onTransitionComplete a |}.

Definition setFpsTime (v : Q) (a : Animator) : Animator :=
  {| canvas := canvas a; displayWidth := displayWidth a; displayHeight := displayHeight a;
     dpr := dpr a; running := running a; paused := paused a; animationId := animationId a;
     lastTime := lastTime a; fadeDuration := fadeDuration a; holdDuration := holdDuration a;
     prefersReducedMotion := prefersReducedMotion a; state := state a; stateTime := stateTime a;
     imagesByColor := imagesByColor a; categories := categories a; frameImage := frameImage a;
     backgroundImage := backgroundImage a; zones := zones a;
     currentZoneIndex := currentZoneIndex a; currentSet := currentSet a;
     usedImages := usedImages a; transitioningOut := transitioningOut a;
     transitionAlpha := transitionAlpha a; frameCount := frameCount a; fpsTime := v;
     currentFps := currentFps a; targetFps := targetFps a; frameInterval := frameInterval a;
     lastFrameTime := lastFrameTime a; onStatusUpdate := onStatusUpdate a;
     onFpsUpdate := onFpsUpdate a; onTransitionComplete := onTransitionComplete a |}.

Definition setCurrentFps (v : nat) (a : Animator) : Animator :=
  {| canvas := canvas a; displayWidth := displayWidth a; displayHeight := displayHeight a;
     dpr := dpr a; running := running a; paused := paused a; animationId := animationId a;
     lastTime := lastTime a; fadeDuration := fadeDuration a; holdDuration := holdDuration a;
     prefersReducedMotion := prefersReducedMotion a; state := state a; stateTime := stateTime a;
     imagesByColor := imagesByColor a; categories := categories a; frameImage := frameImage a;
     backgroundImage := backgroundImage a; zones := zones a;
     currentZoneIndex := currentZoneIndex a; currentSet := currentSet a;
     usedImages := usedImages a; transitioningOut := transitioningOut a;
     transitionAlpha := transitionAlpha a; frameCount := frameCount a; fpsTime := fpsTime a;
     currentFps := v; targetFps := targetFps a; frameInterval := frameInterval a;
     lastFrameTime := lastFrameTime a; onStatusUpdate := onStatusUpdate a;
     onFpsUpdate := onFpsUpdate a; onTransitionComplete := onTransitionComplete a |}.

Definition setLastFrameTime (v : Q) (a : Animator) : Animator :=
  {| canvas := canvas a; displayWidth := displayWidth a; displayHeight := displayHeight a;
     dpr := dpr a; running := running a; paused := paused a; animationId := animationId a;
     lastTime := lastTime a; fadeDuration := fadeDuration a; holdDuration := holdDuration a;
     prefersReducedMotion := prefersReducedMotion a; state := state a; stateTime := stateTime a;
     imagesByColor := imagesByColor a; categories := categories a; frameImage := frameImage a;
     backgroundImage := backgroundImage a; zones := zones a;
     currentZoneIndex := currentZoneIndex a; currentSet := currentSet a;
     usedImages := usedImages a; transitioningOut := transitioningOut a;
     transitionAlpha := transitionAlpha a; frameCount := frameCount a; fpsTime := fpsTime a;
     currentFps := currentFps a; targetFps := targetFps a; frameInterval := frameInterval a;
     lastFrameTime := v; onStatusUpdate := onStatusUpdate a; onFpsUpdate := onFpsUpdate a;
     onTransitionComplete := onTransitionComplete a |}.

Definition setOnStatusUpdate (v : bool) (a : Animator) : Animator :=
  {| canvas := canvas a; displayWidth := displayWidth a; displayHeight := displayHeight a;
     dpr := dpr a; running := running a; paused := paused a; animationId := animationId a;
     lastTime := lastTime a; fadeDuration := fadeDuration a; holdDuration := holdDuration a;
     prefersReducedMotion := prefersReducedMotion a; state := state a; stateTime := stateTime a;
     imagesByColor := imagesByColor a; categories := categories a; frameImage := frameImage a;
     backgroundImage := backgroundImage a; zones := zones a;
     currentZoneIndex := currentZoneIndex a; currentSet := currentSet a;
     usedImages := usedImages a; transitioningOut := transitioningOut a;
     transitionAlpha := transitionAlpha a; frameCount := frameCount a; fpsTime := fpsTime a;
     currentFps := currentFps a; targetFps := targetFps a; frameInterval := frameInterval a;
     lastFrameTime := lastFrameTime a; onStatusUpdate := v; onFpsUpdate := onFpsUpdate a;
     onTransitionComplete := onTransitionComplete a |}.

Definition setOnFpsUpdate (v : bool) (a : Animator) : Animator :=
  {| canvas := canvas a; displayWidth := displayWidth a; displayHeight := displayHeight a;
     dpr := dpr a; running := running a; paused := paused a; animationId := animationId a;
     lastTime := lastTime a; fadeDuration := fadeDuration a; holdDuration := holdDuration a;
     prefersReducedMotion := prefersReducedMotion a; state := state a; stateTime := stateTime a;
     imagesByColor := imagesByColor a; categories := categories a; frameImage := frameImage a;
     backgroundImage := backgroundImage a; zones := zones a;
     currentZoneIndex := currentZoneIndex a; currentSet := currentSet a;
     usedImages := usedImages a; transitioningOut := transitioningOut a;
     transitionAlpha := transitionAlpha a; frameCount := frameCount a; fpsTime := fpsTime a;
     currentFps := currentFps a; targetFps := targetFps a; frameInterval := frameInterval a;
     lastFrameTime := lastFrameTime a; onStatusUpdate := onStatusUpdate a; onFpsUpdate := v;
     onTransitionComplete := onTransitionComplete a |}.

Definition setOnTransitionComplete (v : bool) (a : Animator) : Animator :=
  {| canvas := canvas a; displayWidth := displayWidth a; displayHeight := displayHeight a;
     dpr := dpr a; running := running a; paused := paused a; animationId := animationId a;
     lastTime := lastTime a; fadeDuration := fadeDuration a; holdDuration := holdDuration a;
     prefersReducedMotion := prefersReducedMotion a; state := state a; stateTime := stateTime a;
     imagesByColor := imagesByColor a; categories := categories a; frameImage := frameImage a;
     backgroundImage := backgroundImage a; zones := zones a;
     currentZoneIndex := currentZoneIndex a; currentSet := currentSet a;
     usedImages := usedImages a; transitioningOut := transitioningOut a;
     transitionAlpha := transitionAlpha a; frameCount := frameCount a; fpsTime := fpsTime a;
     currentFps := currentFps a; targetFps := targetFps a; frameInterval := frameInterval a;
     lastFrameTime := lastFrameTime a; onStatusUpdate := onStatusUpdate a;
     onFpsUpdate := onFpsUpdate a; onTransitionComplete := v |}.


(** ** Effects *)

(** Calls on the 2D context. *)
Inductive CanvasOp : Type :=
| ClearRect (x y w h : Q)
| SetGlobalAlpha (a : Q)
| DrawImage (img : Image) (x y w h : Q)
| SetTransform (a b c d e f : Q).

(** Everything the engine does to the outside world. *)
Inductive Event : Type :=
| ConsoleWarn (msg : string)
| StatusUpdate (color : option string) (set : nat)
| FpsUpdate (fps : nat)
| TransitionComplete
| RequestAnimationFrame (id : positive)
| CancelAnimationFrame (id : positive)
| SetCanvasSize (w h : Q)
| SetCanvasStyle (w h : Q)
| Ctx (op : CanvasOp).

Inductive JsError : Type :=
| TypeError (what : string).

Inductive Outcome (A : Type) : Type :=
| Normal (v : A)
| Thrown (e : JsError).
Arguments Normal {A} v.
Arguments Thrown {A} e.

(** The result of running a method: what it returned or threw, the
    receiver as the method left it, and the calls it made, in order. *)
Record Reply (A : Type) : Type := mkReply {
  outcome : Outcome A;
  after : Animator;
  emitted : list Event
}.
Arguments mkReply {A} _ _ _.
Arguments outcome {A} _.
Arguments after {A} _.
Arguments emitted {A} _.

Definition M (A : Type) : Type := Animator -> Reply A.

Definition ret {A} (v : A) : M A := fun a => mkReply (Normal v) a [].

Definition bind {A B} (c : M A) (k : A -> M B) : M B := fun a =>
  let r := c a in
  match outcome r with
  | Normal v =>
      let r' := k v (after r) in
      mkReply (outcome r') (after r') (emitted r ++ emitted r')
  | Thrown e => mkReply (Thrown e) (after r) (emitted r)
  end.

Definition throw {A} (e : JsError) : M A := fun a => mkReply (Thrown e) a [].
Definition this : M Animator := fun a => mkReply (Normal a) a [].
Definition assign (f : Animator -> Animator) : M unit :=
  fun a => mkReply (Normal tt) (f a) [].
Definition emit (e : Event) : M unit := fun a => mkReply (Normal tt) a [e].
Definition when (b : bool) (c : M unit) : M unit := if b then c else ret tt.

Notation "x <- c ;; k" := (bind c (fun x => k))
  (at level 100, c at next level, right associativity).
Notation "c ;; k" := (bind c (fun _ => k))
  (at level 100, right associativity).

(** [for (const x of xs) body] *)
Fixpoint for_of {A} (xs : list A) (body : A -> M unit) : M unit :=
  match xs with
  | [] => ret tt
  | x :: xs' => body x ;; for_of xs' body
  end.

(** A reply with one more call in front of those it lists. *)
Definition logged {A} (e : Event) (r : Reply A) : Reply A :=
  mkReply (outcome r) (after r) (e :: emitted r).

(** ** The constructor *)

(** [new Animator(canvas)]; [reduced] is what the media query
    [(prefers-reduced-motion: reduce)] reports at construction. *)
Definition new_Animator (cv : CanvasEl) (reduced : bool) : Animator :=
  {| canvas := cv;
     displayWidth := cv_width cv; displayHeight := cv_height cv; dpr := 1;
     running := false; paused := false; animationId := None; lastTime := 0;
     fadeDuration := 17 # 10; holdDuration := 17 # 10;
     prefersReducedMotion := reduced;
     state := IDLE; stateTime := 0;
     imagesByColor := ∅; categories := [];
     frameImage := None; backgroundImage := None;
     zones := ∅;
     currentZoneIndex := 0; currentSet := 0; usedImages := ∅;
     transitioningOut := false; transitionAlpha := 1;
     frameCount := 0; fpsTime := 0; currentFps := 0; targetFps := 60;
     frameInterval := 1000 / 60; lastFrameTime := 0;
     onStatusUpdate := false; onFpsUpdate := false;
     onTransitionComplete := false |}.

(** ** Zone objects *)

Definition withCurrent (v : option Image) (z : Zone) : Zone :=
  {| current := v; incoming := incoming z; alpha := alpha z |}.
Definition withIncoming (v : option Image) (z : Zone) : Zone :=
  {| current := current z; incoming := v; alpha := alpha z |}.
Definition withAlpha (v : Q) (z : Zone) : Zone :=
  {| current := current z; incoming := incoming z; alpha := v |}.

(** [this.zones[k].field = v] on a zone object that exists. *)
Definition zoneAssign (k : string) (f : Zone -> Zone) : M unit :=
  assign (fun a => setZones (alter f k (zones a)) a).

(** What one run of [loop] reads from the browser: the clock, the random
    source (consumed only if a new fade starts) and the handle the next
    [requestAnimationFrame] returns. *)
Record Tick : Type := mkTick {
  now : Q;
  rnd : Q;
  handle : positive
}.

(** ** Methods *)

Section Methods.

(** [window.imageLoader.get(src)]: the decoded image or [null]. *)
Variable imageLoader_get : string -> option Image.

(** The draw pass and the geometry. *)

Definition drawImage (img : option Image) (al : Q) : M unit :=
  match img with
  | None => ret tt
  | Some img =>
      if Js.lt al (1 # 1000) then ret tt else
      a <- this ;;
      let width := Js.num_or (displayWidth a) (cv_width (canvas a)) in
      let height := Js.num_or (displayHeight a) (cv_height (canvas a)) in
      let imgWidth := img_width img in
      let imgHeight := img_height img in
      let scale := Qmin (width / imgWidth) (height / imgHeight) in
      let drawWidth := imgWidth * scale in
      let drawHeight := imgHeight * scale in
      let x := (width - drawWidth) / 2 in
      let y := (height - drawHeight) / 2 in
      emit (Ctx (SetGlobalAlpha (al * transitionAlpha a))) ;;
      emit (Ctx (DrawImage img x y drawWidth drawHeight))
  end.

Definition render : M unit :=
  a <- this ;;
  let width := Js.num_or (displayWidth a) (cv_width (canvas a)) in
  let height := Js.num_or (displayHeight a) (cv_height (canvas a)) in
  emit (Ctx (ClearRect 0 0 width height)) ;;
  emit (Ctx (SetGlobalAlpha (transitionAlpha a))) ;;
  match backgroundImage a with
  | Some bg => drawImage (Some bg) 1
  | None => ret tt
  end ;;
  for_of (categories a) (fun color =>
    a <- this ;;
    match zones a !! color with
    | None => ret tt
    | Some zone =>
        match current zone with
        | Some c => drawImage (Some c) 1
        | None => ret tt
        end ;;
        match incoming zone with
        | Some i =>
            if Js.gt (alpha zone) (1 # 1000)
            then drawImage (Some i) (alpha zone)
            else ret tt
        | None => ret tt
        end
    end) ;;
  match frameImage a with
  | Some fr => drawImage (Some fr) 1
  | None => ret tt
  end ;;
  emit (Ctx (SetGlobalAlpha 1)).

Definition resize (width height d : Q) : M unit :=
  assign (setCanvas (mkCanvas (Js.unsigned_long 300 (width * d))
                              (Js.unsigned_long 150 (height * d)))) ;;
  emit (SetCanvasSize (width * d) (height * d)) ;;
  emit (SetCanvasStyle width height) ;;
  emit (Ctx (SetTransform d 0 0 d 0 0)) ;;
  assign (setDisplayWidth width) ;;
  assign (setDisplayHeight height) ;;
  assign (setDpr d) ;;
  a <- this ;;
  when (running a && negb (paused a)) render.

(** Easing. *)

Definition easeInOutCubic (t : Q) : Q :=
  if Js.lt t (1 # 2)
  then 4 * t * t * t
  else 1 - Js.pow (-2 * t + 2) 3 / 2.

(** Configuration. *)

Definition setFrame (frame : option Image) : M unit :=
  assign (setFrameImage frame).

Definition setBackground (bg : option Image) : M unit :=
  assign (setBackgroundImage bg).

Definition reset : M unit :=
  assign (setCurrentZoneIndex 0) ;;
  assign (setCurrentSet 0) ;;
  assign (setState IDLE) ;;
  assign (setStateTime 0) ;;
  assign (setTransitioningOut false) ;;
  assign (setTransitionAlpha 1) ;;
  a <- this ;;
  for_of (categories a) (fun color =>
    a <- this ;;
    match usedImages a !! color with
    | Some _ => assign (fun a => setUsedImages (<[color := ∅]> (usedImages a)) a)
    | None => ret tt
    end) ;;
  a <- this ;;
  for_of (categories a) (fun color =>
    a <- this ;;
    match zones a !! color with
    | Some _ =>
        zoneAssign color (withCurrent None) ;;
        zoneAssign color (withIncoming None) ;;
        zoneAssign color (withAlpha 0)
    | None => ret tt
    end).

Definition setImages (images : gmap string (list string)) (cats : list string)
  : M unit :=
  assign (setImagesByColor images) ;;
  assign (setCategories cats) ;;
  assign (setUsedImages ∅) ;;
  for_of cats (fun color =>
    assign (fun a => setUsedImages (<[color := ∅]> (usedImages a)) a)) ;;
  assign (setZones ∅) ;;
  for_of cats (fun color =>
    assign (fun a => setZones (<[color := mkZone None None 0]> (zones a)) a)) ;;
  reset.

(** Image selection.  [r] is the value [Math.random()] returns, read
    only when the category has images.  For [r] outside [0,1) the
    index misses the array; the model then returns [null] and records
    nothing ([Math.random] never produces such a value). *)

(** [images.length === 0] for [images = this.imagesByColor[color] || []]:
    an inherited member is truthy, and its [length] is that of the
    function; the prototype object has none. *)
Definition noLength (images : Js.Found (list string)) : bool :=
  match images with
  | Js.Own images => (length images =? 0)%nat
  | Js.Foreign (Js.Method n) => (n =? 0)%nat
  | Js.Foreign Js.ProtoObject => false
  | Js.Undefined => true
  end.

Definition getRandomImage (color : option string) (r : Q) : M (option string) :=
  a <- this ;;
  let images := Js.get (imagesByColor a) (Js.key color) in
  if noLength images then ret None else
  let used := Js.get (usedImages a) (Js.key color) in
  match images with
  | Js.Own images =>
      match used with
      | Js.Foreign _ => throw (TypeError "used.has is not a function")
      | _ =>
          let used := match used with Js.Own u => u | _ => ∅ end in
          let available := filter (fun src => src ∉ used) images in
          available <-
            (if (length available =? 0)%nat
             then assign (fun a =>
                    setUsedImages (<[Js.key color := ∅]> (usedImages a)) a) ;;
                  ret images
             else ret available) ;;
          match Js.floor_index (r * inject_Z (Z.of_nat (length available))) with
          | None => ret None
          | Some i =>
              match available !! i with
              | None => ret None
              | Some src =>
                  a <- this ;;
                  match Js.get (usedImages a) (Js.key color) with
                  | Js.Own u =>
                      assign (fun a =>
                        setUsedImages (<[Js.key color := {[src]} ∪ u]> (usedImages a)) a) ;;
                      ret (Some src)
                  | _ => throw (TypeError "this.usedImages[color] is undefined")
                  end
              end
          end
      end
  | _ => throw (TypeError "images.filter is not a function")
  end.

(** The scheduler's three moves. *)

Definition startZoneFade (r : Q) : M bool :=
  a <- this ;;
  let color := categories a !! currentZoneIndex a in
  imageSrc <- getRandomImage color r ;;
  match imageSrc with
  | Some src =>
      if negb (Js.truthy_str imageSrc)
      then emit (ConsoleWarn ("No images for color: " ++ Js.key color)) ;;
           ret false
      else
      match imageLoader_get src with
      | None => emit (ConsoleWarn ("Image not loaded: " ++ src)) ;; ret false
      | Some img =>
          a <- this ;;
          match zones a !! Js.key color with
          | None => throw (TypeError "this.zones[color] is undefined")
          | Some _ =>
              zoneAssign (Js.key color) (withIncoming (Some img)) ;;
              zoneAssign (Js.key color) (withAlpha 0) ;;
              a <- this ;;
              when (onStatusUpdate a)
                (emit (StatusUpdate color (currentSet a + 1))) ;;
              ret true
          end
      end
  | None =>
      emit (ConsoleWarn ("No images for color: " ++ Js.key color)) ;;
      ret false
  end.

Definition completeZoneFade : M unit :=
  a <- this ;;
  let color := categories a !! currentZoneIndex a in
  match zones a !! Js.key color with
  | None => throw (TypeError "zone is undefined")
  | Some zone =>
      zoneAssign (Js.key color) (withCurrent (incoming zone)) ;;
      zoneAssign (Js.key color) (withIncoming None) ;;
      zoneAssign (Js.key color) (withAlpha 0)
  end.

Definition advanceToNextZone : M unit :=
  assign (fun a => setCurrentZoneIndex (S (currentZoneIndex a)) a) ;;
  a <- this ;;
  if (length (categories a) <=? currentZoneIndex a)%nat then
    assign (setCurrentZoneIndex 0) ;;
    assign (fun a => setCurrentSet (S (currentSet a)) a) ;;
    a <- this ;;
    when (1000 <=? currentSet a)%nat (assign (setCurrentSet 0))
  else ret tt.

(** One step of the state machine, [deltaTime] in seconds. *)
Definition update (deltaTime r : Q) : M unit :=
  a <- this ;;
  let effectiveFadeDuration :=
    if prefersReducedMotion a then 1 # 10 else fadeDuration a in
  if transitioningOut a then
    assign (fun a =>
      setTransitionAlpha (transitionAlpha a - deltaTime / effectiveFadeDuration) a) ;;
    a <- this ;;
    if Js.le (transitionAlpha a) 0 then
      assign (setTransitionAlpha 0) ;;
      assign (setTransitioningOut false) ;;
      a <- this ;;
      when (onTransitionComplete a) (emit TransitionComplete)
    else ret tt
  else
    (if Js.lt (transitionAlpha a) 1 then
       assign (fun a =>
         setTransitionAlpha (transitionAlpha a + deltaTime / effectiveFadeDuration) a) ;;
       a <- this ;;
       when (Js.gt (transitionAlpha a) 1) (assign (setTransitionAlpha 1))
     else ret tt) ;;
    assign (fun a => setStateTime (stateTime a + deltaTime) a) ;;
    a <- this ;;
    match state a with
    | FADING =>
        let color := categories a !! currentZoneIndex a in
        match zones a !! Js.key color with
        | Some zone =>
            match incoming zone with
            | Some _ =>
                let progress := Qmin (stateTime a / effectiveFadeDuration) 1 in
                zoneAssign (Js.key color)
                  (withAlpha (if prefersReducedMotion a
                              then progress
                              else easeInOutCubic progress))
            | None => ret tt
            end
        | None => ret tt
        end ;;
        a <- this ;;
        if Js.ge (stateTime a) effectiveFadeDuration then
          completeZoneFade ;;
          assign (setState HOLDING) ;;
          assign (setStateTime 0)
        else ret tt
    | HOLDING =>
        if Js.ge (stateTime a) (holdDuration a) then
          advanceToNextZone ;;
          _ <- startZoneFade r ;;
          assign (setState FADING) ;;
          assign (setStateTime 0)
        else ret tt
    | IDLE => ret tt
    end.

(** The frame driver. *)

Definition loop (t : Tick) : M unit :=
  a <- this ;;
  if negb (running a) || paused a then ret tt else
  let elapsed := now t - lastFrameTime a in
  if Js.lt elapsed (frameInterval a * (9 # 10)) then
    emit (RequestAnimationFrame (handle t)) ;;
    assign (setAnimationId (Some (handle t)))
  else
    assign (setLastFrameTime (now t)) ;;
    a <- this ;;
    let deltaTime := Qmin ((now t - lastTime a) / 1000) (1 # 10) in
    assign (setLastTime (now t)) ;;
    assign (fun a => setFrameCount (S (frameCount a)) a) ;;
    a <- this ;;
    (if Js.ge (now t - fpsTime a) 1000 then
       assign (fun a => setCurrentFps (frameCount a) a) ;;
       assign (setFrameCount 0) ;;
       assign (setFpsTime (now t)) ;;
       a <- this ;;
       when (onFpsUpdate a) (emit (FpsUpdate (currentFps a)))
     else ret tt) ;;
    update deltaTime (rnd t) ;;
    render ;;
    emit (RequestAnimationFrame (handle t)) ;;
    assign (setAnimationId (Some (handle t))).

Definition pause : M unit :=
  a <- this ;;
  if negb (running a) then ret tt else
  assign (setPaused true) ;;
  a <- this ;;
  match animationId a with
  | Some id => emit (CancelAnimationFrame id) ;; assign (setAnimationId None)
  | None => ret tt
  end.

(** [t0] is the clock read by [resume] itself, [t] what the [loop] it
    calls reads. *)
Definition resume (t0 : Q) (t : Tick) : M unit :=
  a <- this ;;
  if negb (running a) || negb (paused a) then ret tt else
  assign (setPaused false) ;;
  assign (setLastTime t0) ;;
  assign (fun a => setLastFrameTime (lastTime a) a) ;;
  loop t.

(** [t0] and [r0] are the clock and the random value read by [start]
    itself, [t] what the [loop] it calls reads. *)
Definition start (t0 r0 : Q) (t : Tick) : M unit :=
  a <- this ;;
  if running a then ret tt else
  assign (setRunning true) ;;
  assign (setPaused false) ;;
  assign (setLastTime t0) ;;
  assign (fun a => setLastFrameTime (lastTime a) a) ;;
  assign (fun a => setFpsTime (lastTime a) a) ;;
  assign (setFrameCount 0) ;;
  _ <- startZoneFade r0 ;;
  assign (setState FADING) ;;
  assign (setStateTime 0) ;;
  loop t.

Definition stop : M unit :=
  assign (setRunning false) ;;
  assign (setPaused false) ;;
  a <- this ;;
  match animationId a with
  | Some id => emit (CancelAnimationFrame id) ;; assign (setAnimationId None)
  | None => ret tt
  end.

Definition beginTransition : M unit :=
  assign (setTransitioningOut true) ;;
  assign (setTransitionAlpha 1).

(** The getters. *)

Definition fps : M nat :=
  a <- this ;; ret (currentFps a).

Definition isRunning : M bool :=
  a <- this ;; ret (running a && negb (paused a)).

End Methods.

(** ** The public operations and the states they reach *)

(** What a caller, the browser or the user can do to an engine: call a
    method, run a scheduled frame ([loop]), assign one of the public
    timing fields, install or remove an observer, or change the
    reduced-motion preference (the media-query listener of the
    constructor). *)
Inductive Op : Type :=
| CallSetImages (images : gmap string (list string)) (cats : list string)
| CallSetFrame (frame : option Image)
| CallSetBackground (bg : option Image)
| CallReset
| CallStart (t0 r0 : Q) (t : Tick)
| CallStop
| CallPause
| CallResume (t0 : Q) (t : Tick)
| CallBeginTransition
| CallUpdate (deltaTime r : Q)
| CallRender
| CallResize (width height d : Q)
| Frame (t : Tick)
| AssignFadeDuration (v : Q)
| AssignHoldDuration (v : Q)
| AssignOnStatusUpdate (installed : bool)
| AssignOnFpsUpdate (installed : bool)
| AssignOnTransitionComplete (installed : bool)
| ReducedMotionChanged (reduced : bool).

Definition run (imageLoader_get : string -> option Image) (op : Op) : M unit :=
  match op with
  | CallSetImages images cats => setImages images cats
  | CallSetFrame frame => setFrame frame
  | CallSetBackground bg => setBackground bg
  | CallReset => reset
  | CallStart t0 r0 t => start imageLoader_get t0 r0 t
  | CallStop => stop
  | CallPause => pause
  | CallResume t0 t => resume imageLoader_get t0 t
  | CallBeginTransition => beginTransition
  | CallUpdate deltaTime r => update imageLoader_get deltaTime r
  | CallRender => render
  | CallResize width height d => resize width height d
  | Frame t => loop imageLoader_get t
  | AssignFadeDuration v => assign (setFadeDuration v)
  | AssignHoldDuration v => assign (setHoldDuration v)
  | AssignOnStatusUpdate b => assign (setOnStatusUpdate b)
  | AssignOnFpsUpdate b => assign (setOnFpsUpdate b)
  | AssignOnTransitionComplete b => assign (setOnTransitionComplete b)
  | ReducedMotionChanged reduced => assign (setPrefersReducedMotion reduced)
  end.

(** The states of an engine: a fresh one, and whatever an operation
    leaves behind, a throwing one included, with whatever the image
    cache holds at the time. *)
Inductive reachable : Animator -> Prop :=
| reach_new cv reduced : reachable (new_Animator cv reduced)
| reach_step a ld op : reachable a -> reachable (after (run ld op a)).

(** ** The premium engine variant

    A second [Animator] of the repository differs from the one above in
    its easing curves, in the reduced-motion fade duration and in the
    way [update] drives the style-switch dissolve; its selection,
    scheduler moves and draw pass are the same.  What differs is
    embedded here: the polynomial easing curves, and the two groups of
    statements of its [update] that compute the global alpha and the
    zone alpha. *)

Module Premium.

(** [easeOut]: fast response, gentle landing. *)
Definition easeOut (t : Q) : Q := 1 - Js.pow (1 - t) 3.

(** [easeInOutSoft]: quintic ease-in-out. *)
Definition easeInOutSoft (t : Q) : Q :=
  if Js.lt t (1 # 2)
  then 16 * t * t * t * t * t
  else 1 - Js.pow (-2 * t + 2) 5 / 2.

Definition easeInOutPremium (t : Q) : Q :=
  if Js.lt t (1 # 2) then 4 * t * t * t
  else
    let f := -2 * t + 2 in
    1 - (f * f * f) / 2.

(** [easeZoneFade]: quadratic ease-out refined by a smoothstep. *)
Definition easeZoneFade (t : Q) : Q :=
  let adjusted := t * (2 - t) in
  adjusted * adjusted * (3 - 2 * adjusted).

Definition easeInOutCubic (t : Q) : Q := easeInOutPremium t.

(** The fields of [this] the dissolve reads and writes;
    [transitionTime] is undefined until the first dissolve. *)
Record Dissolve : Type := mkDissolve {
  transitioningOut : bool;
  transitionAlpha : Q;
  transitionTime : option Q
}.

Definition effectiveFadeDuration (reduced : bool) (fadeDuration : Q) : Q :=
  if reduced then 15 # 100 else fadeDuration.

(** [this.transitionTime || 0] *)
Definition timeOrZero (t : option Q) : Q :=
  match t with Some v => Js.num_or v 0 | None => 0 end.

(** The head of [update]: the dissolve.  The result tells, besides the
    new fields, whether the transition-complete observer is due and
    whether [update] returns before it reaches the scheduler. *)
Definition dissolve (eff deltaTime : Q) (d : Dissolve) : Dissolve * bool * bool :=
  if transitioningOut d then
    let time := timeOrZero (transitionTime d) + deltaTime in
    let progress := Qmin (time / eff) 1 in
    if Js.ge progress 1
    then (mkDissolve false 0 (Some 0), true, true)
    else (mkDissolve true (1 - easeInOutSoft progress) (Some time), false, true)
  else if Js.lt (transitionAlpha d) 1 then
    let time := timeOrZero (transitionTime d) + deltaTime in
    let progress := Qmin (time / eff) 1 in
    if Js.ge progress 1
    then (mkDissolve false 1 (Some 0), false, false)
    else (mkDissolve false (easeOut progress) (Some time), false, false)
  else (d, false, false).

(** [beginTransition], which leaves [transitionTime] as it is. *)
Definition beginTransition (d : Dissolve) : Dissolve :=
  mkDissolve true 1 (transitionTime d).

(** The alpha the FADING branch writes to the active zone. *)
Definition zoneAlpha (reduced : bool) (stateTime eff : Q) : Q :=
  let progress := Qmin (stateTime / eff) 1 in
  if reduced then progress else easeZoneFade progress.

End Premium.

(** ** The premium variant's adaptive quality

    The premium engine rates the device once, when it is constructed,
    and afterwards watches the frame times to lower the rating when
    frames come too slowly. *)

Module Adaptive.

(** Quality tiers, best first. *)
Inductive Tier : Type := TierA | TierB | TierC.

(** What [detectQualityTier] reads from [navigator]; a field the
    browser does not provide is [None]. *)
Record Navigator : Type := mkNavigator {
  userAgent : string;
  deviceMemory : option Q;
  hardwareConcurrency : option nat
}.

(** [/word/.test(s)] for a pattern that is a plain word: [s] contains
    it. *)
Fixpoint contains (word s : string) : bool :=
  String.prefix word s ||
  match s with
  | EmptyString => false
  | String _ s' => contains word s'
  end.

Definition detectQualityTier (nav : Navigator) : Tier :=
  let ua := userAgent nav in
  let isSafari := contains "Safari" ua && negb (contains "Chrome" ua) in
  let isIOS := contains "iPhone" ua || contains "iPad" ua || contains "iPod" ua in
  let isAndroid := contains "Android" ua in
  let deviceMemory :=
    match deviceMemory nav with Some m => Js.num_or m 4 | None => 4 end in
  let hardwareConcurrency :=
    match hardwareConcurrency nav with Some (S n) => S n | _ => 4%nat end in
  if isSafari then TierA
  else if Js.ge deviceMemory 8 && (8 <=? hardwareConcurrency)%nat then TierA
  else if isAndroid || Js.lt deviceMemory 4 then TierB
  else if Js.ge deviceMemory 4 && (4 <=? hardwareConcurrency)%nat then TierA
  else TierB.

(** The fields of [this] behind the adaptive quality: the window of
    frame times in milliseconds, the tier, and whether a
    quality-change observer is installed. *)
Record Quality : Type := mkQuality {
  frameTimes : list Q;
  qualityTier : Tier;
  onQualityChange : bool
}.

(** A call of the quality-change observer. *)
Inductive QualityCall : Type :=
| QualityChange (tier : Tier) (effectiveFps : Q).

(** The two statements of [loop] that record a frame time:
    [frameTimes.push(elapsed)], then [shift()] once the window holds
    more than 60. *)
Definition trackFrameTime (elapsed : Q) (q : Quality) : Quality :=
  let pushed := (frameTimes q ++ [elapsed])%list in
  mkQuality (if (60 <? length pushed)%nat then tail pushed else pushed)
            (qualityTier q) (onQualityChange q).

Definition isTier (t u : Tier) : bool :=
  match t, u with
  | TierA, TierA | TierB, TierB | TierC, TierC => true
  | _, _ => false
  end.

(** [checkAdaptiveQuality].  An average frame time of 0 makes the
    effective rate infinite, which is below no threshold. *)
Definition checkAdaptiveQuality (q : Quality) : Quality * list QualityCall :=
  if (length (frameTimes q) <? 30)%nat then (q, []) else
  let avgFrameTime :=
    foldl Qplus 0 (frameTimes q) / inject_Z (Z.of_nat (length (frameTimes q))) in
  if Qeq_bool avgFrameTime 0 then (q, []) else
  let effectiveFps := 1000 / avgFrameTime in
  if Js.lt effectiveFps 55 && isTier (qualityTier q) TierA then
    (mkQuality (frameTimes q) TierB (onQualityChange q),
     if onQualityChange q then [QualityChange TierB effectiveFps] else [])
  else if Js.lt effectiveFps 45 && isTier (qualityTier q) TierB then
    (mkQuality (frameTimes q) TierC (onQualityChange q),
     if onQualityChange q then [QualityChange TierC effectiveFps] else [])
  else (q, []).

End Adaptive.

(** ** The image cache

    [window.imageLoader], the singleton the engine asks for decoded
    images: the synchronous methods of [ImageLoader], and of
    [preloadAll] the part that runs before the first image is
    requested. *)

Module Loader.

(** A JavaScript [Map] keyed by strings: its entries in insertion
    order, no key twice. *)
Definition JsMap (V : Type) : Type := list (string * V).

Fixpoint map_get {V} (m : JsMap V) (k : string) : option V :=
  match m with
  | [] => None
  | (k', v) :: m' => if decide (k' = k) then Some v else map_get m' k
  end.

Definition map_has {V} (m : JsMap V) (k : string) : bool :=
  match map_get m k with Some _ => true | None => false end.

(** [m.set(k, v)]: a key that is present keeps its place. *)
Fixpoint map_set {V} (m : JsMap V) (k : string) (v : V) : JsMap V :=
  match m with
  | [] => [(k, v)]
  | (k', v') :: m' =>
      if decide (k' = k) then (k', v) :: m' else (k', v') :: map_set m' k v
  end.

Definition map_values {V} (m : JsMap V) : list V := map snd m.

Definition map_size {V} (m : JsMap V) : nat := length m.

Inductive Priority : Type := High | Low | Auto.

Record ConnectionQuality : Type := mkConnectionQuality {
  batchSize : nat;
  priority : Priority
}.



(** The fields of the loader.  An abort controller is known by a
    handle. *)
Record ImageLoader : Type := mkImageLoader {
  cache : JsMap Image;
  bitmapCache : JsMap Image;
  abortControllers : JsMap positive;
  supportsImageBitmap : bool;
  supportsAbortController : bool;
  connectionQuality : ConnectionQuality
}.

(** The calls the loader makes on its collaborators. *)
Inductive LoaderCall : Type :=
| CloseBitmap (bitmap : Image)
| Abort (controller : positive)
| Progress (loaded total : nat).

(** [isLowMemory]; [deviceMemory] is [navigator.deviceMemory]. *)
Definition isLowMemory (deviceMemory : option Q) (l : ImageLoader) : bool :=
  if match deviceMemory with
     | Some m => negb (Qeq_bool m 0) && Js.lt m 4
     | None => false
     end
  then true
  else if (200 <? map_size (cache l))%nat then true
  else false.

Definition get (l : ImageLoader) (src : string) : option Image :=
  match map_get (bitmapCache l) src with
  | Some bitmap => Some bitmap
  | None => map_get (cache l) src
  end.

Definition has (l : ImageLoader) (src : string) : bool :=
  map_has (bitmapCache l) src || map_has (cache l) src.

Definition clear (l : ImageLoader) : ImageLoader * list LoaderCall :=
  (mkImageLoader [] [] (abortControllers l) (supportsImageBitmap l)
     (supportsAbortController l) (connectionQuality l),
   map CloseBitmap (map_values (bitmapCache l))).

Definition cancelAll (l : ImageLoader) : ImageLoader * list LoaderCall :=
  (mkImageLoader (cache l) (bitmapCache l) [] (supportsImageBitmap l)
     (supportsAbortController l) (connectionQuality l),
   map Abort (map_values (abortControllers l))).

Definition size (l : ImageLoader) : nat :=
  (map_size (cache l) + map_size (bitmapCache l))%nat.

(** What [preloadAll] has gathered when its first loop ends. *)
Record Gathered : Type := mkGathered {
  results : JsMap Image;
  loaded : nat;
  toLoad : list string
}.

(** The first loop of [preloadAll]: the sources already cached go to
    the results, the others are queued. *)
Fixpoint gather (l : ImageLoader) (sources : list string) (g : Gathered) : Gathered :=
  match sources with
  | [] => g
  | src :: rest =>
      gather l rest
        match map_get (bitmapCache l) src with
        | Some bitmap =>
            mkGathered (map_set (results g) src bitmap) (S (loaded g)) (toLoad g)
        | None =>
            match map_get (cache l) src with
            | Some img =>
                mkGathered (map_set (results g) src img) (S (loaded g)) (toLoad g)
            | None => mkGathered (results g) (loaded g) (toLoad g ++ [src])
            end
        end
  end.

(** How [preloadAll] stands where it first gives up control: returned,
    or about to load its first batch. *)
Inductive Preload : Type :=
| Returned (results : JsMap Image) (calls : list LoaderCall)
| Loading (g : Gathered) (calls : list LoaderCall) (batchSize : nat)
    (batch : list string).

(** [preloadAll] up to its first [await]; [onProgress] tells whether a
    progress callback was passed, [innerWidth] is [window.innerWidth]. *)
Definition preloadAll (deviceMemory : option Q) (innerWidth : Q)
    (l : ImageLoader) (sources : list string) (onProgress : bool) : Preload :=
  let total := length sources in
  let g := gather l sources (mkGathered [] 0 []) in
  let calls :=
    if onProgress && (0 <? loaded g)%nat then [Progress (loaded g) total] else [] in
  if (length (toLoad g) =? 0)%nat then Returned (results g) calls else
  let batchSize := batchSize (connectionQuality l) in
  let batchSize :=
    if isLowMemory deviceMemory l then Nat.min batchSize 8 else batchSize in
  let batchSize :=
    if Js.lt innerWidth 600 then Nat.min batchSize 10 else batchSize in
  Loading g calls batchSize (take batchSize (toLoad g)).

End Loader.

(** ** The application's helpers

    The functions of the page script that size the canvas and choose
    the resolutions to load. *)

Module App.

(** [handleResize]: the canvas becomes the largest square with an
    integer side that fits the container, whose bounding rectangle is
    [rectWidth] by [rectHeight]. *)
Definition handleResize (rectWidth rectHeight : Q) : M unit :=
  let size := Qmin rectWidth rectHeight in
  resize (inject_Z (Qfloor size)) (inject_Z (Qfloor size)) 1.

(** [findBestIntroResolution]; [intros] holds the keys of
    [config.intros] as numbers, [None] when the configuration has no
    intros.  The numeric sort is a merge sort, as the array sort of
    the JavaScript engines is. *)
Definition findBestIntroResolution (intros : option (list Z)) (targetRes : Z)
  : option Z :=
  match intros with
  | None => None
  | Some keys =>
      let available := merge_sort Z.le keys in
      match available with
      | [] => None
      | first :: _ =>
          Some (foldl (fun best res => if (res <=? targetRes)%Z then res else best)
                  first available)
      end
  end.

(** [isMobile] *)
Definition isMobile (innerWidth innerHeight : Q) : bool :=
  Js.lt innerWidth 600 || Js.lt innerHeight 600.

(** [getOptimalResolution] of the premium application; [None] is a
    missing list. *)
Definition getOptimalResolution (innerWidth innerHeight : Q)
    (availableResolutions : option (list Z)) : option Z :=
  match availableResolutions with
  | None | Some [] => None
  | Some (first :: rest) =>
      let available := first :: rest in
      let mobilePreferred := filter (fun r => (r <= 1680)%Z) available in
      match isMobile innerWidth innerHeight, mobilePreferred with
      | true, m :: ms => Some (foldl Z.max m ms)
      | _, _ =>
          if decide (1680%Z ∈ available) then Some 1680%Z else Some first
      end
  end.

(** [loadStyle], as far as the engine is concerned.  The function
    gives up control twice, while the images are preloaded and while
    the frame is loaded, which cuts its calls on the engine into three
    runs. *)

(** Before the preload: [animator.stop(); animator.reset()]. *)
Definition loadStyle_halt : M unit :=
  stop ;; reset.

(** After the preload: the background, then the images. *)
Definition loadStyle_install (backgroundImage : option Image)
    (imagesByColor : gmap string (list string)) (categories : list string) : M unit :=
  setBackground backgroundImage ;;
  setImages imagesByColor categories.

(** After [updateFrame]: the frame it found, then the start. *)
Definition loadStyle_start (imageLoader_get : string -> option Image)
    (frameImage : option Image) (t0 r0 : Q) (t : Tick) : M unit :=
  setFrame frameImage ;;
  start imageLoader_get t0 r0 t.

(** A style load that nothing interrupts. *)
Definition loadStyle (imageLoader_get : string -> option Image)
    (backgroundImage : option Image)
    (imagesByColor : gmap string (list string)) (categories : list string)
    (frameImage : option Image) (t0 r0 : Q) (t : Tick) : M unit :=
  loadStyle_halt ;;
  loadStyle_install backgroundImage imagesByColor categories ;;
  loadStyle_start imageLoader_get frameImage t0 r0 t.

End App.

(** * Verification *)

(** ** Comparisons *)

Lemma Js_lt_spec a b : Js.lt a b = true <-> a < b.
Proof.
  unfold Js.lt. rewrite negb_true_iff, <- not_true_iff_false, Qle_bool_iff.
  split; [apply Qnot_le_lt | apply Qlt_not_le].
Qed.

Lemma Js_le_spec a b : Js.le a b = true <-> a <= b.
Proof. apply Qle_bool_iff. Qed.

Lemma Js_lt_false a b : Js.lt a b = false <-> b <= a.
Proof.
  unfold Js.lt. rewrite negb_false_iff. apply Qle_bool_iff.
Qed.

Lemma Js_le_false a b : Js.le a b = false <-> b < a.
Proof.
  unfold Js.le. rewrite <- not_true_iff_false, Qle_bool_iff.
  split; [apply Qnot_le_lt | apply Qlt_not_le].
Qed.

(** ** Running a computation *)

(** Read the fields of an engine written as a chain of assignments. *)
Ltac fields :=
  cbn [
    canvas displayWidth displayHeight dpr running paused animationId lastTime
    fadeDuration holdDuration prefersReducedMotion state stateTime
    imagesByColor categories frameImage backgroundImage zones
    currentZoneIndex currentSet usedImages transitioningOut transitionAlpha
    frameCount fpsTime currentFps targetFps frameInterval lastFrameTime
    onStatusUpdate onFpsUpdate onTransitionComplete setCanvas setDisplayWidth
    setDisplayHeight setDpr setRunning setPaused setAnimationId setLastTime
    setFadeDuration setHoldDuration setPrefersReducedMotion setState
    setStateTime setImagesByColor setCategories setFrameImage
    setBackgroundImage setZones setCurrentZoneIndex setCurrentSet
    setUsedImages setTransitioningOut setTransitionAlpha setFrameCount
    setFpsTime setCurrentFps setLastFrameTime
    setOnStatusUpdate setOnFpsUpdate setOnTransitionComplete ].

(** Two engines with the same fields are the same engine. *)
Lemma Animator_ext (a b : Animator) :
  canvas a = canvas b ->
  displayWidth a = displayWidth b ->
  displayHeight a = displayHeight b ->
  dpr a = dpr b ->
  running a = running b ->
  paused a = paused b ->
  animationId a = animationId b ->
  lastTime a = lastTime b ->
  fadeDuration a = fadeDuration b ->
  holdDuration a = holdDuration b ->
  prefersReducedMotion a = prefersReducedMotion b ->
  state a = state b ->
  stateTime a = stateTime b ->
  imagesByColor a = imagesByColor b ->
  categories a = categories b ->
  frameImage a = frameImage b ->
  backgroundImage a = backgroundImage b ->
  zones a = zones b ->
  currentZoneIndex a = currentZoneIndex b ->
  currentSet a = currentSet b ->
  usedImages a = usedImages b ->
  transitioningOut a = transitioningOut b ->
  transitionAlpha a = transitionAlpha b ->
  frameCount a = frameCount b ->
  fpsTime a = fpsTime b ->
  currentFps a = currentFps b ->
  targetFps a = targetFps b ->
  frameInterval a = frameInterval b ->
  lastFrameTime a = lastFrameTime b ->
  onStatusUpdate a = onStatusUpdate b ->
  onFpsUpdate a = onFpsUpdate b ->
  onTransitionComplete a = onTransitionComplete b ->
  a = b.
Proof. destruct a, b. cbn. intros. by subst. Qed.

(** Settle an equation between engines field by field. *)
Ltac same_engine := apply Animator_ext; fields; try reflexivity.

Lemma reply_ext {A} (o : Outcome A) (a b : Animator) (es : list Event) :
  a = b -> mkReply o a es = mkReply o b es.
Proof. by intros ->. Qed.

(** Equations that run a computation one statement at a time. *)
Section Run.

Context {A B : Type}.
Implicit Types (a : Animator) (k : A -> M B).

Lemma reply_eta (r : Reply A) : mkReply (outcome r) (after r) (emitted r) = r.
Proof. by destruct r. Qed.

Lemma run_ret (v : A) k a : (x <- ret v ;; k x) a = k v a.
Proof. unfold bind, ret. simpl. by destruct (k v a). Qed.

Lemma run_this (k : Animator -> M B) a : (x <- this ;; k x) a = k a a.
Proof. unfold bind, this. simpl. by destruct (k a a). Qed.

Lemma run_assign (f : Animator -> Animator) (c : M B) a :
  (assign f ;; c) a = c (f a).
Proof. unfold bind, assign. simpl. by destruct (c (f a)). Qed.

Lemma run_emit (e : Event) (c : M B) a : (emit e ;; c) a = logged e (c a).
Proof. reflexivity. Qed.

Lemma run_throw (e : JsError) k a :
  (x <- throw e ;; k x) a = mkReply (Thrown e) a [].
Proof. reflexivity. Qed.

Lemma run_seq (c : M A) k a :
  (x <- c ;; k x) a =
    match outcome (c a) with
    | Normal v =>
        let r' := k v (after (c a)) in
        mkReply (outcome r') (after r') (emitted (c a) ++ emitted r')
    | Thrown e => mkReply (Thrown e) (after (c a)) (emitted (c a))
    end.
Proof. reflexivity. Qed.

End Run.

Lemma run_assoc {A B C} (c : M A) (k : A -> M B) (h : B -> M C) a :
  (y <- (x <- c ;; k x) ;; h y) a = (x <- c ;; y <- k x ;; h y) a.
Proof.
  unfold bind. simpl. destruct (outcome (c a)); simpl; [|done].
  destruct (outcome (k v (after (c a)))); simpl; [|done].
  by rewrite app_assoc.
Qed.

Lemma run_assign_end (f : Animator -> Animator) a :
  assign f a = mkReply (Normal tt) (f a) [].
Proof. reflexivity. Qed.

Lemma run_ret_end {A} (v : A) a : ret v a = mkReply (Normal v) a [].
Proof. reflexivity. Qed.

Lemma run_emit_end (e : Event) a : emit e a = mkReply (Normal tt) a [e].
Proof. reflexivity. Qed.

Lemma run_when_true (c : M unit) : when true c = c.
Proof. reflexivity. Qed.

Lemma run_when_false (c : M unit) : when false c = ret tt.
Proof. reflexivity. Qed.

Create Rewrite HintDb run.
#[export] Hint Rewrite @run_ret @run_this @run_assign @run_emit @run_throw
  @run_assoc @run_when_true @run_when_false : run.

(** [step] runs the statements at the head of the goal's computation. *)
Ltac step := repeat (autorewrite with run; cbv beta).

(** ** Image selection *)

Section Selection.

Implicit Types (a : Animator) (color : option string) (r : Q).
Implicit Types (images : list string) (used : gset string).

(** The images of a category not yet shown in the current window. *)
Definition availableOf images used : list string :=
  filter (fun src => src ∉ used) images.

(** Every image of the category has been shown: the window is
    exhausted. *)
Definition exhausted images used : Prop :=
  forall src, src ∈ images -> src ∈ used.

Lemma availableOf_nil images used :
  availableOf images used = [] <-> exhausted images used.
Proof.
  unfold availableOf, exhausted. split.
  - intros Hnil src Hin. destruct (decide (src ∈ used)) as [|Hout]; [done|].
    exfalso. eapply filter_nil_not_elem_of; [exact Hnil | exact Hout | exact Hin].
  - intros Hall. destruct (filter _ images) as [|x l] eqn:E; [done|].
    assert (Hx : x ∈ filter (fun src => src ∉ used) images)
      by (rewrite E; apply list_elem_of_here).
    apply list_elem_of_filter in Hx as [Hout Hin]. destruct Hout. by apply Hall.
Qed.

(** [Math.floor(r * n)] is an index below [n] when [r] is in [0,1). *)
Lemma floor_index_lt r (n : nat) :
  0 <= r -> r < 1 -> (0 < n)%nat ->
  exists i, Js.floor_index (r * inject_Z (Z.of_nat n)) = Some i /\ (i < n)%nat.
Proof.
  intros Hr0 Hr1 Hn. unfold Js.floor_index.
  set (x := r * inject_Z (Z.of_nat n)).
  assert (Hn' : 0 < inject_Z (Z.of_nat n)).
  { change 0 with (inject_Z 0). rewrite <- Zlt_Qlt. lia. }
  assert (Hx0 : 0 <= x) by (unfold x; nra).
  assert (Hx1 : x < inject_Z (Z.of_nat n)) by (unfold x; nra).
  assert (H0 : (0 <= Qfloor x)%Z).
  { change 0%Z with (Qfloor 0). by apply Qfloor_resp_le. }
  assert (H1 : (Qfloor x < Z.of_nat n)%Z).
  { rewrite Zlt_Qlt. eapply Qle_lt_trans; [apply Qfloor_le | exact Hx1]. }
  destruct (Z.ltb_spec (Qfloor x) 0) as [|_]; [lia|].
  exists (Z.to_nat (Qfloor x)). split; [reflexivity | lia].
Qed.

(** Reading a key the object has as a property of its own, and one that
    neither the object nor its prototype has. *)
Lemma get_own {V} (m : gmap string V) k v :
  m !! k = Some v -> Js.get m k = Js.Own v.
Proof. intros H. unfold Js.get. by rewrite H. Qed.

Lemma get_undefined {V} (m : gmap string V) k :
  m !! k = None -> Js.member k Js.ObjectPrototype = None -> Js.get m k = Js.Undefined.
Proof. intros H H'. unfold Js.get. by rewrite H, H'. Qed.

Lemma get_foreign {V} (m : gmap string V) k i :
  m !! k = None -> Js.member k Js.ObjectPrototype = Some i -> Js.get m k = Js.Foreign i.
Proof. intros H H'. unfold Js.get. by rewrite H, H'. Qed.

(** What one selection does, in full: it draws from the unused images,
    or from the whole list after clearing an exhausted window, records
    the choice, touches nothing else, throws nothing and calls nobody. *)
Lemma getRandomImage_run a color r images used :
  imagesByColor a !! Js.key color = Some images ->
  images <> [] ->
  usedImages a !! Js.key color = Some used ->
  0 <= r -> r < 1 ->
  let available := availableOf images used in
  let pool := if decide (available = []) then images else available in
  let window := if decide (available = []) then ∅ else used in
  exists i src,
    Js.floor_index (r * inject_Z (Z.of_nat (length pool))) = Some i /\
    pool !! i = Some src /\
    getRandomImage color r a =
      mkReply (Normal (Some src))
        (setUsedImages (<[Js.key color := {[src]} ∪ window]> (usedImages a)) a) [].
Proof.
  intros Himg Hne Hused Hr0 Hr1 available pool window.
  assert (Hpool : (0 < length pool)%nat).
  { unfold pool. destruct (decide (available = [])) as [|Hav].
    - destruct images; [done | simpl; lia].
    - destruct available; [done | simpl; lia]. }
  destruct (floor_index_lt r (length pool) Hr0 Hr1 Hpool) as (i & Hi & Hlt).
  destruct (lookup_lt_is_Some_2 pool i Hlt) as [src Hsrc].
  exists i, src. split; [exact Hi|]. split; [exact Hsrc|].
  unfold getRandomImage. step.
  rewrite (get_own _ _ _ Himg), (get_own _ _ _ Hused). cbn [noLength].
  replace (length images =? 0)%nat with false
    by (destruct images; [done | reflexivity]).
  fold (availableOf images used). fold available.
  unfold pool, window in *. clear pool window.
  destruct (decide (available = [])) as [Hav|Hav].
  - rewrite Hav. cbn [length Nat.eqb]. step. rewrite Hi, Hsrc. step.
    cbn [usedImages setUsedImages].
    rewrite (get_own _ _ _ (lookup_insert_eq _ _ _)). step.
    unfold ret. f_equal. unfold setUsedImages. cbn.
    by rewrite insert_insert_eq.
  - replace (length available =? 0)%nat with false
      by (destruct available; [done | reflexivity]).
    step. rewrite Hi, Hsrc. step. rewrite (get_own _ _ _ Hused). step.
    reflexivity.
Qed.

(** The category's window after a selection. *)
Definition windowAfter {A} (rep : Reply A) color : gset string :=
  default ∅ (usedImages (after rep) !! Js.key color).

(** C1 (as amended).  For a category with at least one image, a
    selection returns one of the category's images and records it in
    the used set.  While some image is unused the result is not in the
    used set.  When the used set covers all images it is cleared first
    and the draw is from the full list, so the used set becomes the
    result alone.  The next selection differs from this one whenever
    it does not itself start from an exhausted window. *)
Theorem getRandomImage_no_repeat_within_window a color r images used :
  imagesByColor a !! Js.key color = Some images ->
  images <> [] ->
  usedImages a !! Js.key color = Some used ->
  0 <= r -> r < 1 ->
  exists src,
    let rep := getRandomImage color r a in
    outcome rep = Normal (Some src) /\
    emitted rep = [] /\
    after rep = setUsedImages (usedImages (after rep)) a /\
    src ∈ images /\
    src ∈ windowAfter rep color /\
    (~ exhausted images used ->
       (src ∉ used) /\ windowAfter rep color = {[src]} ∪ used) /\
    (exhausted images used ->
       windowAfter rep color = {[src]} /\
       exists i, Js.floor_index (r * inject_Z (Z.of_nat (length images))) = Some i /\
                 images !! i = Some src) /\
    (forall r', 0 <= r' -> r' < 1 ->
       ~ exhausted images (windowAfter rep color) ->
       exists src', outcome (getRandomImage color r' (after rep)) = Normal (Some src') /\
                    src' <> src).
Proof.
  intros Himg Hne Hused Hr0 Hr1.
  destruct (getRandomImage_run a color r images used Himg Hne Hused Hr0 Hr1)
    as (i & src & Hi & Hsrc & Hrun).
  exists src. cbv zeta. rewrite Hrun. cbn [outcome emitted after].
  unfold windowAfter. cbn [after usedImages setUsedImages].
  rewrite lookup_insert_eq. cbn [from_option id].
  assert (Hnext : forall w r', 0 <= r' -> r' < 1 -> src ∈ w ->
            ~ exhausted images w ->
            exists src',
              outcome (getRandomImage color r'
                (setUsedImages (<[Js.key color := w]> (usedImages a)) a))
                = Normal (Some src') /\ src' <> src).
  { intros w r' Hr0' Hr1' Hw Hnex.
    destruct (getRandomImage_run
                (setUsedImages (<[Js.key color := w]> (usedImages a)) a)
                color r' images w) as (j & src' & _ & Hsrc' & Hrun');
      [exact Himg | exact Hne | apply lookup_insert_eq | exact Hr0' | exact Hr1' |].
    exists src'. rewrite Hrun'. split; [reflexivity|].
    destruct (decide (availableOf images w = [])) as [Hav|Hav].
    - destruct Hnex. by apply availableOf_nil.
    - apply list_elem_of_lookup_2 in Hsrc'.
      apply list_elem_of_filter in Hsrc' as [Hout _]. congruence. }
  destruct (decide (availableOf images used = [])) as [Hav|Hav].
  - apply availableOf_nil in Hav.
    rewrite (right_id_L ∅ (∪)).
    split_and!; try done.
    + by eapply list_elem_of_lookup_2.
    + set_solver.
    + intros _. split; [done | by eauto].
    + intros r' Hr0' Hr1' Hnex. apply Hnext; [done | done | set_solver | done].
  - assert (Hin : src ∈ availableOf images used) by by eapply list_elem_of_lookup_2.
    apply list_elem_of_filter in Hin as [Hout Hin].
    split_and!; try done.
    + set_solver.
    + intros Hex. destruct Hav. by apply availableOf_nil.
    + intros r' Hr0' Hr1' Hnex. apply Hnext; [done | done | set_solver | done].
Qed.

End Selection.

(** A palette of two pink images, freshly installed. *)
Definition twoPinks : Animator :=
  after (setImages {[ "pink" := ["p1"; "p2"] ]} ["pink"]
           (new_Animator (mkCanvas 800 800) false)).

Lemma getRandomImage_no_repeat_within_window_witness :
  exists src,
    let rep := getRandomImage (Some "pink") (1 # 2) twoPinks in
    outcome rep = Normal (Some src) /\
    emitted rep = [] /\
    after rep = setUsedImages (usedImages (after rep)) twoPinks /\
    src ∈ ["p1"; "p2"] /\
    src ∈ windowAfter rep (Some "pink") /\
    (~ exhausted ["p1"; "p2"] ∅ ->
       (src ∉ (∅ : gset string)) /\ windowAfter rep (Some "pink") = {[src]} ∪ ∅) /\
    (exhausted ["p1"; "p2"] ∅ ->
       windowAfter rep (Some "pink") = {[src]} /\
       exists i, Js.floor_index ((1 # 2) * inject_Z (Z.of_nat 2)) = Some i /\
                 ["p1"; "p2"] !! i = Some src) /\
    (forall r', 0 <= r' -> r' < 1 ->
       ~ exhausted ["p1"; "p2"] (windowAfter rep (Some "pink")) ->
       exists src', outcome (getRandomImage (Some "pink") r' (after rep))
                    = Normal (Some src') /\
                    src' <> src).
Proof.
  apply (getRandomImage_no_repeat_within_window twoPinks (Some "pink") (1 # 2)
           ["p1"; "p2"] ∅).
  - vm_compute. reflexivity.
  - discriminate.
  - vm_compute. reflexivity.
  - vm_compute. discriminate.
  - vm_compute. reflexivity.
Defined.

(** C1 as stated fails: with two images, the selection that exhausts the
    window and the one right after it can return the same image. *)
Lemma getRandomImage_repeats_after_exhaustion :
  let first := getRandomImage (Some "pink") 0 twoPinks in
  let second := getRandomImage (Some "pink") 0 (after first) in
  let third := getRandomImage (Some "pink") (1 # 2) (after second) in
  imagesByColor twoPinks !! "pink" = Some ["p1"; "p2"] /\
  outcome first = Normal (Some "p1") /\
  outcome second = Normal (Some "p2") /\
  outcome third = Normal (Some "p2").
Proof. vm_compute. repeat split; reflexivity. Qed.

(** ** The scheduler's moves, one at a time *)

(** The property key of the active zone, [this.categories[this.currentZoneIndex]]. *)
Definition activeKey (a : Animator) : string :=
  Js.key (categories a !! currentZoneIndex a).

(** The fade duration [update] works with. *)
Definition effectiveFadeDuration (a : Animator) : Q :=
  if prefersReducedMotion a then 1 # 10 else fadeDuration a.

Section Moves.

Variable imageLoader_get : string -> option Image.
Implicit Types (a : Animator) (r : Q).

Lemma setZones_id a : setZones (zones a) a = a.
Proof. by destruct a. Qed.

Lemma setUsedImages_id a : setUsedImages (usedImages a) a = a.
Proof. by destruct a. Qed.

(** Three field assignments on an existing zone object amount to
    storing the resulting zone. *)
Lemma alter_thrice (f g h : Zone -> Zone) k (m : gmap string Zone) z :
  m !! k = Some z ->
  alter h k (alter g k (alter f k m)) = <[k := h (g (f z))]> m.
Proof.
  intros Hz. apply map_eq. intros j.
  destruct (decide (k = j)) as [<-|Hne].
  - rewrite lookup_insert_eq, !lookup_alter_eq, Hz. reflexivity.
  - by rewrite lookup_insert_ne, !lookup_alter_ne.
Qed.

Lemma alter_twice (f g : Zone -> Zone) k (m : gmap string Zone) z :
  m !! k = Some z ->
  alter g k (alter f k m) = <[k := g (f z)]> m.
Proof.
  intros Hz. apply map_eq. intros j.
  destruct (decide (k = j)) as [<-|Hne].
  - rewrite lookup_insert_eq, !lookup_alter_eq, Hz. reflexivity.
  - by rewrite lookup_insert_ne, !lookup_alter_ne.
Qed.

Lemma alter_once (f : Zone -> Zone) k (m : gmap string Zone) z :
  m !! k = Some z ->
  alter f k m = <[k := f z]> m.
Proof.
  intros Hz. apply map_eq. intros j.
  destruct (decide (k = j)) as [<-|Hne].
  - rewrite lookup_insert_eq, !lookup_alter_eq, Hz. reflexivity.
  - by rewrite lookup_insert_ne, !lookup_alter_ne.
Qed.

Lemma completeZoneFade_run a zone :
  zones a !! activeKey a = Some zone ->
  completeZoneFade a =
    mkReply (Normal tt)
      (setZones (<[activeKey a := mkZone (incoming zone) None 0]> (zones a)) a) [].
Proof.
  intros Hz. unfold completeZoneFade. step. fold (activeKey a). rewrite Hz.
  unfold zoneAssign. step. rewrite run_assign_end. f_equal.
  cbn [zones setZones]. unfold setZones at 1 2 3. cbn.
  f_equal. by rewrite (alter_thrice _ _ _ _ _ zone).
Qed.

Lemma completeZoneFade_throw a :
  zones a !! activeKey a = None ->
  completeZoneFade a = mkReply (Thrown (TypeError "zone is undefined")) a [].
Proof.
  intros Hz. unfold completeZoneFade. step. fold (activeKey a). by rewrite Hz.
Qed.

(** The cursor after one advance. *)
Definition nextIndex a : nat :=
  if (length (categories a) <=? S (currentZoneIndex a))%nat
  then O else S (currentZoneIndex a).

Definition nextSet a : nat :=
  if (length (categories a) <=? S (currentZoneIndex a))%nat
  then (if (1000 <=? S (currentSet a))%nat then O else S (currentSet a))
  else currentSet a.

Lemma advanceToNextZone_run a :
  advanceToNextZone a =
    mkReply (Normal tt)
      (setCurrentSet (nextSet a) (setCurrentZoneIndex (nextIndex a) a)) [].
Proof.
  unfold advanceToNextZone, nextIndex, nextSet. step.
  cbn [categories currentZoneIndex setCurrentZoneIndex].
  destruct (length (categories a) <=? S (currentZoneIndex a))%nat.
  - step. cbn [currentSet setCurrentSet setCurrentZoneIndex].
    destruct (1000 <=? S (currentSet a))%nat.
    + rewrite run_when_true, run_assign_end. reflexivity.
    + rewrite run_when_false, run_ret_end. by destruct a.
  - rewrite run_ret_end. by destruct a.
Qed.

(** Used sets are never removed, only cleared or extended. *)
Definition usedKept a (u : gmap string (gset string)) : Prop :=
  forall k, is_Some (usedImages a !! k) -> is_Some (u !! k).

Lemma usedKept_refl a : usedKept a (usedImages a).
Proof. by intros k Hk. Qed.

Lemma usedKept_insert a k s :
  usedKept a (<[k := s]> (usedImages a)).
Proof.
  intros j Hj. destruct (decide (k = j)) as [<-|Hne].
  - rewrite lookup_insert_eq. by eexists.
  - by rewrite lookup_insert_ne.
Qed.

Lemma usedKept_insert2 a k s s' :
  usedKept a (<[k := s]> (<[k := s']> (usedImages a))).
Proof.
  intros j Hj. destruct (decide (k = j)) as [<-|Hne].
  - rewrite lookup_insert_eq. by eexists.
  - by rewrite !lookup_insert_ne.
Qed.

(** A key under which a dictionary holds a property of its own, or
    which is not the name of a member of [Object.prototype]: reading it
    gives the property or [undefined], never an inherited member. *)
Definition plain {V} (m : gmap string V) (k : string) : Prop :=
  is_Some (m !! k) \/ Js.member k Js.ObjectPrototype = None.

Lemma get_plain {V} (m : gmap string V) k :
  plain m k ->
  Js.get m k =
    match m !! k with Some v => Js.Own v | None => Js.Undefined end.
Proof.
  intros [[v Hv]|Hk]; unfold Js.get.
  - by rewrite Hv.
  - by rewrite Hk.
Qed.

Lemma get_Own_inv {V} (m : gmap string V) k v :
  Js.get m k = Js.Own v -> m !! k = Some v.
Proof.
  unfold Js.get. destruct (m !! k); [by intros [= ->]|].
  by destruct (Js.member k Js.ObjectPrototype).
Qed.

Lemma get_not_Own {V} (m : gmap string V) k :
  (forall v, Js.get m k <> Js.Own v) -> m !! k = None.
Proof.
  intros H. destruct (m !! k) as [v|] eqn:E; [|done].
  destruct (H v). by apply get_own.
Qed.

(** A selection touches the used sets only, whatever it is given.  It
    throws only when the category has images but no used set, or when
    the read of its images finds an inherited member; what it returns
    is an image of a list the category has. *)
Lemma getRandomImage_frame a color r :
  exists u, after (getRandomImage color r a) = setUsedImages u a /\
            emitted (getRandomImage color r a) = [] /\
            usedKept a u /\
            (is_Some (usedImages a !! Js.key color) ->
             plain (imagesByColor a) (Js.key color) ->
             exists v, outcome (getRandomImage color r a) = Normal v) /\
            (forall src, outcome (getRandomImage color r a) = Normal (Some src) ->
             default [] (imagesByColor a !! Js.key color) <> []).
Proof.
  set (rep := getRandomImage color r a).
  assert (Hrep : getRandomImage color r a = rep) by done. clearbody rep.
  assert (Hsame : forall (o : Outcome (option string)),
            (forall src, o <> Normal (Some src)) ->
            (is_Some (usedImages a !! Js.key color) ->
             plain (imagesByColor a) (Js.key color) -> exists v, o = Normal v) ->
            mkReply o a [] = rep ->
            exists u, after rep = setUsedImages u a /\
              emitted rep = [] /\ usedKept a u /\
              (is_Some (usedImages a !! Js.key color) ->
               plain (imagesByColor a) (Js.key color) ->
               exists v, outcome rep = Normal v) /\
              (forall src, outcome rep = Normal (Some src) ->
               default [] (imagesByColor a !! Js.key color) <> [])).
  { intros o Ho Hok <-. exists (usedImages a). rewrite setUsedImages_id. cbn.
    split_and!; [done | done | apply usedKept_refl | exact Hok |].
    intros src Hsrc. by destruct (Ho src). }
  assert (Hset : forall (o : Outcome (option string)) u,
            usedKept a u -> (exists v, o = Normal v) ->
            default [] (imagesByColor a !! Js.key color) <> [] ->
            mkReply o (setUsedImages u a) [] = rep ->
            exists u, after rep = setUsedImages u a /\
              emitted rep = [] /\ usedKept a u /\
              (is_Some (usedImages a !! Js.key color) ->
               plain (imagesByColor a) (Js.key color) ->
               exists v, outcome rep = Normal v) /\
              (forall src, outcome rep = Normal (Some src) ->
               default [] (imagesByColor a !! Js.key color) <> [])).
  { intros o u Hu Ho Hne <-. exists u. cbn. by split_and!. }
  revert Hrep. unfold getRandomImage. step.
  destruct (imagesByColor a !! Js.key color) as [images|] eqn:Himg.
  2:{ destruct (Js.member (Js.key color) Js.ObjectPrototype) as [m|] eqn:Hm.
      2:{ rewrite !(get_undefined _ _ Himg Hm). cbn [noLength].
          rewrite run_ret_end. apply Hsame; [done | by eexists]. }
      rewrite !(get_foreign _ _ _ Himg Hm).
      assert (Hnot : forall e, is_Some (usedImages a !! Js.key color) ->
                plain (imagesByColor a) (Js.key color) ->
                exists v, Thrown (A:=option string) e = Normal v).
      { intros e _ [[? ?]|?]; congruence. }
      destruct m as [[|n]|]; cbn [noLength Nat.eqb]; cbv iota.
      - rewrite run_ret_end. apply Hsame; [done | by eexists].
      - apply Hsame; solve [done | apply Hnot].
      - apply Hsame; solve [done | apply Hnot]. }
  rewrite !(get_own _ _ _ Himg). cbn [noLength from_option id] in *.
  destruct images as [|im0 images'].
  { cbn [length Nat.eqb]. rewrite run_ret_end. apply Hsame; [done | by eexists]. }
  change (length (im0 :: images') =? 0)%nat with false. cbv iota.
  set (images := im0 :: images') in *.
  assert (Hne : images <> []) by done.
  specialize (fun o u Hu Ho => Hset o u Hu Ho Hne). clearbody images.
  destruct (Js.get (usedImages a) _) as [u0|m|] eqn:Hused.
  2:{ assert (Hnone : usedImages a !! Js.key color = None).
      { apply get_not_Own. intros v. by rewrite Hused. }
      apply Hsame; [done | rewrite Hnone; by intros [? ?]]. }
  all: set (available := filter _ images).
  all: destruct (length available =? 0)%nat; step.
  1,3: destruct (Js.floor_index _) as [i|];
         [|rewrite run_ret_end; apply Hset; [apply usedKept_insert | by eexists]].
  1,2: destruct (images !! i) as [src|];
         [|rewrite run_ret_end; apply Hset; [apply usedKept_insert | by eexists]].
  1,2: step; cbn [usedImages setUsedImages];
       rewrite (get_own _ _ _ (lookup_insert_eq _ _ _)); step;
       rewrite run_ret_end; cbn [setUsedImages usedImages];
       apply Hset; [apply usedKept_insert2 | by eexists].
  all: destruct (Js.floor_index _) as [i|];
         [|apply Hsame; [done | by eexists]].
  all: destruct (available !! i) as [src|];
         [|apply Hsame; [done | by eexists]].
  all: step; rewrite Hused; step.
  - rewrite run_ret_end. apply Hset; [apply usedKept_insert | by eexists].
  - assert (Hnone : usedImages a !! Js.key color = None).
    { apply get_not_Own. intros v. by rewrite Hused. }
    apply Hsame; [done | rewrite Hnone; by intros [? ?]].
Qed.

(** The three ways [startZoneFade] can end.  It throws or gives up
    leaving the zones alone, or it installs a loaded image as the
    active zone's incoming image with alpha 0. *)
Inductive fadeStarted a : Reply bool -> Prop :=
| fade_thrown e u es :
    usedKept a u ->
    ~ (is_Some (zones a !! activeKey a) /\ is_Some (usedImages a !! activeKey a) /\
       plain (imagesByColor a) (activeKey a)) ->
    fadeStarted a (mkReply (Thrown e) (setUsedImages u a) es)
| fade_skipped u es :
    usedKept a u ->
    fadeStarted a (mkReply (Normal false) (setUsedImages u a) es)
| fade_begun u z img es :
    usedKept a u ->
    zones a !! activeKey a = Some z ->
    default [] (imagesByColor a !! activeKey a) <> [] ->
    fadeStarted a
      (mkReply (Normal true)
         (setZones (<[activeKey a := mkZone (current z) (Some img) 0]> (zones a))
            (setUsedImages u a)) es).

Lemma startZoneFade_cases a r : fadeStarted a (startZoneFade imageLoader_get r a).
Proof.
  unfold startZoneFade. step.
  set (color := categories a !! currentZoneIndex a).
  destruct (getRandomImage_frame a color r) as (u & Hafter & Hemit & Hu & Hok & Hnone).
  change (Js.key color) with (activeKey a) in Hok, Hnone.
  rewrite run_seq, Hafter, Hemit.
  destruct (outcome (getRandomImage color r a)) as [[src|]|e];
    cbn [app].
  3:{ apply fade_thrown; [done|]. intros (_ & Hused & Hplain).
      destruct (Hok Hused Hplain) as [v Hv]. discriminate. }
  2:{ rewrite reply_eta, run_emit. cbn. by constructor. }
  rewrite reply_eta.
  destruct (negb (Js.truthy_str (Some src))).
  { rewrite run_emit. cbn. by constructor. }
  destruct (imageLoader_get src) as [img|].
  2:{ rewrite run_emit. cbn. by constructor. }
  step. cbn [zones setUsedImages]. change (Js.key color) with (activeKey a).
  destruct (zones a !! activeKey a) as [z|] eqn:Hz.
  2:{ cbn. apply fade_thrown; [done|]. intros [[? ?] _]. congruence. }
  unfold zoneAssign. step.
  cbn [onStatusUpdate currentSet setZones setUsedImages zones].
  rewrite (alter_twice _ _ _ _ z Hz). cbn [withAlpha withIncoming current incoming alpha].
  assert (Himg : default [] (imagesByColor a !! activeKey a) <> [])
    by exact (Hnone src eq_refl).
  destruct (onStatusUpdate a).
  - rewrite run_when_true, run_emit, run_ret_end. cbn.
    by apply (fade_begun a u z img).
  - rewrite run_when_false. step. rewrite run_ret_end.
    by apply (fade_begun a u z img).
Qed.

End Moves.

(** ** One call of [update], branch by branch *)

Section UpdateBranches.

Variable imageLoader_get : string -> option Image.
Implicit Types (a : Animator) (dt r : Q).

Local Abbreviation update := (update imageLoader_get).
Local Abbreviation startZoneFade := (startZoneFade imageLoader_get).

(** The global alpha after the fade-in step of a tick. *)
Definition rampedAlpha dt a : Q :=
  if Js.lt (transitionAlpha a) 1 then
    let t := transitionAlpha a + dt / effectiveFadeDuration a in
    if Js.gt t 1 then 1 else t
  else transitionAlpha a.

(** The engine after the fade-in step and the clock increment. *)
Definition ticked dt a : Animator :=
  setStateTime (stateTime a + dt) (setTransitionAlpha (rampedAlpha dt a) a).

(** The zone alpha written while fading, from the state time. *)
Definition fadingAlpha a : Q :=
  let progress := Qmin (stateTime a / effectiveFadeDuration a) 1 in
  if prefersReducedMotion a then progress else easeInOutCubic progress.

(** The engine after the alpha of the active zone has been written
    (only a zone that exists and has an incoming image gets one). *)
Definition faded a : Animator :=
  match zones a !! activeKey a with
  | Some z =>
      match incoming z with
      | Some _ => setZones (<[activeKey a := withAlpha (fadingAlpha a) z]> (zones a)) a
      | None => a
      end
  | None => a
  end.

(** The engine with the active zone's incoming image promoted. *)
Definition promoted a (z : Zone) : Animator :=
  setStateTime 0 (setState HOLDING
    (setZones (<[activeKey a := mkZone (incoming z) None 0]> (zones a)) a)).

(** The engine with the cursor moved to the next zone. *)
Definition advanced a : Animator :=
  setCurrentSet (nextSet a) (setCurrentZoneIndex (nextIndex a) a).

Lemma update_transitioning_out dt r a :
  transitioningOut a = true ->
  update dt r a =
    if Js.le (transitionAlpha a - dt / effectiveFadeDuration a) 0
    then mkReply (Normal tt) (setTransitioningOut false (setTransitionAlpha 0 a))
           (if onTransitionComplete a then [TransitionComplete] else [])
    else mkReply (Normal tt)
           (setTransitionAlpha (transitionAlpha a - dt / effectiveFadeDuration a) a)
           [].
Proof.
  intros Hout. unfold update. step. rewrite Hout. step.
  cbn [transitionAlpha setTransitionAlpha]. fold (effectiveFadeDuration a).
  destruct (Js.le _ 0); [|reflexivity].
  step. cbn [onTransitionComplete setTransitionAlpha setTransitioningOut].
  by destruct (onTransitionComplete a).
Qed.

(** The fade-in step and the clock increment that open every tick
    outside a transition-out. *)
Lemma run_ramp {B} dt (k : M B) a :
  ((if Js.lt (transitionAlpha a) 1 then
      assign (fun a0 =>
        setTransitionAlpha
          (transitionAlpha a0 + dt / effectiveFadeDuration a) a0) ;;
      a0 <- this ;;
      when (Js.gt (transitionAlpha a0) 1) (assign (setTransitionAlpha 1))
    else ret tt) ;;
   assign (fun a0 => setStateTime (stateTime a0 + dt) a0) ;;
   k) a
  = k (ticked dt a).
Proof.
  unfold ticked, rampedAlpha.
  destruct (Js.lt (transitionAlpha a) 1); step;
    cbn [transitionAlpha setTransitionAlpha stateTime].
  - cbv zeta. destruct (Js.gt _ 1).
    + rewrite run_when_true. step. reflexivity.
    + rewrite run_when_false. step. reflexivity.
  - reflexivity.
Qed.

Lemma update_idle dt r a :
  transitioningOut a = false -> state a = IDLE ->
  update dt r a = mkReply (Normal tt) (ticked dt a) [].
Proof.
  intros Hout Hst. unfold update. step. rewrite Hout.
  fold (effectiveFadeDuration a). rewrite run_ramp. step.
  change (state (ticked dt a)) with (state a). by rewrite Hst.
Qed.

Lemma update_fading dt r a :
  transitioningOut a = false -> state a = FADING ->
  update dt r a =
    if Js.ge (stateTime (faded (ticked dt a))) (effectiveFadeDuration a) then
      match zones (faded (ticked dt a)) !! activeKey (faded (ticked dt a)) with
      | Some z => mkReply (Normal tt) (promoted (faded (ticked dt a)) z) []
      | None =>
          mkReply (Thrown (TypeError "zone is undefined")) (faded (ticked dt a)) []
      end
    else mkReply (Normal tt) (faded (ticked dt a)) [].
Proof.
  intros Hout Hst. unfold update. step. rewrite Hout.
  fold (effectiveFadeDuration a). rewrite run_ramp. step.
  change (state (ticked dt a)) with (state a). rewrite Hst.
  set (t := ticked dt a).
  change (prefersReducedMotion t) with (prefersReducedMotion a).
  change (Js.key (categories t !! currentZoneIndex t)) with (activeKey t).
  assert (Hfade :
    forall (k : M unit),
      (match zones t !! activeKey t with
       | Some zone =>
           match incoming zone with
           | Some _ =>
               zoneAssign (activeKey t)
                 (withAlpha
                    (if prefersReducedMotion a
                     then Qmin (stateTime t / effectiveFadeDuration a) 1
                     else easeInOutCubic
                            (Qmin (stateTime t / effectiveFadeDuration a) 1)))
           | None => ret tt
           end
       | None => ret tt
       end ;; k) t = k (faded t)).
  { intros k. unfold faded, fadingAlpha.
    change (effectiveFadeDuration t) with (effectiveFadeDuration a).
    change (prefersReducedMotion t) with (prefersReducedMotion a).
    destruct (zones t !! activeKey t) as [z|] eqn:Hz; [|by step].
    destruct (incoming z); [|by step].
    unfold zoneAssign. step. by rewrite (alter_once _ _ _ z Hz). }
  rewrite Hfade. step. fold t.
  destruct (Js.ge (stateTime (faded t)) (effectiveFadeDuration a)); [|reflexivity].
  destruct (zones (faded t) !! activeKey (faded t)) as [z|] eqn:Hz.
  - rewrite run_seq, (completeZoneFade_run _ z Hz).
    cbn [outcome after emitted app]. step. reflexivity.
  - rewrite run_seq, (completeZoneFade_throw _ Hz). reflexivity.
Qed.

Lemma update_holding dt r a :
  transitioningOut a = false -> state a = HOLDING ->
  update dt r a =
    if Js.ge (stateTime (ticked dt a)) (holdDuration a) then
      match startZoneFade r (advanced (ticked dt a)) with
      | mkReply (Normal _) a' es =>
          mkReply (Normal tt) (setStateTime 0 (setState FADING a')) es
      | mkReply (Thrown e) a' es => mkReply (Thrown e) a' es
      end
    else mkReply (Normal tt) (ticked dt a) [].
Proof.
  intros Hout Hst. unfold update. step. rewrite Hout.
  fold (effectiveFadeDuration a). rewrite run_ramp. step.
  change (state (ticked dt a)) with (state a). rewrite Hst.
  set (t := ticked dt a). change (holdDuration t) with (holdDuration a).
  destruct (Js.ge (stateTime t) (holdDuration a)); [|reflexivity].
  rewrite run_seq, advanceToNextZone_run.
  cbn [outcome after emitted app]. fold (advanced t).
  rewrite reply_eta, run_seq.
  destruct (startZoneFade r (advanced t)) as [[started|e] a' es];
    cbn [outcome after emitted]; [|reflexivity].
  step. rewrite run_assign_end. cbn. by rewrite app_nil_r.
Qed.

End UpdateBranches.

(** ** The draw pass *)

Section Compositor.

Implicit Types (a : Animator) (img : Image) (z : Zone).

(** The logical size of the drawing surface. *)
Definition viewWidth a : Q := Js.num_or (displayWidth a) (cv_width (canvas a)).
Definition viewHeight a : Q := Js.num_or (displayHeight a) (cv_height (canvas a)).

(** An image scaled uniformly to fit the surface, and centred. *)
Definition fitted a img : CanvasOp :=
  let scale := Qmin (viewWidth a / img_width img) (viewHeight a / img_height img) in
  DrawImage img
    ((viewWidth a - img_width img * scale) / 2)
    ((viewHeight a - img_height img * scale) / 2)
    (img_width img * scale)
    (img_height img * scale).

(** A layer of the frame: an image and its own opacity. *)
Definition Layer : Type := Image * Q.

(** The layers of one zone, back to front: the current image at full
    opacity, then the incoming image at the zone's alpha when that
    exceeds 0.001. *)
Definition zoneLayers z : list Layer :=
  match current z with Some c => [(c, 1)] | None => [] end ++
  match incoming z with
  | Some i => if Js.gt (alpha z) (1 # 1000) then [(i, alpha z)] else []
  | None => []
  end.

(** All layers of a frame, back to front: background, the zones in the
    declared order of the categories, frame overlay. *)
Definition layers a : list Layer :=
  match backgroundImage a with Some bg => [(bg, 1)] | None => [] end ++
  concat (map (fun color =>
                 match zones a !! color with
                 | Some z => zoneLayers z
                 | None => []
                 end) (categories a)) ++
  match frameImage a with Some fr => [(fr, 1)] | None => [] end.

(** Painting a layer: its opacity times the transition alpha, then
    the image. *)
Definition paint a (l : Layer) : list CanvasOp :=
  [SetGlobalAlpha (snd l * transitionAlpha a); fitted a (fst l)].

(** The calls of a whole frame. *)
Definition frameOps a : list CanvasOp :=
  [ClearRect 0 0 (viewWidth a) (viewHeight a); SetGlobalAlpha (transitionAlpha a)] ++
  concat (map (paint a) (layers a)) ++
  [SetGlobalAlpha 1].

Lemma drawImage_run a img al :
  Js.lt al (1 # 1000) = false ->
  drawImage (Some img) al a = mkReply (Normal tt) a (map Ctx (paint a (img, al))).
Proof. intros Hal. unfold drawImage. rewrite Hal. reflexivity. Qed.

(** A loop whose body only emits calls. *)
Lemma for_of_emits {X} (xs : list X) (body : X -> M unit) (f : X -> list Event) a :
  (forall x, body x a = mkReply (Normal tt) a (f x)) ->
  for_of xs body a = mkReply (Normal tt) a (concat (map f xs)).
Proof.
  intros Hbody. induction xs as [|x xs IH]; [reflexivity|].
  cbn [for_of map concat]. rewrite run_seq, Hbody. cbn [outcome after emitted].
  by rewrite IH.
Qed.

Lemma seq_emits {B} (c : M unit) (k : M B) a es :
  c a = mkReply (Normal tt) a es ->
  (c ;; k) a = mkReply (outcome (k a)) (after (k a)) (es ++ emitted (k a)).
Proof. intros Hc. rewrite run_seq, Hc. reflexivity. Qed.

Definition paintAll a (ls : list Layer) : list Event :=
  map Ctx (concat (map (paint a) ls)).

Lemma paintAll_app a (l1 l2 : list Layer) :
  paintAll a (l1 ++ l2) = (paintAll a l1 ++ paintAll a l2)%list.
Proof. unfold paintAll. by rewrite map_app, concat_app, map_app. Qed.

Lemma paintAll_concat a (ls : list (list Layer)) :
  paintAll a (concat ls) = concat (map (paintAll a) ls).
Proof.
  induction ls as [|l ls IH]; [reflexivity|].
  cbn [concat map]. by rewrite paintAll_app, IH.
Qed.

Lemma zone_pass a z :
  (match current z with
   | Some c => drawImage (Some c) 1
   | None => ret tt
   end ;;
   match incoming z with
   | Some i =>
       if Js.gt (alpha z) (1 # 1000) then drawImage (Some i) (alpha z) else ret tt
   | None => ret tt
   end) a
  = mkReply (Normal tt) a (paintAll a (zoneLayers z)).
Proof.
  unfold zoneLayers, paintAll.
  assert (Hinc :
    match incoming z with
    | Some i =>
        if Js.gt (alpha z) (1 # 1000) then drawImage (Some i) (alpha z) else ret tt
    | None => ret tt
    end a
    = mkReply (Normal tt) a
        (map Ctx (concat (map (paint a)
           match incoming z with
           | Some i => if Js.gt (alpha z) (1 # 1000) then [(i, alpha z)] else []
           | None => []
           end)))).
  { destruct (incoming z) as [i|]; [|reflexivity].
    destruct (Js.gt (alpha z) (1 # 1000)) eqn:Hgt; [|reflexivity].
    rewrite drawImage_run.
    - cbn [map concat]. by rewrite app_nil_r.
    - apply Js_lt_spec in Hgt. apply Js_lt_false. lra. }
  destruct (current z) as [c|].
  - rewrite (seq_emits _ _ a (map Ctx (paint a (c, 1)))).
    + rewrite Hinc. cbn [outcome after emitted app]. by f_equal.
    + by apply drawImage_run.
  - rewrite run_ret. rewrite Hinc. reflexivity.
Qed.

(** C7.  [render] clears the canvas and sets the transition alpha,
    then paints, back to front, the background (if present), for each
    category in declared order its current image at full opacity and
    its incoming image at the zone's alpha when that exceeds 0.001,
    and last the frame overlay (if present), every layer's opacity
    multiplied by the transition alpha; it resets the global alpha,
    throws nothing and leaves the engine as it was. *)
Theorem render_draw_order a :
  render a = mkReply (Normal tt) a (map Ctx (frameOps a)).
Proof.
  unfold render. step.
  fold (viewWidth a) (viewHeight a). unfold frameOps, layers.
  set (bgL := match backgroundImage a with Some bg => [(bg, 1)] | None => [] end).
  set (frL := match frameImage a with Some fr => [(fr, 1)] | None => [] end).
  set (zsL := concat (map _ (categories a))).
  assert (Hbg : match backgroundImage a with
                | Some bg => drawImage (Some bg) 1
                | None => ret tt
                end a = mkReply (Normal tt) a (paintAll a bgL)).
  { unfold bgL. destruct (backgroundImage a) as [bg|]; [|reflexivity].
    rewrite drawImage_run by reflexivity. unfold paintAll. cbn [map concat].
    by rewrite app_nil_r. }
  assert (Hfr : match frameImage a with
                | Some fr => drawImage (Some fr) 1
                | None => ret tt
                end a = mkReply (Normal tt) a (paintAll a frL)).
  { unfold frL. destruct (frameImage a) as [fr|]; [|reflexivity].
    rewrite drawImage_run by reflexivity. unfold paintAll. cbn [map concat].
    by rewrite app_nil_r. }
  assert (Hzs : for_of (categories a) (fun color =>
                  a0 <- this ;;
                  match zones a0 !! color with
                  | None => ret tt
                  | Some zone =>
                      match current zone with
                      | Some c => drawImage (Some c) 1
                      | None => ret tt
                      end ;;
                      match incoming zone with
                      | Some i =>
                          if Js.gt (alpha zone) (1 # 1000)
                          then drawImage (Some i) (alpha zone)
                          else ret tt
                      | None => ret tt
                      end
                  end) a = mkReply (Normal tt) a (paintAll a zsL)).
  { unfold zsL. rewrite paintAll_concat, map_map.
    apply for_of_emits. intros color. step.
    destruct (zones a !! color) as [z|]; [|reflexivity].
    apply zone_pass. }
  rewrite (seq_emits _ _ a _ Hbg), (seq_emits _ _ a _ Hzs), (seq_emits _ _ a _ Hfr).
  rewrite run_emit_end. unfold logged. cbn [outcome after emitted].
  f_equal. cbn [map app]. do 2 f_equal.
  unfold paintAll. rewrite !map_app, !concat_app, !map_app.
  by rewrite <- !app_assoc.
Qed.

End Compositor.

(** ** [reset] and [setImages] in closed form *)

Section Resetting.

Implicit Types (a : Animator) (cats : list string).

(** A loop whose body is an assignment. *)
Lemma for_of_assigns {X} (xs : list X) (body : X -> M unit)
    (f : X -> Animator -> Animator) a :
  (forall x b, body x b = mkReply (Normal tt) (f x b) []) ->
  for_of xs body a = mkReply (Normal tt) (foldl (fun b x => f x b) a xs) [].
Proof.
  intros Hbody. revert a. induction xs as [|x xs IH]; intros a; [reflexivity|].
  cbn [for_of foldl]. rewrite run_seq, Hbody. cbn [outcome after emitted].
  by rewrite IH.
Qed.

Definition emptyZone : Zone := mkZone None None 0.

(** One round of the two loops of [reset]. *)
Definition clearUsed (c : string) (m : gmap string (gset string)) :=
  match m !! c with Some _ => <[c := ∅]> m | None => m end.

Definition clearZone (c : string) (m : gmap string Zone) :=
  match m !! c with Some _ => <[c := emptyZone]> m | None => m end.

Definition clearedUsed cats (m : gmap string (gset string)) :=
  foldl (fun m c => clearUsed c m) m cats.

Definition clearedZones cats (m : gmap string Zone) :=
  foldl (fun m c => clearZone c m) m cats.

(** The scalar assignments of [reset]. *)
Definition rewound a : Animator :=
  setTransitionAlpha 1 (setTransitioningOut false (setStateTime 0
    (setState IDLE (setCurrentSet 0 (setCurrentZoneIndex 0 a))))).

Lemma reset_run a :
  reset a =
    mkReply (Normal tt)
      (setZones (clearedZones (categories a) (zones a))
         (setUsedImages (clearedUsed (categories a) (usedImages a)) (rewound a)))
      [].
Proof.
  unfold reset. step. fold (rewound a).
  change (categories (rewound a)) with (categories a).
  rewrite run_seq.
  rewrite (for_of_assigns _ _
    (fun c b => setUsedImages (clearUsed c (usedImages b)) b)).
  2:{ intros c b. step. unfold clearUsed.
      destruct (usedImages b !! c); [reflexivity|].
      rewrite run_ret_end. by rewrite setUsedImages_id. }
  cbn [outcome after emitted app]. rewrite reply_eta. step.
  assert (Hused : forall cats b,
    foldl (fun b c => setUsedImages (clearUsed c (usedImages b)) b) b cats
    = setUsedImages (clearedUsed cats (usedImages b)) b).
  { induction cats as [|c cats IH]; intros b; cbn [foldl].
    - unfold clearedUsed. cbn. by rewrite setUsedImages_id.
    - rewrite IH. reflexivity. }
  rewrite Hused. set (b := setUsedImages _ (rewound a)).
  change (categories b) with (categories a).
  rewrite (for_of_assigns _ _
    (fun c b => setZones (clearZone c (zones b)) b)).
  2:{ intros c b0. step. unfold clearZone.
      destruct (zones b0 !! c) as [z|] eqn:Hz.
      - unfold zoneAssign. step. rewrite run_assign_end. f_equal.
        cbn [zones setZones]. unfold setZones at 1 2 3. cbn. f_equal.
        by rewrite (alter_thrice _ _ _ _ _ z).
      - rewrite run_ret_end. by rewrite setZones_id. }
  assert (Hzones : forall cats b,
    foldl (fun b c => setZones (clearZone c (zones b)) b) b cats
    = setZones (clearedZones cats (zones b)) b).
  { induction cats as [|c cats IH]; intros b0; cbn [foldl].
    - unfold clearedZones. cbn. by rewrite setZones_id.
    - rewrite IH. reflexivity. }
  rewrite Hzones. reflexivity.
Qed.

Lemma clearedZones_lookup cats (m : gmap string Zone) k :
  clearedZones cats m !! k =
    if decide (k ∈ cats) then (fun _ => emptyZone) <$> m !! k else m !! k.
Proof.
  revert m. induction cats as [|c cats IH]; intros m.
  - cbn. by rewrite decide_False by apply not_elem_of_nil.
  - unfold clearedZones in *. cbn [foldl]. rewrite IH.
    assert (Hc : clearZone c m !! k =
                 if decide (k = c) then (fun _ => emptyZone) <$> m !! k else m !! k).
    { unfold clearZone. destruct (decide (k = c)) as [->|Hne].
      - destruct (m !! c) eqn:E; [by rewrite lookup_insert_eq | by rewrite E].
      - destruct (m !! c); [by rewrite lookup_insert_ne | done]. }
    rewrite Hc. clear IH Hc.
    destruct (decide (k = c)) as [->|Hne].
    + rewrite (decide_True (P := c ∈ c :: cats)) by apply list_elem_of_here.
      destruct (decide (c ∈ cats)); [by destruct (m !! c) | done].
    + destruct (decide (k ∈ cats)) as [Hin|Hout].
      * by rewrite (decide_True (P := k ∈ c :: cats))
          by (by apply list_elem_of_further).
      * rewrite (decide_False (P := k ∈ c :: cats)); [done|].
        intros Hcons. apply elem_of_cons in Hcons. by destruct Hcons.
Qed.

Lemma clearedUsed_lookup cats (m : gmap string (gset string)) k :
  clearedUsed cats m !! k =
    if decide (k ∈ cats) then (fun _ => ∅) <$> m !! k else m !! k.
Proof.
  revert m. induction cats as [|c cats IH]; intros m.
  - cbn. by rewrite decide_False by apply not_elem_of_nil.
  - unfold clearedUsed in *. cbn [foldl]. rewrite IH.
    assert (Hc : clearUsed c m !! k =
                 if decide (k = c) then (fun _ => ∅) <$> m !! k else m !! k).
    { unfold clearUsed. destruct (decide (k = c)) as [->|Hne].
      - destruct (m !! c) eqn:E; [by rewrite lookup_insert_eq | by rewrite E].
      - destruct (m !! c); [by rewrite lookup_insert_ne | done]. }
    rewrite Hc. clear IH Hc.
    destruct (decide (k = c)) as [->|Hne].
    + rewrite (decide_True (P := c ∈ c :: cats)) by apply list_elem_of_here.
      destruct (decide (c ∈ cats)); [by destruct (m !! c) | done].
    + destruct (decide (k ∈ cats)) as [Hin|Hout].
      * by rewrite (decide_True (P := k ∈ c :: cats))
          by (by apply list_elem_of_further).
      * rewrite (decide_False (P := k ∈ c :: cats)); [done|].
        intros Hcons. apply elem_of_cons in Hcons. by destruct Hcons.
Qed.

End Resetting.

(** ** Properties that a computation keeps *)

(** [preserves P c]: if [P] holds of the engine before [c] runs, it holds
    of the engine [c] leaves, normally or by throwing. *)
Definition preserves {A} (P : Animator -> Prop) (c : M A) : Prop :=
  forall a, P a -> P (after (c a)).

Section Preservation.

Context {A B : Type} (P : Animator -> Prop).

Lemma pres_ret (v : A) : preserves P (ret v).
Proof. by intros a Ha. Qed.

Lemma pres_this : preserves P this.
Proof. by intros a Ha. Qed.

Lemma pres_emit e : preserves P (emit e).
Proof. by intros a Ha. Qed.

Lemma pres_throw e : preserves P (@throw A e).
Proof. by intros a Ha. Qed.

Lemma pres_assign f : (forall a, P a -> P (f a)) -> preserves P (assign f).
Proof. intros Hf a Ha. by apply Hf. Qed.

Lemma pres_bind (c : M A) (k : A -> M B) :
  preserves P c -> (forall v, preserves P (k v)) -> preserves P (bind c k).
Proof.
  intros Hc Hk a Ha. unfold bind. specialize (Hc a Ha).
  destruct (outcome (c a)) as [v|e]; cbn [after]; [by apply (Hk v) | done].
Qed.

(** After [a <- this], the continuation runs on the engine it read. *)
Lemma pres_this_bind (k : Animator -> M B) :
  (forall a, P a -> P (after (k a a))) -> preserves P (bind this k).
Proof. intros Hk a Ha. rewrite run_this. by apply Hk. Qed.

End Preservation.

Lemma pres_when P b (c : M unit) : preserves P c -> preserves P (when b c).
Proof. intros Hc. destruct b; [done | apply pres_ret]. Qed.

Lemma pres_for_of {X} P (xs : list X) (body : X -> M unit) :
  (forall x, preserves P (body x)) -> preserves P (for_of xs body).
Proof.
  intros Hbody. induction xs as [|x xs IH]; [apply pres_ret|].
  cbn [for_of]. apply pres_bind; [apply Hbody | by intros _].
Qed.

(** [f] reads the same before and after [c]. *)
Definition keeps {A X} (f : Animator -> X) (c : M A) : Prop :=
  forall a, f (after (c a)) = f a.

Lemma keeps_preserves {A X} (f : Animator -> X) (c : M A) :
  (forall v, preserves (fun a => f a = v) c) -> keeps f c.
Proof. intros H a. by apply (H (f a)). Qed.

(** Decompose a preservation goal along the structure of the code. *)
Ltac pres_step :=
  lazymatch goal with
  | |- preserves _ (bind _ _) => apply pres_bind; [|intros ?]
  | |- preserves _ (ret _) => apply pres_ret
  | |- preserves _ this => apply pres_this
  | |- preserves _ (emit _) => apply pres_emit
  | |- preserves _ (throw _) => apply pres_throw
  | |- preserves _ (when _ _) => apply pres_when
  | |- preserves _ (for_of _ _) => apply pres_for_of; intros ?
  | |- preserves _ (zoneAssign _ _) => unfold zoneAssign
  | |- preserves _ (if ?b then _ else _) => destruct b
  | |- preserves _ (match ?x with _ => _ end) => destruct x
  end.

Lemma keeps_pres {A X} (f : Animator -> X) (c : M A) v :
  keeps f c -> preserves (fun a => f a = v) c.
Proof. intros H a Ha. by rewrite H. Qed.

(** Fields no statement of a method assigns; [leaf] settles the calls
    of other methods. *)
Ltac keeps_field_with leaf :=
  apply keeps_preserves; intros ?;
  repeat first
    [ pres_step
    | lazymatch goal with
      | |- preserves _ (assign _) => apply pres_assign; intros ? ?; assumption
      end
    | apply keeps_pres; leaf ].

Ltac keeps_field := keeps_field_with fail.

(** [callsOnly c]: [c] returns normally, leaves the engine as it found
    it and does nothing but call its collaborators. *)
Definition callsOnly (c : M unit) : Prop :=
  forall a, exists es, c a = mkReply (Normal tt) a es.

Lemma callsOnly_ret : callsOnly (ret tt).
Proof. intros a. by eexists. Qed.

Lemma callsOnly_emit e : callsOnly (emit e).
Proof. intros a. by eexists. Qed.

Lemma callsOnly_bind (c : M unit) (k : unit -> M unit) :
  callsOnly c -> (forall v, callsOnly (k v)) -> callsOnly (bind c k).
Proof.
  intros Hc Hk a. destruct (Hc a) as [es1 H1]. rewrite run_seq, H1.
  cbn [outcome after emitted]. destruct (Hk tt a) as [es2 H2]. rewrite H2.
  by eexists.
Qed.

Lemma callsOnly_this (k : Animator -> M unit) :
  (forall a, callsOnly (k a)) -> callsOnly (bind this k).
Proof. intros Hk a. rewrite run_this. apply Hk. Qed.

Lemma callsOnly_for_of {X} (xs : list X) (body : X -> M unit) :
  (forall x, callsOnly (body x)) -> callsOnly (for_of xs body).
Proof.
  intros Hbody. induction xs as [|x xs IH]; [apply callsOnly_ret|].
  cbn [for_of]. apply callsOnly_bind; [apply Hbody | by intros _].
Qed.

Ltac calls_step :=
  lazymatch goal with
  | |- callsOnly (bind this _) => apply callsOnly_this; intros ?
  | |- callsOnly (bind _ _) => apply callsOnly_bind; [|intros ?]
  | |- callsOnly (ret _) => apply callsOnly_ret
  | |- callsOnly (emit _) => apply callsOnly_emit
  | |- callsOnly (for_of _ _) => apply callsOnly_for_of; intros ?
  | |- callsOnly (if ?b then _ else _) => destruct b
  | |- callsOnly (match ?x with _ => _ end) => destruct x
  end.

Lemma drawImage_calls_only img al : callsOnly (drawImage img al).
Proof. unfold drawImage. repeat calls_step. Qed.

Lemma render_calls_only : callsOnly render.
Proof.
  unfold render. repeat first [ calls_step | apply drawImage_calls_only ].
Qed.

Lemma render_returns a : outcome (render a) = Normal tt.
Proof. destruct (render_calls_only a) as [es ->]. reflexivity. Qed.

Lemma render_keeps {X} (f : Animator -> X) : keeps f render.
Proof. intros a. destruct (render_calls_only a) as [es ->]. reflexivity. Qed.

Lemma render_preserves P : preserves P render.
Proof. intros a Ha. by destruct (render_calls_only a) as [es ->]. Qed.

(** ** Starting, stopping and resetting twice *)

Section Idempotence.

Variable imageLoader_get : string -> option Image.
Implicit Types (a : Animator).

Local Abbreviation update := (update imageLoader_get).
Local Abbreviation startZoneFade := (startZoneFade imageLoader_get).
Local Abbreviation loop := (loop imageLoader_get).
Local Abbreviation start := (start imageLoader_get).

Lemma startZoneFade_keeps {X} (f : Animator -> X) r :
  (forall u a, f (setUsedImages u a) = f a) ->
  (forall z a, f (setZones z a) = f a) ->
  keeps f (startZoneFade r).
Proof.
  intros Hu Hz a. destruct (startZoneFade_cases imageLoader_get a r);
    cbn [after]; by rewrite ?Hz, ?Hu.
Qed.

Lemma update_keeps_running dt r : keeps running (update dt r).
Proof.
  unfold update, completeZoneFade, advanceToNextZone.
  keeps_field_with ltac:(by apply startZoneFade_keeps).
Qed.

Lemma loop_keeps_running t : keeps running (loop t).
Proof.
  unfold loop.
  keeps_field_with
    ltac:(first [ apply update_keeps_running | apply render_keeps ]).
Qed.

(** [start] on a running engine returns at once. *)
Lemma start_running a t0 r0 t :
  running a = true -> start t0 r0 t a = mkReply (Normal tt) a [].
Proof. intros Hrun. unfold start. step. by rewrite Hrun. Qed.

(** Whatever [start] does, it leaves the engine running. *)
Lemma start_leaves_running a t0 r0 t : running (after (start t0 r0 t a)) = true.
Proof.
  destruct (running a) eqn:Hrun; [by rewrite start_running|].
  unfold start. step. rewrite Hrun. step.
  set (b := setFrameCount _ _).
  assert (Hb : running b = true) by reflexivity.
  revert Hb. generalize b. clear.
  change (preserves (fun a => running a = true)
            (_ <- startZoneFade r0 ;;
             assign (setState FADING) ;; assign (setStateTime 0) ;; loop t)).
  repeat first
    [ pres_step
    | lazymatch goal with
      | |- preserves _ (assign _) => apply pres_assign; intros ? ?; assumption
      end
    | apply keeps_pres;
      first [ by apply startZoneFade_keeps | apply loop_keeps_running ] ].
Qed.

Lemma stop_run a :
  stop a =
    mkReply (Normal tt) (setAnimationId None (setPaused false (setRunning false a)))
      match animationId a with
      | Some id => [CancelAnimationFrame id]
      | None => []
      end.
Proof.
  unfold stop. step. cbn [animationId setPaused setRunning].
  destruct (animationId a) as [id|] eqn:Hid.
  - reflexivity.
  - rewrite run_ret_end. f_equal. destruct a. cbn in *. by subst.
Qed.

Lemma clearedZones_twice cats (m : gmap string Zone) :
  clearedZones cats (clearedZones cats m) = clearedZones cats m.
Proof.
  apply map_eq. intros k. rewrite !clearedZones_lookup.
  case_decide; [|done]. by destruct (m !! k).
Qed.

Lemma clearedUsed_twice cats (m : gmap string (gset string)) :
  clearedUsed cats (clearedUsed cats m) = clearedUsed cats m.
Proof.
  apply map_eq. intros k. rewrite !clearedUsed_lookup.
  case_decide; [|done]. by destruct (m !! k).
Qed.

(** C9.  A second [stop], a second [reset] and a second [start] each
    return normally, call nobody and leave the engine exactly as the
    first call left it. *)
Theorem stop_reset_start_idempotent a t0 r0 t t0' r0' t' :
  let stopped := after (stop a) in
  let cleared := after (reset a) in
  let started := after (start t0 r0 t a) in
  stop stopped = mkReply (Normal tt) stopped [] /\
  reset cleared = mkReply (Normal tt) cleared [] /\
  start t0' r0' t' started = mkReply (Normal tt) started [].
Proof.
  cbv zeta. split_and!.
  - rewrite !stop_run. reflexivity.
  - rewrite (reset_run a). cbn [after]. rewrite reset_run.
    apply reply_ext. unfold rewound. same_engine.
    + apply clearedZones_twice.
    + apply clearedUsed_twice.
  - apply start_running, start_leaves_running.
Qed.

End Idempotence.

(** ** [start] and [setImages] in closed form *)

Section Starting.

Variable imageLoader_get : string -> option Image.
Implicit Types (a : Animator) (cats : list string).

(** The engine as [start] has it when it calls [startZoneFade]. *)
Definition primed (t0 : Q) a : Animator :=
  setFrameCount 0 (setFpsTime t0 (setLastFrameTime t0 (setLastTime t0
    (setPaused false (setRunning true a))))).

(** The engine entering the FADING state. *)
Definition fadingFrom a : Animator := setStateTime 0 (setState FADING a).

Lemma start_run a t0 r0 t :
  running a = false ->
  start imageLoader_get t0 r0 t a =
    match startZoneFade imageLoader_get r0 (primed t0 a) with
    | mkReply (Normal _) a' es =>
        mkReply (outcome (loop imageLoader_get t (fadingFrom a')))
          (after (loop imageLoader_get t (fadingFrom a')))
          (es ++ emitted (loop imageLoader_get t (fadingFrom a')))
    | mkReply (Thrown e) a' es => mkReply (Thrown e) a' es
    end.
Proof.
  intros Hrun. unfold start. step. rewrite Hrun. step.
  fields. fold (primed t0 a). rewrite run_seq.
  destruct (startZoneFade imageLoader_get r0 (primed t0 a))
    as [[started|e] a' es]; cbn [outcome after emitted]; [|reflexivity].
  step. reflexivity.
Qed.

(** A frame that arrives too early only re-arms the callback. *)
Lemma loop_too_early a t :
  running a = true -> paused a = false ->
  now t - lastFrameTime a < frameInterval a * (9 # 10) ->
  loop imageLoader_get t a =
    mkReply (Normal tt) (setAnimationId (Some (handle t)) a)
      [RequestAnimationFrame (handle t)].
Proof.
  intros Hrun Hp Hearly. unfold loop. step. rewrite Hrun, Hp. cbn [negb orb].
  apply Js_lt_spec in Hearly. rewrite Hearly. reflexivity.
Qed.

End Starting.

(** The zones and used sets [setImages] builds before it resets. *)
Definition freshZones (cats : list string) : gmap string Zone :=
  foldl (fun m c => <[c := emptyZone]> m) ∅ cats.

Definition freshUsed (cats : list string) : gmap string (gset string) :=
  foldl (fun m c => <[c := ∅]> m) ∅ cats.

Lemma setImages_run (a : Animator) images cats :
  setImages images cats a =
    reset (setZones (freshZones cats) (setUsedImages (freshUsed cats)
             (setCategories cats (setImagesByColor images a)))).
Proof.
  unfold setImages. step.
  rewrite run_seq.
  rewrite (for_of_assigns _ _
    (fun c b => setUsedImages (<[c := ∅]> (usedImages b)) b)) by reflexivity.
  cbn [outcome after emitted app]. rewrite reply_eta. step.
  assert (Hused : forall cs b,
    foldl (fun b c => setUsedImages (<[c := ∅]> (usedImages b)) b) b cs
    = setUsedImages (foldl (fun m c => <[c := ∅]> m) (usedImages b) cs) b).
  { induction cs as [|c cs IH]; intros b; cbn [foldl].
    - by rewrite setUsedImages_id.
    - rewrite IH. reflexivity. }
  rewrite Hused. fields. fold (freshUsed cats).
  rewrite run_seq.
  rewrite (for_of_assigns _ _
    (fun c b => setZones (<[c := emptyZone]> (zones b)) b)) by reflexivity.
  cbn [outcome after emitted app]. rewrite reply_eta.
  assert (Hzones : forall cs b,
    foldl (fun b c => setZones (<[c := emptyZone]> (zones b)) b) b cs
    = setZones (foldl (fun m c => <[c := emptyZone]> m) (zones b) cs) b).
  { induction cs as [|c cs IH]; intros b; cbn [foldl].
    - by rewrite setZones_id.
    - rewrite IH. reflexivity. }
  rewrite Hzones. fields. fold (freshZones cats).
  reflexivity.
Qed.

Lemma fresh_lookup {V} (v : V) (cats : list string) (m : gmap string V) k :
  foldl (fun m c => <[c := v]> m) m cats !! k =
    if decide (k ∈ cats) then Some v else m !! k.
Proof.
  revert m. induction cats as [|c cats IH]; intros m; cbn [foldl].
  - by rewrite decide_False by apply not_elem_of_nil.
  - rewrite IH. clear IH. destruct (decide (k = c)) as [->|Hne].
    + rewrite lookup_insert_eq.
      rewrite (decide_True (P := c ∈ c :: cats)) by apply list_elem_of_here.
      by destruct (decide (c ∈ cats)).
    + rewrite lookup_insert_ne by done.
      destruct (decide (k ∈ cats)) as [Hin|Hout].
      * by rewrite (decide_True (P := k ∈ c :: cats))
          by (by apply list_elem_of_further).
      * rewrite (decide_False (P := k ∈ c :: cats)); [done|].
        intros Hcons. apply elem_of_cons in Hcons. by destruct Hcons.
Qed.


(** ** The zone invariant *)

Section ZoneInvariant.

Variable imageLoader_get : string -> option Image.
Implicit Types (a b : Animator) (z : Zone) (k : string).

(** A zone that is not fading anything in. *)
Definition quiet z : Prop := incoming z = None /\ alpha z = 0.

(** What holds of every engine: zones exist only for categories; every
    zone but the active one is quiet, and so is the active one outside
    the FADING state; the cycle counter is below its bound. *)
Record Inv a : Prop := mkInv {
  inv_dom : forall k, is_Some (zones a !! k) -> k ∈ categories a;
  inv_quiet : forall k z,
    zones a !! k = Some z -> k <> activeKey a \/ state a <> FADING -> quiet z;
  inv_set : (currentSet a < 1000)%nat
}.

(** The invariant reads the scheduler's fields only. *)
Lemma Inv_sched a b :
  Inv a ->
  zones b = zones a -> categories b = categories a ->
  currentZoneIndex b = currentZoneIndex a -> state b = state a ->
  currentSet b = currentSet a ->
  Inv b.
Proof.
  intros [Hd Hq Hs] Hz Hc Hi Hst Hset. split.
  - intros k Hk. rewrite Hc. apply Hd. by rewrite <- Hz.
  - intros k z Hk Hor. apply (Hq k z); [by rewrite <- Hz|].
    unfold activeKey in *. by rewrite <- Hc, <- Hi, <- Hst.
  - by rewrite Hset.
Qed.

Ltac sched := eapply Inv_sched; [eassumption | reflexivity ..].

Ltac inv_step :=
  first
    [ pres_step
    | lazymatch goal with
      | |- preserves _ (assign _) => apply pres_assign; intros ? ?; sched
      end ].

(** With no zone fading, any cursor position is fine. *)
Lemma Inv_all_quiet a :
  Inv a -> state a <> FADING -> forall k z, zones a !! k = Some z -> quiet z.
Proof. intros Ha Hst k z Hz. eapply inv_quiet; eauto. Qed.

Lemma Inv_fadingFrom a : Inv a -> Inv (fadingFrom a).
Proof.
  intros [Hd Hq Hs]. split; [exact Hd | | exact Hs].
  intros k z Hz [Hk|Hst]; [|done]. apply (Hq k z Hz). by left.
Qed.

(** A fade that starts leaves the invariant in place once the state is
    FADING; one that throws leaves it in place as it is. *)
Lemma Inv_startZoneFade a r :
  Inv a ->
  match startZoneFade imageLoader_get r a with
  | mkReply (Normal _) a' _ => Inv (setStateTime 0 (setState FADING a'))
  | mkReply (Thrown _) a' _ => Inv a'
  end.
Proof.
  intros Ha.
  destruct (startZoneFade_cases imageLoader_get a r)
    as [e u es Hu Hno|u es Hu|u z img es Hu Hz Himg];
    fold (fadingFrom (setUsedImages u a));
    try fold (fadingFrom
      (setZones (<[activeKey a := mkZone (current z) (Some img) 0]> (zones a))
         (setUsedImages u a))).
  - sched.
  - apply Inv_fadingFrom. sched.
  - destruct Ha as [Hd Hq Hs].
    split; unfold fadingFrom, activeKey; fields; fold (activeKey a).
    + intros k [z' Hz']. apply Hd.
      destruct (decide (activeKey a = k)) as [<-|Hne]; [by eexists|].
      rewrite lookup_insert_ne in Hz' by done. by eexists.
    + intros k z' Hz' [Hk|Hfalse]; [|done].
      rewrite lookup_insert_ne in Hz' by done. apply (Hq k z' Hz'). by left.
    + exact Hs.
Qed.

Lemma nextSet_bound a : (currentSet a < 1000)%nat -> (nextSet a < 1000)%nat.
Proof.
  intros Hs. unfold nextSet.
  destruct (length (categories a) <=? S (currentZoneIndex a))%nat; [|done].
  destruct (Nat.leb_spec 1000 (S (currentSet a))); lia.
Qed.

Lemma Inv_advanced a : Inv a -> state a <> FADING -> Inv (advanced a).
Proof.
  intros Ha Hst. split; unfold advanced; fields.
  - apply (inv_dom a Ha).
  - intros k z Hz _. by apply (Inv_all_quiet a Ha Hst k z).
  - apply nextSet_bound, (inv_set a Ha).
Qed.

Lemma Inv_faded a : Inv a -> Inv (faded a).
Proof.
  intros Ha. unfold faded.
  destruct (zones a !! activeKey a) as [z|] eqn:Hz; [|done].
  destruct (incoming z) eqn:Hi; [|done].
  destruct Ha as [Hd Hq Hs]. split; unfold activeKey; fields; fold (activeKey a).
  - intros k [z' Hz']. apply Hd.
    destruct (decide (activeKey a = k)) as [<-|Hne]; [by eexists|].
    rewrite lookup_insert_ne in Hz' by done. by eexists.
  - intros k z' Hz' Hor.
    destruct (decide (activeKey a = k)) as [<-|Hne].
    + destruct Hor as [Hk|Hst]; [done|].
      assert (Hqz : quiet z) by (apply (Hq _ _ Hz); by right).
      rewrite lookup_insert_eq in Hz'. injection Hz' as <-.
      destruct Hqz as [Hinc _]. congruence.
    + rewrite lookup_insert_ne in Hz' by done. by apply (Hq k z' Hz').
  - exact Hs.
Qed.

Lemma Inv_promoted a z :
  Inv a -> zones a !! activeKey a = Some z -> Inv (promoted a z).
Proof.
  intros [Hd Hq Hs] Hz.
  split; unfold promoted, activeKey; fields; fold (activeKey a).
  - intros k [z' Hz']. apply Hd.
    destruct (decide (activeKey a = k)) as [<-|Hne]; [by eexists|].
    rewrite lookup_insert_ne in Hz' by done. by eexists.
  - intros k z' Hz' _.
    destruct (decide (activeKey a = k)) as [<-|Hne].
    + rewrite lookup_insert_eq in Hz'. injection Hz' as <-. by split.
    + rewrite lookup_insert_ne in Hz' by done. apply (Hq k z' Hz'). by left.
  - exact Hs.
Qed.

Lemma Inv_ticked a dt : Inv a -> Inv (ticked dt a).
Proof. intros Ha. unfold ticked. sched. Qed.

Lemma Inv_update dt r : preserves Inv (update imageLoader_get dt r).
Proof.
  intros a Ha. destruct (transitioningOut a) eqn:Hout.
  { rewrite update_transitioning_out by done.
    destruct (Js.le _ 0); cbn [after]; sched. }
  destruct (state a) eqn:Hst.
  - rewrite update_idle by done. cbn [after]. by apply Inv_ticked.
  - rewrite update_fading by done.
    assert (Hb : Inv (faded (ticked dt a))) by by apply Inv_faded, Inv_ticked.
    destruct (Js.ge _ _); [|exact Hb].
    destruct (zones _ !! activeKey _) as [z|] eqn:Hz; cbn [after]; [|exact Hb].
    by apply Inv_promoted.
  - rewrite update_holding by done.
    assert (Hb : Inv (ticked dt a)) by by apply Inv_ticked.
    destruct (Js.ge _ _); [|exact Hb].
    assert (Hc : Inv (advanced (ticked dt a))).
    { apply Inv_advanced; [exact Hb|].
      change (state (ticked dt a)) with (state a). by rewrite Hst. }
    pose proof (Inv_startZoneFade _ r Hc) as Hrep.
    destruct (startZoneFade imageLoader_get r (advanced (ticked dt a)))
      as [[started|e] a' es]; exact Hrep.
Qed.

Lemma Inv_render : preserves Inv render.
Proof. apply render_preserves. Qed.

Lemma Inv_loop t : preserves Inv (loop imageLoader_get t).
Proof.
  unfold loop.
  repeat first [ inv_step | apply Inv_update | apply Inv_render ].
Qed.

Lemma Inv_start t0 r0 t : preserves Inv (start imageLoader_get t0 r0 t).
Proof.
  intros a Ha. destruct (running a) eqn:Hrun; [by rewrite start_running|].
  rewrite start_run by done.
  assert (Hp : Inv (primed t0 a)) by (unfold primed; sched).
  pose proof (Inv_startZoneFade _ r0 Hp) as Hrep.
  destruct (startZoneFade imageLoader_get r0 (primed t0 a))
    as [[started|e] a' es]; cbn [after]; [|exact Hrep].
  apply Inv_loop. exact Hrep.
Qed.

Lemma Inv_reset : preserves Inv reset.
Proof.
  intros a [Hd Hq Hs]. rewrite reset_run. cbn [after].
  split; unfold rewound, activeKey; fields.
  - intros k [z Hz]. rewrite clearedZones_lookup in Hz. apply Hd.
    case_decide; [|by eexists]. destruct (zones a !! k); [by eexists | done].
  - intros k z Hz _. rewrite clearedZones_lookup in Hz.
    destruct (decide (k ∈ categories a)) as [Hin|Hout].
    + destruct (zones a !! k); [|done]. injection Hz as <-. by split.
    + destruct Hout. apply Hd. by eexists.
  - lia.
Qed.

Lemma Inv_setImages images cats : preserves Inv (setImages images cats).
Proof.
  intros a _. rewrite setImages_run, reset_run. cbn [after].
  split; unfold rewound, activeKey; fields.
  - intros k [z Hz]. rewrite clearedZones_lookup in Hz.
    unfold freshZones in Hz. rewrite fresh_lookup in Hz.
    destruct (decide (k ∈ cats)); [done|]. by rewrite lookup_empty in Hz.
  - intros k z Hz _. rewrite clearedZones_lookup in Hz.
    unfold freshZones in Hz. rewrite fresh_lookup in Hz.
    destruct (decide (k ∈ cats)); [|by rewrite lookup_empty in Hz].
    injection Hz as <-. by split.
  - lia.
Qed.

Lemma Inv_new cv reduced : Inv (new_Animator cv reduced).
Proof.
  split; cbn.
  - intros k [z Hz]. by rewrite lookup_empty in Hz.
  - intros k z Hz. by rewrite lookup_empty in Hz.
  - lia.
Qed.

Lemma Inv_run op : preserves Inv (run imageLoader_get op).
Proof.
  destruct op; cbn [run].
  - apply Inv_setImages.
  - unfold setFrame. inv_step.
  - unfold setBackground. inv_step.
  - apply Inv_reset.
  - apply Inv_start.
  - unfold stop. repeat inv_step.
  - unfold pause. repeat inv_step.
  - unfold resume. repeat first [ inv_step | apply Inv_loop ].
  - unfold beginTransition. repeat inv_step.
  - apply Inv_update.
  - apply Inv_render.
  - unfold resize. repeat first [ inv_step | apply Inv_render ].
  - apply Inv_loop.
  - inv_step.
  - inv_step.
  - inv_step.
  - inv_step.
  - inv_step.
  - inv_step.
Qed.

End ZoneInvariant.

Lemma reachable_Inv a : reachable a -> Inv a.
Proof.
  induction 1 as [cv reduced|a ld op _ IH]; [apply Inv_new | by apply Inv_run].
Qed.

(** C10.  In every reachable state, a zone with an incoming image is
    the active zone, so at most one zone has one; every other zone has
    no incoming image and alpha 0. *)
Theorem only_active_zone_fades a :
  reachable a ->
  (forall k z, zones a !! k = Some z -> is_Some (incoming z) -> k = activeKey a) /\
  (forall k1 k2 z1 z2,
     zones a !! k1 = Some z1 -> zones a !! k2 = Some z2 ->
     is_Some (incoming z1) -> is_Some (incoming z2) -> k1 = k2) /\
  (forall k z, zones a !! k = Some z -> k <> activeKey a ->
     incoming z = None /\ alpha z = 0).
Proof.
  intros Ha%reachable_Inv.
  assert (Hactive : forall k z,
    zones a !! k = Some z -> is_Some (incoming z) -> k = activeKey a).
  { intros k z Hz [i Hi]. destruct (decide (k = activeKey a)) as [|Hne]; [done|].
    destruct (inv_quiet a Ha k z Hz) as [Hnone _]; [by left | congruence]. }
  split_and!.
  - exact Hactive.
  - intros k1 k2 z1 z2 Hz1 Hz2 H1 H2.
    rewrite (Hactive k1 z1), (Hactive k2 z2); done.
  - intros k z Hz Hne. apply (inv_quiet a Ha k z Hz). by left.
Qed.

(** ** The cursor *)

Section Cursor.

Variable imageLoader_get : string -> option Image.
Implicit Types (a : Animator) (dt r : Q).

(** What [update] does to the state and the cursor, by cases on how the
    call ends.  [moved] tells whether the cursor advanced. *)
Inductive updated a : Reply unit -> bool -> Prop :=
| upd_same a' es :
    state a' = state a ->
    currentZoneIndex a' = currentZoneIndex a ->
    currentSet a' = currentSet a ->
    updated a (mkReply (Normal tt) a' es) false
| upd_fade_thrown e a' es :
    state a = FADING -> state a' = FADING ->
    currentZoneIndex a' = currentZoneIndex a ->
    currentSet a' = currentSet a ->
    updated a (mkReply (Thrown e) a' es) false
| upd_faded a' es :
    state a = FADING -> state a' = HOLDING ->
    currentZoneIndex a' = currentZoneIndex a ->
    currentSet a' = currentSet a ->
    updated a (mkReply (Normal tt) a' es) false
| upd_held a' es :
    state a = HOLDING -> state a' = FADING ->
    currentZoneIndex a' = nextIndex a ->
    currentSet a' = nextSet a ->
    updated a (mkReply (Normal tt) a' es) true
| upd_hold_thrown e a' es :
    state a = HOLDING -> state a' = HOLDING ->
    currentZoneIndex a' = nextIndex a ->
    currentSet a' = nextSet a ->
    updated a (mkReply (Thrown e) a' es) true.

Lemma update_cases a dt r :
  exists moved, updated a (update imageLoader_get dt r a) moved.
Proof.
  destruct (transitioningOut a) eqn:Hout.
  { exists false. rewrite update_transitioning_out by done.
    destruct (Js.le _ 0); by constructor. }
  destruct (state a) eqn:Hst.
  - exists false. rewrite update_idle by done. by constructor.
  - exists false. rewrite update_fading by done.
    assert (Hf : state (faded (ticked dt a)) = FADING /\
                 currentZoneIndex (faded (ticked dt a)) = currentZoneIndex a /\
                 currentSet (faded (ticked dt a)) = currentSet a).
    { unfold faded. destruct (zones _ !! activeKey _) as [z|]; [|done].
      by destruct (incoming z). }
    destruct Hf as (Hf1 & Hf2 & Hf3).
    destruct (Js.ge _ _).
    + destruct (zones _ !! activeKey _) as [z|].
      * by apply upd_faded.
      * by apply upd_fade_thrown.
    + apply upd_same; [congruence | done | done].
  - rewrite update_holding by done.
    destruct (Js.ge _ _); [|by exists false; constructor].
    exists true.
    destruct (startZoneFade_cases imageLoader_get (advanced (ticked dt a)) r)
      as [e u es Hu Hno|u es Hu|u z img es Hu Hz Himg].
    + by apply upd_hold_thrown.
    + by apply upd_held.
    + by apply upd_held.
Qed.

(** C3.  When [update] takes the scheduler from HOLDING to FADING the
    cursor has advanced by exactly one category: to the next index, or
    after the last category to index 0 with the cycle counter
    incremented by one, the counter wrapping to 0 instead of reaching
    1000.  A call that returns without that transition leaves index and
    counter alone.  The counter of a reachable engine is below 1000. *)
Theorem cursor_advances_once_per_hold a dt r :
  let rep := update imageLoader_get dt r a in
  let n := length (categories a) in
  let i := currentZoneIndex a in
  let c := currentSet a in
  (state a = HOLDING -> state (after rep) = FADING ->
     ((S i < n)%nat ->
        currentZoneIndex (after rep) = S i /\ currentSet (after rep) = c) /\
     ((n <= S i)%nat ->
        currentZoneIndex (after rep) = O /\
        ((S c < 1000)%nat -> currentSet (after rep) = S c) /\
        ((1000 <= S c)%nat -> currentSet (after rep) = O))) /\
  (outcome rep = Normal tt ->
     state a <> HOLDING \/ state (after rep) <> FADING ->
     currentZoneIndex (after rep) = i /\ currentSet (after rep) = c) /\
  ((c < 1000)%nat -> (currentSet (after rep) < 1000)%nat) /\
  (reachable a -> (c < 1000)%nat).
Proof.
  cbv zeta. destruct (update_cases a dt r) as [moved Hupd].
  assert (Hnext :
    ((S (currentZoneIndex a) < length (categories a))%nat ->
       nextIndex a = S (currentZoneIndex a) /\ nextSet a = currentSet a) /\
    ((length (categories a) <= S (currentZoneIndex a))%nat ->
       nextIndex a = O /\
       ((S (currentSet a) < 1000)%nat -> nextSet a = S (currentSet a)) /\
       ((1000 <= S (currentSet a))%nat -> nextSet a = O))).
  { unfold nextIndex, nextSet.
    destruct (Nat.leb_spec (length (categories a)) (S (currentZoneIndex a)));
      destruct (Nat.leb_spec 1000 (S (currentSet a))); repeat split; lia. }
  pose proof (nextSet_bound a) as Hbound.
  split_and!.
  - intros Hhold Hfade.
    destruct Hupd as [a' es Hs Hi Hc|e a' es Hs|a' es Hs|a' es _ _ Hi Hc|e a' es _ Hs];
      cbn [after] in *; congruence.
  - intros Hnormal Hno.
    destruct Hupd as [a' es Hs Hi Hc|e a' es Hs|a' es Hs Hs' Hi Hc
                     |a' es Hs Hs' Hi Hc|e a' es _ Hs];
      cbn [after outcome] in *; try done; destruct Hno; congruence.
  - intros Hc0.
    destruct Hupd as [a' es Hs Hi Hc|e a' es Hs Hs' Hi Hc|a' es Hs Hs' Hi Hc
                     |a' es Hs Hs' Hi Hc|e a' es Hs Hs' Hi Hc];
      cbn [after]; rewrite Hc; auto.
  - intros Hreach. apply (inv_set a (reachable_Inv a Hreach)).
Qed.

End Cursor.

(** ** Engines with categories installed *)

Section Readiness.

Variable imageLoader_get : string -> option Image.
Implicit Types (a b : Animator) (dt r : Q).

Ltac norm := unfold advanced, promoted, ticked, fadingFrom, primed; fields.

(** Image lists that give each of the categories a list of its own,
    unless the name of the category is not one that a plain object
    inherits a member under. *)
Definition listed (images : gmap string (list string)) (cats : list string) : Prop :=
  forall c, c ∈ cats -> plain images c.

(** What [setImages] establishes when it is given such image lists and
    at least one category: the cursor points at a category, every
    category has its zone and its used set, and reading the images of
    a category gives a list or [undefined]. *)
Record Ready a : Prop := mkReady {
  ready_cursor : (currentZoneIndex a < length (categories a))%nat;
  ready_zones : forall c, c ∈ categories a -> is_Some (zones a !! c);
  ready_used : forall c, c ∈ categories a -> is_Some (usedImages a !! c);
  ready_listed : listed (imagesByColor a) (categories a)
}.

Lemma ready_active a : Ready a -> activeKey a ∈ categories a.
Proof.
  intros [Hc _ _ _]. unfold activeKey.
  destruct (lookup_lt_is_Some_2 (categories a) (currentZoneIndex a) Hc) as [c Hl].
  rewrite Hl. cbn. by eapply list_elem_of_lookup_2.
Qed.

Lemma Ready_next a b :
  Ready a ->
  imagesByColor b = imagesByColor a ->
  categories b = categories a ->
  (currentZoneIndex b < length (categories a))%nat ->
  (forall k, is_Some (zones a !! k) -> is_Some (zones b !! k)) ->
  usedKept a (usedImages b) ->
  Ready b.
Proof.
  intros [Hc Hz Hu Hl] Himg Hcat Hi Hzs Hus. split.
  - by rewrite Hcat.
  - intros c Hin. rewrite Hcat in Hin. by apply Hzs, Hz.
  - intros c Hin. rewrite Hcat in Hin. by apply Hus, Hu.
  - by rewrite Himg, Hcat.
Qed.

Lemma zones_kept_insert (m : gmap string Zone) k z :
  forall j, is_Some (m !! j) -> is_Some (<[k := z]> m !! j).
Proof.
  intros j Hj. destruct (decide (k = j)) as [<-|Hne].
  - rewrite lookup_insert_eq. by eexists.
  - by rewrite lookup_insert_ne.
Qed.

Lemma Ready_faded a : Ready a -> Ready (faded a).
Proof.
  intros Ha. unfold faded.
  destruct (zones a !! activeKey a) as [z|]; [|done].
  destruct (incoming z); [|done].
  refine (Ready_next a _ Ha _ _ _ _ _).
  - reflexivity.
  - reflexivity.
  - (norm; exact (ready_cursor a Ha)).
  - (norm; apply zones_kept_insert).
  - (norm; apply usedKept_refl).
Qed.

Lemma Ready_advanced a : Ready a -> Ready (advanced a).
Proof.
  intros Ha.
  refine (Ready_next a _ Ha _ _ _ _ _);
    [reflexivity | reflexivity | | done | (norm; apply usedKept_refl)].
  unfold advanced, nextIndex. fields. pose proof (ready_cursor a Ha).
  destruct (Nat.leb_spec (length (categories a)) (S (currentZoneIndex a))); lia.
Qed.

(** A ready engine starts its fades without throwing. *)
Lemma startZoneFade_ready a r :
  Ready a ->
  exists started a' es,
    startZoneFade imageLoader_get r a = mkReply (Normal started) a' es /\
    Ready a' /\ Ready (fadingFrom a').
Proof.
  intros Ha.
  destruct (startZoneFade_cases imageLoader_get a r)
    as [e u es Hu Hno|u es Hu|u z img es Hu Hz Himg].
  - destruct Hno. pose proof (ready_active a Ha) as Hin.
    split_and!; [by apply (ready_zones a Ha) | by apply (ready_used a Ha)
                | by apply (ready_listed a Ha)].
  - eexists _, _, _. split; [reflexivity|].
    split; (refine (Ready_next a _ Ha _ _ _ _ _);
            [reflexivity | reflexivity | (norm; exact (ready_cursor a Ha)) | done
            | exact Hu]).
  - eexists _, _, _. split; [reflexivity|].
    split; (refine (Ready_next a _ Ha _ _ _ _ _);
            [reflexivity | reflexivity | (norm; exact (ready_cursor a Ha))
            | (norm; apply zones_kept_insert) | exact Hu]).
Qed.

(** A ready engine never throws out of [update], and stays ready. *)
Lemma update_ready a dt r :
  Ready a ->
  outcome (update imageLoader_get dt r a) = Normal tt /\
  Ready (after (update imageLoader_get dt r a)).
Proof.
  intros Ha.
  assert (Hsame : forall b,
    imagesByColor b = imagesByColor a ->
    categories b = categories a -> currentZoneIndex b = currentZoneIndex a ->
    zones b = zones a -> usedImages b = usedImages a -> Ready b).
  { intros b Him Hc Hi Hz Hu.
    refine (Ready_next a _ Ha _ _ _ _ _);
      [exact Him | exact Hc | rewrite Hi; (norm; exact (ready_cursor a Ha))
      | by rewrite Hz | rewrite Hu; (norm; apply usedKept_refl)]. }
  destruct (transitioningOut a) eqn:Hout.
  { rewrite update_transitioning_out by done.
    destruct (Js.le _ 0); cbn [outcome after]; split; try done; by apply Hsame. }
  assert (Ht : Ready (ticked dt a)) by by apply Hsame.
  destruct (state a) eqn:Hst.
  - rewrite update_idle by done. by split.
  - rewrite update_fading by done.
    assert (Hb : Ready (faded (ticked dt a))) by by apply Ready_faded.
    destruct (Js.ge _ _); [|by split].
    destruct (ready_zones _ Hb _ (ready_active _ Hb)) as [z Hz]. rewrite Hz.
    cbn [outcome after]. split; [done|].
    refine (Ready_next (faded (ticked dt a)) _ Hb _ _ _ _ _);
      [reflexivity | reflexivity | (norm; exact (ready_cursor _ Hb))
      | (norm; apply zones_kept_insert) | (norm; apply usedKept_refl)].
  - rewrite update_holding by done.
    destruct (Js.ge _ _); [|by split].
    destruct (startZoneFade_ready (advanced (ticked dt a)) r)
      as (started & a' & es & -> & _ & Hready); [by apply Ready_advanced|].
    by split.
Qed.

End Readiness.

(** ** The state sequence *)

Section StateSequence.

Variable imageLoader_get : string -> option Image.
Implicit Types (a b : Animator) (dt r : Q).

Ltac norm := unfold advanced, promoted, ticked, fadingFrom, primed; fields.


(** Categories none of which is named after a member of
    [Object.prototype] are listed, whatever the image lists. *)
Lemma listed_names images cats :
  Forall (fun c => Js.member c Js.ObjectPrototype = None) cats ->
  listed images cats.
Proof.
  intros Hall c Hin. right. revert c Hin. by apply Forall_forall.
Qed.

(** Categories each of which has an image list are listed. *)
Lemma listed_own images cats :
  (forall c, c ∈ cats -> is_Some (images !! c)) -> listed images cats.
Proof. intros Hall c Hin. left. by apply Hall. Qed.

Lemma Ready_setImages a images cats :
  cats <> [] -> listed images cats -> Ready (after (setImages images cats a)).
Proof.
  intros Hne Hl. rewrite setImages_run, reset_run. cbn [after].
  split; unfold rewound; fields; [| | |exact Hl].
  - destruct cats; [done | cbn; lia].
  - intros c Hin. rewrite clearedZones_lookup, decide_True by done.
    unfold freshZones. rewrite fresh_lookup, decide_True by done. by eexists.
  - intros c Hin. rewrite clearedUsed_lookup, decide_True by done.
    unfold freshUsed. rewrite fresh_lookup, decide_True by done. by eexists.
Qed.

(** [faded] writes an alpha and nothing else. *)
Lemma faded_zone a z :
  zones a !! activeKey a = Some z ->
  exists v, zones (faded a) !! activeKey a = Some (withAlpha v z).
Proof.
  intros Hz. unfold faded. rewrite Hz.
  destruct (incoming z).
  - eexists. fields. by rewrite lookup_insert_eq.
  - exists (alpha z). rewrite Hz. by destruct z.
Qed.

Lemma faded_sched a :
  state (faded a) = state a /\ stateTime (faded a) = stateTime a /\
  activeKey (faded a) = activeKey a.
Proof.
  unfold faded. destruct (zones a !! activeKey a) as [z|]; [|done].
  by destruct (incoming z).
Qed.


















Definition isSetImages (op : Op) : bool :=
  match op with CallSetImages _ _ => true | _ => false end.





End StateSequence.

(** An image cache that holds every image, 800 by 800. *)
Definition loaded (src : string) : option Image := Some (mkImage src 800 800).



(** ** Opacities stay between 0 and 1 *)

Section Opacity.

Variable imageLoader_get : string -> option Image.
Implicit Types (a b : Animator) (dt r : Q) (z : Zone).

Ltac norm := unfold advanced, promoted, ticked, fadingFrom, primed; fields.

Definition unit_interval (x : Q) : Prop := 0 <= x /\ x <= 1.

Lemma Qdiv_nonneg x y : 0 <= x -> 0 < y -> 0 <= x / y.
Proof.
  intros Hx Hy. unfold Qdiv. apply Qmult_le_0_compat; [exact Hx|].
  by apply Qlt_le_weak, Qinv_lt_0_compat.
Qed.

Lemma Qmin_unit x : 0 <= x -> unit_interval (Qmin x 1).
Proof.
  intros Hx. split.
  - apply Q.min_glb; [exact Hx | lra].
  - apply Q.le_min_r.
Qed.

(** The cubic ease maps the unit interval into itself. *)
Lemma easeInOutCubic_unit p : unit_interval p -> unit_interval (easeInOutCubic p).
Proof.
  intros [H0 H1]. unfold easeInOutCubic, unit_interval.
  destruct (Js.lt p (1 # 2)) eqn:Hlt.
  - apply Js_lt_spec in Hlt.
    assert (0 <= p * p) by nra. assert (p * p <= 1 # 4) by nra.
    assert (0 <= p * p * p) by nra. assert (p * p * p <= 1 # 8) by nra.
    split; lra.
  - apply Js_lt_false in Hlt. cbn [Js.pow].
    set (q := -2 * p + 2). assert (0 <= q) by (unfold q; lra).
    assert (q <= 1) by (unfold q; lra). clearbody q.
    assert (0 <= q * q) by nra. assert (q * q <= 1) by nra.
    assert (0 <= q * (q * q)) by nra. assert (q * (q * q) <= 1) by nra.
    set (c := q * (q * q)) in *. clearbody c.
    assert (Hhalf : c / 2 == c * (1 # 2)) by field.
    split; rewrite Hhalf; lra.
Qed.

(** What stays true of the opacities and the clock. *)
Record alphaOk a : Prop := mkAlphaOk {
  ok_transition : unit_interval (transitionAlpha a);
  ok_zones : forall k z, zones a !! k = Some z -> unit_interval (alpha z);
  ok_time : 0 <= stateTime a;
  ok_fade : 0 < fadeDuration a
}.

Lemma effectiveFadeDuration_pos a : 0 < fadeDuration a -> 0 < effectiveFadeDuration a.
Proof. intros H. unfold effectiveFadeDuration. by destruct (prefersReducedMotion a). Qed.

Lemma fadingAlpha_unit a :
  0 <= stateTime a -> 0 < fadeDuration a -> unit_interval (fadingAlpha a).
Proof.
  intros Ht Hf. unfold fadingAlpha. cbv zeta.
  assert (Hp : unit_interval (Qmin (stateTime a / effectiveFadeDuration a) 1)).
  { apply Qmin_unit, Qdiv_nonneg; [done | by apply effectiveFadeDuration_pos]. }
  destruct (prefersReducedMotion a); [exact Hp | by apply easeInOutCubic_unit].
Qed.

Lemma rampedAlpha_unit a dt :
  0 <= dt -> 0 < fadeDuration a -> unit_interval (transitionAlpha a) ->
  unit_interval (rampedAlpha dt a).
Proof.
  intros Hdt Hf [H0 H1]. unfold rampedAlpha.
  pose proof (Qdiv_nonneg dt _ Hdt (effectiveFadeDuration_pos a Hf)) as Hd.
  set (d := dt / effectiveFadeDuration a) in *. clearbody d.
  destruct (Js.lt (transitionAlpha a) 1) eqn:Hlt; [|by split].
  cbv zeta. destruct (Js.gt _ 1) eqn:Hgt.
  - split; lra.
  - apply Js_lt_false in Hgt. split; lra.
Qed.

Lemma zone_alphas_insert (m : gmap string Zone) k z :
  (forall j z', m !! j = Some z' -> unit_interval (alpha z')) ->
  unit_interval (alpha z) ->
  forall j z', <[k := z]> m !! j = Some z' -> unit_interval (alpha z').
Proof.
  intros Hm Hz j z' Hz'. destruct (decide (k = j)) as [<-|Hne].
  - rewrite lookup_insert_eq in Hz'. by injection Hz' as <-.
  - rewrite lookup_insert_ne in Hz' by done. by apply (Hm j).
Qed.

Lemma zero_unit : unit_interval 0.
Proof. split; lra. Qed.

(** The opacity invariant reads four fields. *)
Lemma alphaOk_next a b :
  alphaOk a ->
  transitionAlpha b = transitionAlpha a ->
  (forall k z, zones b !! k = Some z -> unit_interval (alpha z)) ->
  0 <= stateTime b ->
  fadeDuration b = fadeDuration a ->
  alphaOk b.
Proof.
  intros [Ht Hz Hs Hf] Hta Hzs Hst Hfd. split; [by rewrite Hta | done | done |].
  by rewrite Hfd.
Qed.

Lemma alphaOk_update dt r :
  0 <= dt -> preserves alphaOk (update imageLoader_get dt r).
Proof.
  intros Hdt a Ha. pose proof Ha as [Ht Hz Hs Hf].
  pose proof (effectiveFadeDuration_pos a Hf) as He.
  pose proof (Qdiv_nonneg dt _ Hdt He) as Hd.
  destruct (transitioningOut a) eqn:Hout.
  { rewrite update_transitioning_out by done.
    destruct (Js.le _ 0) eqn:Hle; cbn [after]; split; fields;
      try done; try apply zero_unit.
    apply Js_le_false in Hle. destruct Ht.
    set (d := dt / effectiveFadeDuration a) in *. clearbody d. split; lra. }
  assert (Hb : alphaOk (ticked dt a)).
  { split; unfold ticked; fields; try done.
    - by apply rampedAlpha_unit.
    - lra. }
  clear Ha Ht Hz Hs Hf He Hd.
  set (t := ticked dt a) in *.
  destruct (state a) eqn:Hst.
  - by rewrite update_idle.
  - rewrite update_fading by done. fold t.
    assert (Hc : alphaOk (faded t)).
    { unfold faded. destruct (zones t !! activeKey t) as [z|] eqn:Hzk; [|done].
      destruct (incoming z); [|done].
      refine (alphaOk_next t _ Hb _ _ _ _); fields;
        [reflexivity | | apply (ok_time t Hb) | reflexivity].
      apply zone_alphas_insert; [apply (ok_zones t Hb)|]. cbn [alpha withAlpha].
      apply fadingAlpha_unit; [apply (ok_time t Hb) | apply (ok_fade t Hb)]. }
    destruct (Js.ge _ _); [|done].
    set (f := faded t) in *.
    destruct (zones f !! activeKey f) as [z|]; cbn [after]; [|done].
    refine (alphaOk_next f _ Hc _ _ _ _); unfold promoted; fields;
      [reflexivity | | lra | reflexivity].
    apply zone_alphas_insert; [apply (ok_zones f Hc) | apply zero_unit].
  - rewrite update_holding by done. fold t.
    destruct (Js.ge _ _); [|done].
    destruct (startZoneFade_cases imageLoader_get (advanced t) r)
      as [e u es Hu Hno|u es Hu|u z img es Hu Hzk Himg].
    + cbn [after]. refine (alphaOk_next t _ Hb _ _ _ _); unfold advanced; fields;
        [reflexivity | apply (ok_zones t Hb) | apply (ok_time t Hb) | reflexivity].
    + cbn [after]. refine (alphaOk_next t _ Hb _ _ _ _); unfold advanced; fields;
        [reflexivity | apply (ok_zones t Hb) | lra | reflexivity].
    + cbn [after]. refine (alphaOk_next t _ Hb _ _ _ _); unfold advanced; fields;
        [reflexivity | | lra | reflexivity].
      apply zone_alphas_insert; [apply (ok_zones t Hb) | apply zero_unit].
Qed.

(** A sequence of direct [update] calls, each with its delta and the
    random value it may consume; a call that throws does not keep the
    caller from calling again. *)
Fixpoint updates (ticks : list (Q * Q)) (a : Animator) : Animator :=
  match ticks with
  | [] => a
  | t :: ticks' => updates ticks' (after (update imageLoader_get (fst t) (snd t) a))
  end.

(** C4.  Starting from an engine whose transition alpha and zone alphas
    are within [0,1], whose state time is not negative and whose fade
    duration is positive, any sequence of [update] calls with
    non-negative deltas, however large, leaves the transition alpha and
    every zone's alpha within [0,1]. *)
Theorem opacities_stay_in_unit_interval a ticks :
  0 <= transitionAlpha a /\ transitionAlpha a <= 1 ->
  (forall k z, zones a !! k = Some z -> 0 <= alpha z /\ alpha z <= 1) ->
  0 <= stateTime a ->
  0 < fadeDuration a ->
  Forall (fun t => 0 <= fst t) ticks ->
  let a' := updates ticks a in
  (0 <= transitionAlpha a' /\ transitionAlpha a' <= 1) /\
  (forall k z, zones a' !! k = Some z -> 0 <= alpha z /\ alpha z <= 1).
Proof.
  intros Ht Hz Hs Hf Hticks. cbv zeta.
  assert (Ha : alphaOk a) by by split.
  clear Ht Hz Hs Hf. revert a Ha.
  induction Hticks as [|t ticks Hdt _ IH]; intros a Ha; cbn [updates].
  - destruct Ha as [Ht Hz _ _]. by split.
  - apply IH. by apply alphaOk_update.
Qed.

End Opacity.

(** The two-pink engine, started. *)
Definition pinkStarted : Animator :=
  after (start loaded 0 0 (mkTick 0 0 1) twoPinks).

Lemma opacities_stay_in_unit_interval_witness :
  let a' := updates loaded [(1000, 0); (0, 0); (5, 1 # 2); (1 # 3, 0)] pinkStarted in
  (0 <= transitionAlpha a' /\ transitionAlpha a' <= 1) /\
  (forall k z, zones a' !! k = Some z -> 0 <= alpha z /\ alpha z <= 1).
Proof.
  apply (opacities_stay_in_unit_interval loaded pinkStarted).
  - vm_compute. split; discriminate.
  - intros k z Hz.
    assert (Hq : quiet z \/ k = activeKey pinkStarted).
    { destruct (decide (k = activeKey pinkStarted)) as [|Hne]; [by right|]. left.
      apply (inv_quiet pinkStarted) with k; [|done|by left].
      apply reachable_Inv.
      apply (reach_step _ loaded (CallStart 0 0 (mkTick 0 0 1))).
      apply (reach_step _ loaded (CallSetImages {[ "pink" := ["p1"; "p2"] ]} ["pink"])).
      apply reach_new. }
    destruct Hq as [[_ ->]| ->]; [split; discriminate|].
    vm_compute in Hz. injection Hz as <-. vm_compute. split; discriminate.
  - vm_compute. discriminate.
  - vm_compute. reflexivity.
  - repeat constructor; vm_compute; discriminate.
Defined.

(** The two-pink engine after its first fade, holding. *)
Definition pinkHolding : Animator :=
  after (update loaded (17 # 10) 0 pinkStarted).

Lemma cursor_advances_once_per_hold_witness :
  let rep := update loaded (17 # 10) (1 # 2) pinkHolding in
  currentZoneIndex (after rep) = O /\
  ((S (currentSet pinkHolding) < 1000)%nat ->
     currentSet (after rep) = S (currentSet pinkHolding)) /\
  ((1000 <= S (currentSet pinkHolding))%nat -> currentSet (after rep) = O).
Proof.
  refine (proj2 (proj1 (cursor_advances_once_per_hold loaded pinkHolding
                          (17 # 10) (1 # 2)) _ _) _).
  - vm_compute. reflexivity.
  - vm_compute. reflexivity.
  - vm_compute. lia.
Defined.

(** ** The style-switch dissolve *)

Definition isTransitionComplete (e : Event) : bool :=
  match e with TransitionComplete => true | _ => false end.

(** How many times the transition-complete observer was called. *)
Definition notifications (es : list Event) : nat :=
  length (filter (fun e => isTransitionComplete e = true) es).

Lemma notifications_app es1 es2 :
  notifications (es1 ++ es2) = (notifications es1 + notifications es2)%nat.
Proof. unfold notifications. by rewrite filter_app, length_app. Qed.

(** [silent c]: [c] never calls the transition-complete observer. *)
Definition silent {A} (c : M A) : Prop :=
  forall a, notifications (emitted (c a)) = O.

Lemma silent_ret {A} (v : A) : silent (ret v).
Proof. by intros a. Qed.

Lemma silent_this : silent this.
Proof. by intros a. Qed.

Lemma silent_assign f : silent (assign f).
Proof. by intros a. Qed.

Lemma silent_throw {A} e : silent (@throw A e).
Proof. by intros a. Qed.

Lemma silent_emit e : isTransitionComplete e = false -> silent (emit e).
Proof. intros He a. cbn. unfold notifications. cbn. by rewrite decide_False by (by rewrite He). Qed.

Lemma silent_bind {A B} (c : M A) (k : A -> M B) :
  silent c -> (forall v, silent (k v)) -> silent (bind c k).
Proof.
  intros Hc Hk a. unfold bind. specialize (Hc a).
  destruct (outcome (c a)) as [v|e]; cbn [emitted]; [|done].
  by rewrite notifications_app, Hc, (Hk v).
Qed.

Lemma silent_when b (c : M unit) : silent c -> silent (when b c).
Proof. intros Hc. destruct b; [done | apply silent_ret]. Qed.

Ltac silent_step :=
  lazymatch goal with
  | |- silent (bind _ _) => apply silent_bind; [|intros ?]
  | |- silent (ret _) => apply silent_ret
  | |- silent this => apply silent_this
  | |- silent (assign _) => apply silent_assign
  | |- silent (throw _) => apply silent_throw
  | |- silent (emit _) => apply silent_emit; reflexivity
  | |- silent (when _ _) => apply silent_when
  | |- silent (zoneAssign _ _) => unfold zoneAssign
  | |- silent (if ?b then _ else _) => destruct b
  | |- silent (match ?x with _ => _ end) => destruct x
  end.

Lemma startZoneFade_silent ld r : silent (startZoneFade ld r).
Proof. unfold startZoneFade, getRandomImage. repeat silent_step. Qed.

(** The dissolve of the premium variant over a run of ticks. *)

(** The fields after the ticks [dts], and the number of times the
    transition-complete observer became due. *)
Fixpoint dissolves (eff : Q) (dts : list Q) (d : Premium.Dissolve)
  : Premium.Dissolve * nat :=
  match dts with
  | [] => (d, O)
  | dt :: rest =>
      let r := Premium.dissolve eff dt d in
      let r' := dissolves eff rest (fst (fst r)) in
      (fst r', ((if snd (fst r) then 1 else 0) + snd r')%nat)
  end.

Definition sumQ (dts : list Q) : Q := foldr Qplus 0 dts.

Lemma sumQ_nonneg dts : Forall (fun dt => 0 <= dt) dts -> 0 <= sumQ dts.
Proof.
  induction 1 as [|dt dts Hd _ IH]; cbn [sumQ foldr]; [lra|].
  fold (sumQ dts). lra.
Qed.

Lemma timeOrZero_some v : Premium.timeOrZero (Some v) == v.
Proof.
  unfold Premium.timeOrZero, Js.num_or.
  destruct (Qeq_bool v 0) eqn:E; [|reflexivity].
  apply Qeq_bool_iff in E. by rewrite E.
Qed.

(** The share of the fade duration that has passed has reached 1
    exactly when the time has reached the duration. *)
Lemma progress_done time eff :
  0 < eff -> Js.ge (Qmin (time / eff) 1) 1 = true <-> eff <= time.
Proof.
  intros He. unfold Js.ge. rewrite Js_le_spec.
  assert (Hne : ~ eff == 0) by (intros H0; rewrite H0 in He; by apply Qlt_irrefl in He).
  assert (Hq : eff * (time / eff) == time) by (field; exact Hne).
  set (q := time / eff) in *. clearbody q. split.
  - intros H1. assert (H2 : 1 <= q).
    { destruct (Q.min_spec q 1) as [[Hc Hm]|[Hc Hm]]; rewrite Hm in H1; lra. }
    nra.
  - intros Hle. apply Q.min_glb; [|lra].
    destruct (Qlt_le_dec q 1) as [Hlt|]; [|done]. exfalso. nra.
Qed.

Lemma progress_more time eff :
  0 < eff -> Js.ge (Qmin (time / eff) 1) 1 = false <-> time < eff.
Proof.
  intros He. rewrite <- not_true_iff_false, (progress_done time eff He).
  split; [apply Qnot_le_lt | apply Qlt_not_le].
Qed.

(** One tick of the premium dissolve, case by case. *)
Lemma premium_dissolve_step eff dt (d : Premium.Dissolve) :
  0 < eff ->
  let time := Premium.timeOrZero (Premium.transitionTime d) + dt in
  (Premium.transitioningOut d = true ->
     (time < eff ->
        Premium.dissolve eff dt d =
          (Premium.mkDissolve true
             (1 - Premium.easeInOutSoft (Qmin (time / eff) 1)) (Some time),
           false, true)) /\
     (eff <= time ->
        Premium.dissolve eff dt d =
          (Premium.mkDissolve false 0 (Some 0), true, true))) /\
  (Premium.transitioningOut d = false -> Premium.transitionAlpha d < 1 ->
     (time < eff ->
        Premium.dissolve eff dt d =
          (Premium.mkDissolve false
             (Premium.easeOut (Qmin (time / eff) 1)) (Some time),
           false, false)) /\
     (eff <= time ->
        Premium.dissolve eff dt d =
          (Premium.mkDissolve false 1 (Some 0), false, false))) /\
  (Premium.transitioningOut d = false -> 1 <= Premium.transitionAlpha d ->
     Premium.dissolve eff dt d = (d, false, false)).
Proof.
  intros He time. unfold Premium.dissolve. fold time. split_and!.
  - intros ->. split.
    + intros Hlt. by rewrite (proj2 (progress_more time eff He) Hlt).
    + intros Hge. by rewrite (proj2 (progress_done time eff He) Hge).
  - intros -> Hlt1. apply Js_lt_spec in Hlt1. rewrite Hlt1. split.
    + intros Hlt. by rewrite (proj2 (progress_more time eff He) Hlt).
    + intros Hge. by rewrite (proj2 (progress_done time eff He) Hge).
  - intros -> Hge1. apply Js_lt_false in Hge1. by rewrite Hge1.
Qed.

(** With no transition-out under way the observer is never due, and no
    transition-out begins. *)
Lemma premium_in_phase eff dts (d : Premium.Dissolve) :
  Premium.transitioningOut d = false ->
  snd (dissolves eff dts d) = O /\
  Premium.transitioningOut (fst (dissolves eff dts d)) = false.
Proof.
  revert d. induction dts as [|dt dts IH]; intros d Hout; [done|].
  cbn [dissolves fst snd].
  assert (Hstep : snd (fst (Premium.dissolve eff dt d)) = false /\
                  Premium.transitioningOut (fst (fst (Premium.dissolve eff dt d))) = false).
  { unfold Premium.dissolve. rewrite Hout.
    destruct (Js.lt _ 1); [|done]. by destruct (Js.ge _ 1). }
  destruct Hstep as [Hn Hout']. rewrite Hn.
  destruct (IH _ Hout') as [IHn IHout]. by rewrite IHn.
Qed.

(** A transition-out of the premium variant: the observer becomes due
    in the tick in which the time since the transition began reaches
    the fade duration, and never again. *)
Lemma premium_out_phase eff dts (d : Premium.Dissolve) :
  0 < eff ->
  Premium.transitioningOut d = true ->
  Premium.timeOrZero (Premium.transitionTime d) < eff ->
  Forall (fun dt => 0 <= dt) dts ->
  let t0 := Premium.timeOrZero (Premium.transitionTime d) in
  (eff <= t0 + sumQ dts ->
     snd (dissolves eff dts d) = 1%nat /\
     Premium.transitioningOut (fst (dissolves eff dts d)) = false) /\
  (t0 + sumQ dts < eff ->
     snd (dissolves eff dts d) = O /\
     Premium.transitioningOut (fst (dissolves eff dts d)) = true /\
     Premium.timeOrZero (Premium.transitionTime (fst (dissolves eff dts d)))
       == t0 + sumQ dts).
Proof.
  intros He Hout Ht0 Hdts. revert d Hout Ht0.
  induction Hdts as [|dt dts Hd Hdts IH]; intros d Hout Ht0; cbv zeta.
  - cbn [sumQ foldr dissolves fst snd]. split.
    + intros Hle. exfalso. lra.
    + intros _. split_and!; [done | done | ring].
  - cbn [sumQ foldr dissolves]. fold (sumQ dts).
    pose proof (sumQ_nonneg dts Hdts) as Hrest.
    destruct (premium_dissolve_step eff dt d He) as [Hstep _].
    destruct (Hstep Hout) as [Hmore Hdone]. clear Hstep.
    set (t0 := Premium.timeOrZero (Premium.transitionTime d)) in *.
    destruct (Qlt_le_dec (t0 + dt) eff) as [Hlt|Hge].
    + rewrite (Hmore Hlt). cbn [fst snd].
      set (d' := Premium.mkDissolve true _ _).
      assert (Ht' : Premium.timeOrZero (Premium.transitionTime d') == t0 + dt)
        by apply timeOrZero_some.
      destruct (IH d') as [IH1 IH2]; [done | by rewrite Ht' |].
      rewrite Ht' in IH1, IH2. split.
      * intros Hle. apply IH1. lra.
      * intros Hlt'. destruct IH2 as (I1 & I2 & I3); [lra|].
        split_and!; [done | done |]. rewrite I3. ring.
    + rewrite (Hdone Hge). cbn [fst snd].
      destruct (premium_in_phase eff dts (Premium.mkDissolve false 0 (Some 0)))
        as [Hn Hfin]; [done|].
      split.
      * intros _. by rewrite Hn.
      * intros Hlt. exfalso. lra.
Qed.

Section Dissolve.

(** [ld] stands for [window.imageLoader.get]. *)
Variable ld : string -> option Image.
Implicit Types (a b : Animator) (dt r : Q) (ticks : list (Q * Q)).

(** The calls made by a sequence of direct [update] calls. *)
Fixpoint updatesLog ticks a : list Event :=
  match ticks with
  | [] => []
  | t :: ticks' =>
      emitted (update ld (fst t) (snd t) a) ++
      updatesLog ticks' (after (update ld (fst t) (snd t) a))
  end.

Definition totalTime ticks : Q := foldr (fun t acc => fst t + acc) 0 ticks.

Lemma totalTime_nonneg ticks :
  Forall (fun t => 0 <= fst t) ticks -> 0 <= totalTime ticks.
Proof.
  induction 1 as [|t ticks Ht _ IH]; cbn [totalTime foldr]; [lra|].
  fold (totalTime ticks). lra.
Qed.

(** Outside a transition-out, [update] neither starts one nor calls the
    transition-complete observer, and the global alpha it leaves is the
    ramped one. *)
Lemma update_fade_in a dt r :
  transitioningOut a = false ->
  notifications (emitted (update ld dt r a)) = O /\
  transitioningOut (after (update ld dt r a)) = false /\
  transitionAlpha (after (update ld dt r a)) = rampedAlpha dt a.
Proof.
  intros Hout. destruct (state a) eqn:Hst.
  - rewrite update_idle by done. by split_and!.
  - rewrite update_fading by done.
    assert (Hf : transitioningOut (faded (ticked dt a)) = false /\
                 transitionAlpha (faded (ticked dt a)) = rampedAlpha dt a).
    { unfold faded. destruct (zones _ !! activeKey _) as [z|]; [|done].
      by destruct (incoming z). }
    destruct Hf as [Hf1 Hf2].
    destruct (Js.ge _ _); [|by split_and!].
    destruct (zones _ !! activeKey _); by split_and!.
  - rewrite update_holding by done.
    destruct (Js.ge _ _); [|by split_and!].
    pose proof (startZoneFade_silent ld r (advanced (ticked dt a)))
      as Hsilent.
    pose proof (startZoneFade_keeps ld transitioningOut r
                  ltac:(done) ltac:(done) (advanced (ticked dt a))) as Hk1.
    pose proof (startZoneFade_keeps ld transitionAlpha r
                  ltac:(done) ltac:(done) (advanced (ticked dt a))) as Hk2.
    destruct (startZoneFade ld r (advanced (ticked dt a)))
      as [[started|e] a' es]; cbn [outcome after emitted] in *; fields;
      rewrite Hk1, Hk2; by split_and!.
Qed.

(** Once no transition-out is active, a run of ticks stays that way and
    calls the observer never. *)
Lemma fade_in_phase ticks a :
  transitioningOut a = false ->
  notifications (updatesLog ticks a) = O /\
  transitioningOut (updates ld ticks a) = false.
Proof.
  revert a. induction ticks as [|t ticks IH]; intros a Hout; [done|].
  cbn [updatesLog updates].
  destruct (update_fade_in a (fst t) (snd t) Hout) as (Hn & Hout' & _).
  destruct (IH _ Hout') as [IHn IHout]. split.
  - by rewrite notifications_app, Hn, IHn.
  - exact IHout.
Qed.

(** A transition-out in progress: the alpha goes down by
    [deltaTime / effectiveFadeDuration] per tick; the tick that brings
    it to 0 or below ends the transition and calls the observer, and
    no later tick calls it again. *)
Lemma out_phase ticks a :
  transitioningOut a = true ->
  0 < transitionAlpha a ->
  onTransitionComplete a = true ->
  0 < effectiveFadeDuration a ->
  Forall (fun t => 0 <= fst t) ticks ->
  (transitionAlpha a * effectiveFadeDuration a <= totalTime ticks ->
     notifications (updatesLog ticks a) = 1%nat /\
     transitioningOut (updates ld ticks a) = false) /\
  (totalTime ticks < transitionAlpha a * effectiveFadeDuration a ->
     notifications (updatesLog ticks a) = O /\
     transitioningOut (updates ld ticks a) = true /\
     transitionAlpha (updates ld ticks a) ==
       transitionAlpha a - totalTime ticks / effectiveFadeDuration a).
Proof.
  intros Hout Hpos Hobs He Hticks. revert a Hout Hpos Hobs He.
  induction Hticks as [|t ticks Hd Hticks IH]; intros a Hout Hpos Hobs He.
  - cbn [totalTime foldr updatesLog updates]. split.
    + intros Hle. exfalso.
      set (tau := transitionAlpha a) in *. set (E := effectiveFadeDuration a) in *.
      clearbody tau E. nra.
    + intros _. split_and!; [done | done |].
      field. intros H0. rewrite H0 in He. by apply Qlt_irrefl in He.
  - cbn [totalTime foldr updatesLog updates]. fold (totalTime ticks).
    pose proof (totalTime_nonneg ticks Hticks) as Hrest.
    assert (HE : ~ effectiveFadeDuration a == 0).
    { intros H0. rewrite H0 in He. by apply Qlt_irrefl in He. }
    pose proof (Qmult_div_r (fst t) _ HE) as Hx.
    rewrite update_transitioning_out by done. rewrite Hobs.
    destruct (Js.le _ 0) eqn:Hle; cbn [after emitted].
    + apply Js_le_spec in Hle.
      destruct (fade_in_phase ticks
                  (setTransitioningOut false (setTransitionAlpha 0 a)))
        as [Hn Hfin]; [done|].
      split.
      * intros _. by rewrite notifications_app, Hn.
      * intros Hlt. exfalso.
        set (tau := transitionAlpha a) in *. set (E := effectiveFadeDuration a) in *.
        set (x := fst t / E) in *. set (d := fst t) in *.
        set (rest := totalTime ticks) in *. clearbody tau E x d rest. nra.
    + apply Js_le_false in Hle.
      destruct (IH (setTransitionAlpha
                      (transitionAlpha a - fst t / effectiveFadeDuration a) a))
        as [IH1 IH2]; [done | done | done | done |].
      revert IH1 IH2. fields.
      change (effectiveFadeDuration (setTransitionAlpha _ a))
        with (effectiveFadeDuration a).
      set (a1 := setTransitionAlpha _ a).
      set (tau := transitionAlpha a) in *. set (E := effectiveFadeDuration a) in *.
      set (x := fst t / E) in *. set (d := fst t) in *.
      set (rest := totalTime ticks) in *.
      intros IH1 IH2. split.
      * intros Hge. apply IH1. clearbody tau E x d rest. nra.
      * intros Hlt. destruct IH2 as (I1 & I2 & I3).
        { clearbody tau E x d rest. nra. }
        split_and!; [done | done |]. rewrite I3. unfold x. field. exact HE.
Qed.

(** C5 (as amended).  In [js/animator.js]: [beginTransition] sets the
    transitioning-out flag and the global alpha to 1.  While the flag
    is set each [update] lowers the alpha by
    [deltaTime / effectiveFadeDuration], a straight line with no easing
    curve, and does nothing else; the call that brings it to 0 or
    below sets it to 0, clears the flag and calls the
    transition-complete observer.  Over the ticks that follow a
    [beginTransition] the observer is called exactly once as soon as
    their deltas sum to the fade duration in effect, and not before.
    With the flag clear and the alpha below 1, each [update] raises the
    alpha by the same amount, up to 1 and no further.

    In the premium variant: [beginTransition] sets the flag and the
    alpha to 1 and leaves the transition clock alone.  While the flag
    is set each [update] advances the transition clock by the delta
    and sets the alpha to 1 minus [easeInOutSoft] of the share of the
    fade duration that has passed; the call in which the clock reaches
    the fade duration sets the alpha to 0, clears the flag, resets the
    clock and makes the observer due.  Over the ticks that follow a
    [beginTransition] made with the clock at zero the observer is due
    exactly once as soon as the deltas sum to the fade duration, and
    not before.  With the flag clear and the alpha below 1, each
    [update] advances the clock and sets the alpha to [easeOut] of the
    share, and to 1, with the clock reset, once the clock reaches the
    fade duration; with the alpha at 1 nothing changes.  The curve of
    the dissolve is not the one of the zone fades: a quarter in, the
    one has moved 1/64 and the other 3332/8192. *)
Theorem transition_dissolve a dt r ticks (d : Premium.Dissolve) (eff pdt : Q)
    (dts : list Q) :
  0 < effectiveFadeDuration a ->
  0 < eff ->
  beginTransition a =
    mkReply (Normal tt) (setTransitionAlpha 1 (setTransitioningOut true a)) [] /\
  (transitioningOut a = true ->
     (0 < transitionAlpha a - dt / effectiveFadeDuration a ->
        update ld dt r a =
          mkReply (Normal tt)
            (setTransitionAlpha (transitionAlpha a - dt / effectiveFadeDuration a) a)
            []) /\
     (transitionAlpha a - dt / effectiveFadeDuration a <= 0 ->
        update ld dt r a =
          mkReply (Normal tt) (setTransitioningOut false (setTransitionAlpha 0 a))
            (if onTransitionComplete a then [TransitionComplete] else []))) /\
  (Forall (fun t => 0 <= fst t) ticks -> onTransitionComplete a = true ->
     (effectiveFadeDuration a <= totalTime ticks ->
        notifications (updatesLog ticks (after (beginTransition a))) = 1%nat /\
        transitioningOut (updates ld ticks (after (beginTransition a))) = false) /\
     (totalTime ticks < effectiveFadeDuration a ->
        notifications (updatesLog ticks (after (beginTransition a))) = O /\
        transitioningOut (updates ld ticks (after (beginTransition a))) = true /\
        transitionAlpha (updates ld ticks (after (beginTransition a))) ==
          1 - totalTime ticks / effectiveFadeDuration a)) /\
  (transitioningOut a = false ->
     notifications (emitted (update ld dt r a)) = O /\
     (transitionAlpha a < 1 ->
        transitionAlpha a + dt / effectiveFadeDuration a <= 1 ->
        transitionAlpha (after (update ld dt r a)) =
          transitionAlpha a + dt / effectiveFadeDuration a) /\
     (transitionAlpha a < 1 ->
        1 < transitionAlpha a + dt / effectiveFadeDuration a ->
        transitionAlpha (after (update ld dt r a)) = 1) /\
     (1 <= transitionAlpha a ->
        transitionAlpha (after (update ld dt r a)) = transitionAlpha a)) /\
  (let time := Premium.timeOrZero (Premium.transitionTime d) + pdt in
   Premium.beginTransition d = Premium.mkDissolve true 1 (Premium.transitionTime d) /\
   (Premium.transitioningOut d = true ->
      (time < eff ->
         Premium.dissolve eff pdt d =
           (Premium.mkDissolve true
              (1 - Premium.easeInOutSoft (Qmin (time / eff) 1)) (Some time),
            false, true)) /\
      (eff <= time ->
         Premium.dissolve eff pdt d =
           (Premium.mkDissolve false 0 (Some 0), true, true))) /\
   (Forall (fun dt => 0 <= dt) dts ->
    Premium.timeOrZero (Premium.transitionTime d) == 0 ->
      (eff <= sumQ dts ->
         snd (dissolves eff dts (Premium.beginTransition d)) = 1%nat /\
         Premium.transitioningOut
           (fst (dissolves eff dts (Premium.beginTransition d))) = false) /\
      (sumQ dts < eff ->
         snd (dissolves eff dts (Premium.beginTransition d)) = O /\
         Premium.transitioningOut
           (fst (dissolves eff dts (Premium.beginTransition d))) = true)) /\
   (Premium.transitioningOut d = false -> Premium.transitionAlpha d < 1 ->
      (time < eff ->
         Premium.dissolve eff pdt d =
           (Premium.mkDissolve false
              (Premium.easeOut (Qmin (time / eff) 1)) (Some time),
            false, false)) /\
      (eff <= time ->
         Premium.dissolve eff pdt d =
           (Premium.mkDissolve false 1 (Some 0), false, false))) /\
   (Premium.transitioningOut d = false -> 1 <= Premium.transitionAlpha d ->
      Premium.dissolve eff pdt d = (d, false, false)) /\
   Premium.easeInOutSoft (1 # 4) == 1 # 64 /\
   Premium.easeZoneFade (1 # 4) == 3332 # 8192).
Proof.
  intros He Heff. split_and!.
  - reflexivity.
  - intros Hout. rewrite update_transitioning_out by done. split.
    + intros Hpos. apply Js_le_false in Hpos. by rewrite Hpos.
    + intros Hle. apply Js_le_spec in Hle. by rewrite Hle.
  - intros Hticks Hobs.
    destruct (out_phase ticks (after (beginTransition a))) as [H1 H2];
      try done.
    revert H1 H2. cbn [after beginTransition]. unfold beginTransition.
    rewrite run_assign, run_assign_end. cbn [after]. fields.
    change (effectiveFadeDuration (setTransitionAlpha 1 (setTransitioningOut true a)))
      with (effectiveFadeDuration a).
    intros H1 H2. split.
    + intros Hge. apply H1. lra.
    + intros Hlt. apply H2. lra.
  - intros Hout. destruct (update_fade_in a dt r Hout) as (Hn & _ & Hta).
    rewrite Hta. unfold rampedAlpha. split_and!; [exact Hn | | |].
    + intros Hlt Hle. apply Js_lt_spec in Hlt. rewrite Hlt. cbv zeta.
      apply Js_lt_false in Hle. unfold Js.gt. by rewrite Hle.
    + intros Hlt Hgt. apply Js_lt_spec in Hlt. rewrite Hlt. cbv zeta.
      apply Js_lt_spec in Hgt. unfold Js.gt. by rewrite Hgt.
    + intros Hge. apply Js_lt_false in Hge. by rewrite Hge.
  - cbv zeta.
    destruct (premium_dissolve_step eff pdt d Heff) as (Hout & Hin & Hrest).
    split_and!; [reflexivity | exact Hout | | exact Hin | exact Hrest
                | vm_compute; reflexivity | vm_compute; reflexivity].
    intros Hdts Ht0.
    destruct (premium_out_phase eff dts (Premium.beginTransition d) Heff eq_refl)
      as [H1 H2]; [cbn [Premium.beginTransition Premium.transitionTime]; lra | exact Hdts |].
    cbn [Premium.beginTransition Premium.transitionTime] in H1, H2.
    split.
    + intros Hge. apply H1. lra.
    + intros Hlt. destruct H2 as (I1 & I2 & _); [lra | by split].
Qed.

End Dissolve.

Lemma transition_dissolve_witness :
  (notifications
     (updatesLog loaded [(1, 0); (1 # 2, 0); (1, 0); (3, 0)]
        (after (beginTransition (setOnTransitionComplete true pinkStarted)))) = 1%nat /\
   transitioningOut
     (updates loaded [(1, 0); (1 # 2, 0); (1, 0); (3, 0)]
        (after (beginTransition (setOnTransitionComplete true pinkStarted)))) = false) /\
  (snd (dissolves (17 # 10) [1; 1 # 2; 1; 3]
          (Premium.beginTransition (Premium.mkDissolve false 1 None))) = 1%nat /\
   Premium.transitioningOut
     (fst (dissolves (17 # 10) [1; 1 # 2; 1; 3]
             (Premium.beginTransition (Premium.mkDissolve false 1 None)))) = false).
Proof.
  refine (let T := transition_dissolve loaded
                     (setOnTransitionComplete true pinkStarted)
                     0 0 [(1, 0); (1 # 2, 0); (1, 0); (3, 0)]
                     (Premium.mkDissolve false 1 None) (17 # 10) 0
                     [1; 1 # 2; 1; 3] _ _ in
          conj (proj1 (proj1 (proj2 (proj2 T)) _ _) _)
               (proj1 (proj1 (proj2 (proj2 (proj2 (proj2 (proj2 (proj2 T))))))
                         _ _) _)).
  all: first [ reflexivity
             | vm_compute; reflexivity
             | vm_compute; discriminate
             | repeat constructor; vm_compute; discriminate ].
  Unshelve.
  all: vm_compute; reflexivity.
Defined.

(** C5 as stated fails: a quarter of the fade duration into a zone fade
    the zone's alpha is the eased 1/16, while a quarter of the fade
    duration into a transition-out the global alpha has gone down by
    the un-eased 1/4. *)
Lemma transition_alpha_is_not_eased :
  fadeDuration pinkStarted = 17 # 10 /\
  prefersReducedMotion pinkStarted = false /\
  (alpha <$> zones (after (update loaded (17 # 40) 0 pinkStarted)) !! "pink")
    = Some (easeInOutCubic ((0 + (17 # 40)) / (17 # 10))) /\
  easeInOutCubic ((0 + (17 # 40)) / (17 # 10)) == 1 # 16 /\
  transitionAlpha
    (after (update loaded (17 # 40) 0 (after (beginTransition pinkStarted))))
    == 1 - (1 # 4) /\
  ~ 1 - (1 # 4) == 1 - (1 # 16).
Proof.
  split_and!; try (vm_compute; reflexivity).
  vm_compute. discriminate.
Qed.

(** ** Reduced motion *)

Section ReducedMotion.

Variable ld : string -> option Image.
Implicit Types (a : Animator) (dt r : Q) (z : Zone).

(** While a reduced-motion fade is under way the alpha written is the
    elapsed fraction of the shortened fade, as it is. *)
Lemma reduced_fade_alpha a dt r z :
  prefersReducedMotion a = true ->
  transitioningOut a = false -> state a = FADING ->
  zones a !! activeKey a = Some z -> is_Some (incoming z) ->
  stateTime a + dt < 1 # 10 ->
  let a' := after (update ld dt r a) in
  state a' = FADING /\
  exists z', zones a' !! activeKey a = Some z' /\
             alpha z' == (stateTime a + dt) / (1 # 10).
Proof.
  intros Hprm Hout Hst Hz [i Hi] Hlt. cbv zeta.
  assert (He : effectiveFadeDuration a = 1 # 10).
  { unfold effectiveFadeDuration. by rewrite Hprm. }
  rewrite update_fading by done.
  destruct (faded_sched (ticked dt a)) as (Hstate & Htime & _).
  rewrite Htime, He. change (stateTime (ticked dt a)) with (stateTime a + dt).
  pose proof Hlt as Hlt'. apply Js_le_false in Hlt'. unfold Js.ge. rewrite Hlt'.
  cbn [after]. split; [by rewrite Hstate|].
  unfold faded. change (activeKey (ticked dt a)) with (activeKey a).
  change (zones (ticked dt a)) with (zones a). rewrite Hz, Hi. fields.
  rewrite lookup_insert_eq. eexists. split; [reflexivity|].
  cbn [alpha withAlpha]. unfold fadingAlpha.
  change (prefersReducedMotion (ticked dt a)) with (prefersReducedMotion a).
  change (effectiveFadeDuration (ticked dt a)) with (effectiveFadeDuration a).
  change (stateTime (ticked dt a)) with (stateTime a + dt).
  rewrite Hprm, He. cbv zeta. apply Q.min_l.
  apply Qle_shift_div_r; [reflexivity | lra].
Qed.

(** C6 (as amended).  Under reduced motion [update] fades over a fixed
    0.1 s whatever [fadeDuration] says, and the alpha it writes to the
    fading zone is the linear progress, the elapsed time over 0.1.
    Sampled at the midpoint of the shortened fade this is 1/2, which is
    also what the cubic S-curve gives there; sampled at a quarter it is
    1/4, where the S-curve gives 1/16. *)
Theorem reduced_motion_fade_is_linear a dt r z :
  prefersReducedMotion a = true ->
  transitioningOut a = false -> state a = FADING ->
  zones a !! activeKey a = Some z -> is_Some (incoming z) ->
  let a' := after (update ld dt r a) in
  effectiveFadeDuration a = 1 # 10 /\
  (1 # 10 <= stateTime a + dt -> state a' = HOLDING) /\
  (stateTime a + dt < 1 # 10 ->
     state a' = FADING /\
     exists z', zones a' !! activeKey a = Some z' /\
                alpha z' == (stateTime a + dt) / (1 # 10)) /\
  (stateTime a + dt == 1 # 20 ->
     exists z', zones a' !! activeKey a = Some z' /\
                alpha z' == 1 # 2 /\ alpha z' == easeInOutCubic (1 # 2)) /\
  (stateTime a + dt == 1 # 40 ->
     exists z', zones a' !! activeKey a = Some z' /\
                alpha z' == 1 # 4 /\ ~ alpha z' == easeInOutCubic (1 # 4)).
Proof.
  intros Hprm Hout Hst Hz Hinc. cbv zeta.
  assert (He : effectiveFadeDuration a = 1 # 10).
  { unfold effectiveFadeDuration. by rewrite Hprm. }
  split_and!.
  - exact He.
  - intros Hge. rewrite update_fading by done.
    destruct (faded_sched (ticked dt a)) as (_ & Htime & Hkey).
    rewrite Htime, Hkey, He. change (stateTime (ticked dt a)) with (stateTime a + dt).
    apply Js_le_spec in Hge. unfold Js.ge. rewrite Hge.
    destruct (faded_zone (ticked dt a) z Hz) as [v Hv]. by rewrite Hv.
  - intros Hlt. by apply (reduced_fade_alpha a dt r z).
  - intros Hmid.
    destruct (reduced_fade_alpha a dt r z) as (_ & z' & Hz' & Halpha); try done.
    { rewrite Hmid. reflexivity. }
    exists z'. rewrite Halpha, Hmid. split_and!; [done | reflexivity | reflexivity].
  - intros Hquarter.
    destruct (reduced_fade_alpha a dt r z) as (_ & z' & Hz' & Halpha); try done.
    { rewrite Hquarter. reflexivity. }
    exists z'. rewrite Halpha, Hquarter. split_and!; [done | reflexivity | discriminate].
Qed.

End ReducedMotion.

(** The two-pink engine of a user who prefers reduced motion, started. *)
Definition calmStarted : Animator :=
  after (start loaded 0 0 (mkTick 0 0 1)
    (after (setImages {[ "pink" := ["p1"; "p2"] ]} ["pink"]
              (new_Animator (mkCanvas 800 800) true)))).

Lemma reduced_motion_fade_is_linear_witness :
  exists z', zones (after (update loaded (1 # 20) 0 calmStarted))
               !! activeKey calmStarted = Some z' /\
             alpha z' == 1 # 2 /\ alpha z' == easeInOutCubic (1 # 2).
Proof.
  refine (proj1 (proj2 (proj2 (proj2
            (reduced_motion_fade_is_linear loaded calmStarted (1 # 20) 0
               (mkZone None (Some (mkImage "p1" 800 800)) 0) _ _ _ _ _)))) _).
  - reflexivity.
  - reflexivity.
  - reflexivity.
  - vm_compute. reflexivity.
  - by eexists.
  - vm_compute. reflexivity.
Defined.

(** C6 as stated fails: the alpha sampled at the midpoint of the
    shortened fade is the value of the S-curve as well. *)
Lemma midpoint_sample_is_on_the_s_curve :
  prefersReducedMotion calmStarted = true /\
  (alpha <$> zones (after (update loaded (1 # 20) 0 calmStarted)) !! "pink")
    = Some (Qmin ((0 + (1 # 20)) / (1 # 10)) 1) /\
  Qmin ((0 + (1 # 20)) / (1 # 10)) 1 == 1 # 2 /\
  easeInOutCubic (Qmin ((0 + (1 # 20)) / (1 # 10)) 1) == 1 # 2.
Proof. split_and!; vm_compute; reflexivity. Qed.

(** ** An engine without categories *)

(** An engine given an empty category list, started. *)
Definition bareStarted : Animator :=
  after (start loaded 0 0 (mkTick 0 0 1)
    (after (setImages ∅ [] (new_Animator (mkCanvas 800 800) false)))).

(** The same engine with a fade duration of one capped frame delta. *)
Definition bareQuick : Animator := setFadeDuration (1 # 10) bareStarted.

(** C8.  [update] does throw in a reachable state: on an engine whose
    category list is empty, the first fade runs to its end and
    [completeZoneFade] reads the fields of a zone that does not exist.
    The FADING branch of [update] guards the same zone with
    [zone && zone.incoming] two statements earlier; [completeZoneFade]
    does not.  Thrown out of a scheduled frame, the error also keeps
    [loop] from requesting the next frame, so the animation stalls. *)
Theorem update_throws_without_categories :
  reachable bareStarted /\
  state bareStarted = FADING /\
  categories bareStarted = [] /\
  zones bareStarted !! activeKey bareStarted = None /\
  outcome (update loaded (17 # 10) 0 bareStarted)
    = Thrown (TypeError "zone is undefined") /\
  reachable bareQuick /\
  outcome (loop loaded (mkTick 100 0 2) bareQuick)
    = Thrown (TypeError "zone is undefined") /\
  emitted (loop loaded (mkTick 100 0 2) bareQuick) = [].
Proof.
  assert (Hreach : reachable bareStarted).
  { apply (reach_step _ loaded (CallStart 0 0 (mkTick 0 0 1))).
    apply (reach_step _ loaded (CallSetImages ∅ [])).
    apply reach_new. }
  split_and!; try (vm_compute; reflexivity).
  - exact Hreach.
  - apply (reach_step _ loaded (AssignFadeDuration (1 # 10))). exact Hreach.
Qed.


(** A pink and a green zone, the pink one fading in. *)
Definition duoStarted : Animator :=
  after (start loaded 0 0 (mkTick 0 0 1)
    (after (setImages {[ "pink" := ["p1"; "p2"]; "green" := ["g1"; "g2"] ]}
              ["pink"; "green"] (new_Animator (mkCanvas 800 800) false)))).

Lemma only_active_zone_fades_witness :
  zones duoStarted !! "green" = Some emptyZone /\
  incoming emptyZone = None /\ alpha emptyZone = 0.
Proof.
  split; [vm_compute; reflexivity|].
  refine (proj2 (proj2 (only_active_zone_fades duoStarted _)) "green" emptyZone _ _).
  - apply (reach_step _ loaded (CallStart 0 0 (mkTick 0 0 1))).
    apply (reach_step _ loaded
             (CallSetImages {[ "pink" := ["p1"; "p2"]; "green" := ["g1"; "g2"] ]}
                ["pink"; "green"])).
    apply reach_new.
  - vm_compute. reflexivity.
  - vm_compute. discriminate.
Defined.

(** ** A category without images *)

Section EmptyCategory.

Variable ld : string -> option Image.
Implicit Types (a b : Animator) (c : string) (z : Zone).

Definition noImages a c : Prop := default [] (imagesByColor a !! c) = [].

(** A zone that shows nothing. *)
Definition dark z : Prop := current z = None /\ incoming z = None.

(** The zones of the categories without images are dark. *)
Definition Dark a : Prop :=
  forall c z, noImages a c -> zones a !! c = Some z -> dark z.

Lemma Dark_sched a b :
  Dark a -> zones b = zones a -> imagesByColor b = imagesByColor a -> Dark b.
Proof.
  intros Ha Hz Hi c z Hno Hl. apply (Ha c z).
  - unfold noImages in *. by rewrite <- Hi.
  - by rewrite <- Hz.
Qed.

Ltac same := eapply Dark_sched; [eassumption | reflexivity ..].

Ltac dark_step :=
  first
    [ pres_step
    | lazymatch goal with
      | |- preserves _ (assign _) => apply pres_assign; intros ? ?; same
      end ].

Lemma Dark_insert a k z :
  Dark a -> (noImages a k -> dark z) ->
  Dark (setZones (<[k := z]> (zones a)) a).
Proof.
  intros Ha Hz c z' Hno Hl. revert Hl. fields. intros Hl.
  destruct (decide (k = c)) as [<-|Hne].
  - rewrite lookup_insert_eq in Hl. injection Hl as <-. by apply Hz.
  - rewrite lookup_insert_ne in Hl by done. by apply (Ha c).
Qed.

Lemma Dark_startZoneFade a r :
  Dark a ->
  match startZoneFade ld r a with
  | mkReply (Normal _) a' _ => Dark (setStateTime 0 (setState FADING a'))
  | mkReply (Thrown _) a' _ => Dark a'
  end.
Proof.
  intros Ha.
  destruct (startZoneFade_cases ld a r) as [e u es Hu Hno|u es Hu|u z img es Hu Hz Himg].
  - same.
  - same.
  - apply (Dark_sched
             (setZones (<[activeKey a := mkZone (current z) (Some img) 0]> (zones a)) a));
      [|reflexivity|reflexivity].
    apply Dark_insert; [exact Ha|]. intros Hno. by destruct Himg.
Qed.

Lemma Dark_update dt r : preserves Dark (update ld dt r).
Proof.
  intros a Ha. destruct (transitioningOut a) eqn:Hout.
  { rewrite update_transitioning_out by done.
    destruct (Js.le _ 0); cbn [after]; same. }
  assert (Ht : Dark (ticked dt a)) by (unfold ticked; same).
  set (t := ticked dt a) in *.
  destruct (state a) eqn:Hst.
  - by rewrite update_idle.
  - rewrite update_fading by done. fold t.
    assert (Hf : Dark (faded t)).
    { unfold faded. destruct (zones t !! activeKey t) as [z|] eqn:Hz; [|done].
      destruct (incoming z); [|done].
      apply Dark_insert; [exact Ht|]. intros Hno. by apply (Ht _ z Hno). }
    destruct (Js.ge _ _); [|done].
    set (f := faded t) in *.
    destruct (zones f !! activeKey f) as [z|] eqn:Hz; cbn [after]; [|done].
    apply (Dark_sched
             (setZones (<[activeKey f := mkZone (incoming z) None 0]> (zones f)) f));
      [|reflexivity|reflexivity].
    apply Dark_insert; [exact Hf|]. intros Hno.
    destruct (Hf _ z Hno Hz) as [_ Hinc]. by split.
  - rewrite update_holding by done. fold t.
    destruct (Js.ge _ _); [|done].
    assert (Hadv : Dark (advanced t)) by (unfold advanced; same).
    pose proof (Dark_startZoneFade _ r Hadv) as Hrep.
    destruct (startZoneFade ld r (advanced t)) as [[started|e] a' es]; exact Hrep.
Qed.

Lemma Dark_loop t : preserves Dark (loop ld t).
Proof.
  unfold loop.
  repeat first [ dark_step | apply Dark_update | apply render_preserves ].
Qed.

Lemma Dark_start t0 r0 t : preserves Dark (start ld t0 r0 t).
Proof.
  intros a Ha. destruct (running a) eqn:Hrun; [by rewrite start_running|].
  rewrite start_run by done.
  assert (Hp : Dark (primed t0 a)) by (unfold primed; same).
  pose proof (Dark_startZoneFade _ r0 Hp) as Hrep.
  destruct (startZoneFade ld r0 (primed t0 a))
    as [[started|e] a' es]; cbn [after]; [|exact Hrep].
  apply Dark_loop. exact Hrep.
Qed.

Lemma Dark_reset : preserves Dark reset.
Proof.
  intros a Ha. rewrite reset_run. cbn [after].
  intros c z Hno. unfold rewound. fields. rewrite clearedZones_lookup.
  destruct (decide (c ∈ categories a)).
  - destruct (zones a !! c); [|done]. intros [= <-]. by split.
  - by apply Ha.
Qed.

Lemma Dark_setImages images cats : preserves Dark (setImages images cats).
Proof.
  intros a _. rewrite setImages_run, reset_run. cbn [after].
  intros c z _. unfold rewound. fields. rewrite clearedZones_lookup.
  unfold freshZones. rewrite fresh_lookup.
  destruct (decide (c ∈ cats)).
  - intros [= <-]. by split.
  - by rewrite lookup_empty.
Qed.

Lemma Dark_run op : preserves Dark (run ld op).
Proof.
  destruct op; cbn [run].
  - apply Dark_setImages.
  - unfold setFrame. dark_step.
  - unfold setBackground. dark_step.
  - apply Dark_reset.
  - apply Dark_start.
  - unfold stop. repeat dark_step.
  - unfold pause. repeat dark_step.
  - unfold resume. repeat first [ dark_step | apply Dark_loop ].
  - unfold beginTransition. repeat dark_step.
  - apply Dark_update.
  - apply render_preserves.
  - unfold resize. repeat first [ dark_step | apply render_preserves ].
  - apply Dark_loop.
  - dark_step.
  - dark_step.
  - dark_step.
  - dark_step.
  - dark_step.
  - dark_step.
Qed.

End EmptyCategory.

(** The layer of a category whose image list is empty never draws. *)
Lemma empty_category_draws_nothing a c z :
  reachable a -> noImages a c -> zones a !! c = Some z -> zoneLayers z = [].
Proof.
  intros Hreach Hno Hz.
  assert (Hdark : Dark a).
  { clear c z Hno Hz. induction Hreach as [cv reduced|a ld op _ IH].
    - intros c z _ Hz. cbn in Hz. by rewrite lookup_empty in Hz.
    - by apply Dark_run. }
  destruct (Hdark c z Hno Hz) as [Hcur Hinc].
  unfold zoneLayers. by rewrite Hcur, Hinc.
Qed.

(** ** Reachable engines with categories are ready *)

Section ReachableReady.

Variable ld : string -> option Image.
Implicit Types (a b : Animator).

Lemma Ready_same a b :
  Ready a ->
  imagesByColor b = imagesByColor a ->
  categories b = categories a -> currentZoneIndex b = currentZoneIndex a ->
  zones b = zones a -> usedImages b = usedImages a ->
  Ready b.
Proof.
  intros Ha Him Hc Hi Hz Hu. refine (Ready_next a b Ha Him Hc _ _ _).
  - rewrite Hi. apply (ready_cursor a Ha).
  - by rewrite Hz.
  - rewrite Hu. apply usedKept_refl.
Qed.

Ltac same := eapply Ready_same; [eassumption | reflexivity ..].

Ltac ready_step :=
  first
    [ pres_step
    | lazymatch goal with
      | |- preserves _ (assign _) => apply pres_assign; intros ? ?; same
      end ].

Lemma Ready_update dt r : preserves Ready (update ld dt r).
Proof. intros a Ha. apply (update_ready ld a dt r Ha). Qed.

Lemma Ready_loop t : preserves Ready (loop ld t).
Proof.
  unfold loop.
  repeat first [ ready_step | apply Ready_update | apply render_preserves ].
Qed.

Lemma Ready_start t0 r0 t : preserves Ready (start ld t0 r0 t).
Proof.
  intros a Ha. destruct (running a) eqn:Hrun; [by rewrite start_running|].
  rewrite start_run by done.
  assert (Hp : Ready (primed t0 a)) by (unfold primed; same).
  destruct (startZoneFade_ready ld (primed t0 a) r0 Hp)
    as (started & a' & es & -> & _ & Hready).
  cbn [after]. by apply Ready_loop.
Qed.

Lemma Ready_reset : preserves Ready reset.
Proof.
  intros a [Hc Hz Hu Hl]. rewrite reset_run. cbn [after].
  split; unfold rewound; fields; [| | |exact Hl].
  - lia.
  - intros c Hin. rewrite clearedZones_lookup, decide_True by done.
    destruct (Hz c Hin) as [z ->]. by eexists.
  - intros c Hin. rewrite clearedUsed_lookup, decide_True by done.
    destruct (Hu c Hin) as [u ->]. by eexists.
Qed.

Lemma Ready_run op :
  isSetImages op = false -> preserves Ready (run ld op).
Proof.
  intros Hop. destruct op; try discriminate Hop; cbn [run].
  - unfold setFrame. ready_step.
  - unfold setBackground. ready_step.
  - apply Ready_reset.
  - apply Ready_start.
  - unfold stop. repeat ready_step.
  - unfold pause. repeat ready_step.
  - unfold resume. repeat first [ ready_step | apply Ready_loop ].
  - unfold beginTransition. repeat ready_step.
  - apply Ready_update.
  - apply render_preserves.
  - unfold resize. repeat first [ ready_step | apply render_preserves ].
  - apply Ready_loop.
  - ready_step.
  - ready_step.
  - ready_step.
  - ready_step.
  - ready_step.
  - ready_step.
Qed.

Lemma run_keeps_categories op :
  isSetImages op = false -> keeps categories (run ld op).
Proof.
  intros Hop. destruct op; try discriminate Hop; cbn [run].
  3:{ intros a. by rewrite reset_run. }
  all: unfold setFrame, setBackground, stop, pause, resume, beginTransition,
         resize, start, loop, update, completeZoneFade, advanceToNextZone.
  all: keeps_field_with
         ltac:(first [ by apply startZoneFade_keeps | apply render_keeps ]).
Qed.

Lemma run_keeps_imagesByColor op :
  isSetImages op = false -> keeps imagesByColor (run ld op).
Proof.
  intros Hop. destruct op; try discriminate Hop; cbn [run].
  3:{ intros a. by rewrite reset_run. }
  all: unfold setFrame, setBackground, stop, pause, resume, beginTransition,
         resize, start, loop, update, completeZoneFade, advanceToNextZone.
  all: keeps_field_with
         ltac:(first [ by apply startZoneFade_keeps | apply render_keeps ]).
Qed.

End ReachableReady.

(** A reachable engine with at least one category whose image lists
    are listed is ready. *)
Lemma reachable_ready a :
  reachable a -> categories a <> [] ->
  listed (imagesByColor a) (categories a) -> Ready a.
Proof.
  induction 1 as [cv reduced|a ld op _ IH]; [done|].
  destruct (isSetImages op) eqn:Hop.
  - destruct op; try discriminate Hop. cbn [run]. intros Hne Hl.
    rewrite setImages_run, reset_run in Hne, Hl.
    apply Ready_setImages; [exact Hne | exact Hl].
  - intros Hne Hl. apply Ready_run; [done|].
    rewrite (run_keeps_categories ld op Hop a) in Hne, Hl.
    rewrite (run_keeps_imagesByColor ld op Hop a) in Hl.
    by apply IH.
Qed.

(** ** The engine reads its dictionaries at keys of their own

    [zones] and [usedImages] are built by [setImages], which gives
    every category a property in both.  The scheduler and the draw
    pass read them at the categories and at the active key only, so
    what they read is a property of the dictionary itself, never a
    member it inherits; with no category the active key is
    ["undefined"] and [zones] is empty. *)

Section OwnProperties.

Variable ld : string -> option Image.
Implicit Types (a b : Animator) (dt r : Q).

(** What [setImages] with a non-empty category list establishes,
    whatever the image lists. *)
Record Installed a : Prop := mkInstalled {
  installed_cursor : (currentZoneIndex a < length (categories a))%nat;
  installed_zones : forall c, c ∈ categories a -> is_Some (zones a !! c);
  installed_used : forall c, c ∈ categories a -> is_Some (usedImages a !! c)
}.

Lemma Installed_next a b :
  Installed a ->
  categories b = categories a ->
  (currentZoneIndex b < length (categories a))%nat ->
  (forall k, is_Some (zones a !! k) -> is_Some (zones b !! k)) ->
  usedKept a (usedImages b) ->
  Installed b.
Proof.
  intros [Hc Hz Hu] Hcat Hi Hzs Hus. split.
  - by rewrite Hcat.
  - intros c Hin. rewrite Hcat in Hin. by apply Hzs, Hz.
  - intros c Hin. rewrite Hcat in Hin. by apply Hus, Hu.
Qed.

Lemma Installed_same a b :
  Installed a ->
  categories b = categories a -> currentZoneIndex b = currentZoneIndex a ->
  zones b = zones a -> usedImages b = usedImages a ->
  Installed b.
Proof.
  intros Ha Hc Hi Hz Hu. refine (Installed_next a b Ha Hc _ _ _).
  - rewrite Hi. apply (installed_cursor a Ha).
  - by rewrite Hz.
  - rewrite Hu. apply usedKept_refl.
Qed.

Ltac same := eapply Installed_same; [eassumption | reflexivity ..].

Ltac installed_step :=
  first
    [ pres_step
    | lazymatch goal with
      | |- preserves _ (assign _) => apply pres_assign; intros ? ?; same
      end ].

Lemma installed_active a : Installed a -> activeKey a ∈ categories a.
Proof.
  intros [Hc _ _]. unfold activeKey.
  destruct (lookup_lt_is_Some_2 (categories a) (currentZoneIndex a) Hc) as [c Hl].
  rewrite Hl. cbn. by eapply list_elem_of_lookup_2.
Qed.

Lemma Installed_startZoneFade r : preserves Installed (startZoneFade ld r).
Proof.
  intros a Ha.
  destruct (startZoneFade_cases ld a r)
    as [e u es Hu Hno|u es Hu|u z img es Hu Hz Himg]; cbn [after].
  - refine (Installed_next a _ Ha _ _ _ _);
      [reflexivity | exact (installed_cursor a Ha) | done | exact Hu].
  - refine (Installed_next a _ Ha _ _ _ _);
      [reflexivity | exact (installed_cursor a Ha) | done | exact Hu].
  - refine (Installed_next a _ Ha _ _ _ _);
      [reflexivity | exact (installed_cursor a Ha)
      | fields; apply zones_kept_insert | exact Hu].
Qed.

Lemma Installed_update dt r : preserves Installed (update ld dt r).
Proof.
  intros a Ha.
  destruct (transitioningOut a) eqn:Hout.
  { rewrite update_transitioning_out by done.
    destruct (Js.le _ 0); cbn [after]; same. }
  assert (Ht : Installed (ticked dt a)) by (unfold ticked; same).
  destruct (state a) eqn:Hst.
  - by rewrite update_idle.
  - rewrite update_fading by done.
    assert (Hb : Installed (faded (ticked dt a))).
    { unfold faded. destruct (zones _ !! activeKey _) as [z|]; [|done].
      destruct (incoming z); [|done].
      refine (Installed_next _ _ Ht _ _ _ _);
        [reflexivity | exact (installed_cursor _ Ht)
        | fields; apply zones_kept_insert | fields; apply usedKept_refl]. }
    destruct (Js.ge _ _); [|done].
    destruct (installed_zones _ Hb _ (installed_active _ Hb)) as [z Hz]. rewrite Hz.
    cbn [after].
    refine (Installed_next _ _ Hb _ _ _ _);
      [reflexivity | exact (installed_cursor _ Hb)
      | unfold promoted; fields; apply zones_kept_insert
      | unfold promoted; fields; apply usedKept_refl].
  - rewrite update_holding by done.
    destruct (Js.ge _ _); [|done].
    assert (Hadv : Installed (advanced (ticked dt a))).
    { refine (Installed_next _ _ Ht _ _ _ _);
        [reflexivity | | done | unfold advanced; fields; apply usedKept_refl].
      unfold advanced, nextIndex. fields. pose proof (installed_cursor _ Ht) as Hc.
      revert Hc. unfold ticked. fields. intros Hc.
      destruct (Nat.leb_spec (length (categories a)) (S (currentZoneIndex a))); lia. }
    pose proof (Installed_startZoneFade r _ Hadv) as Hs.
    destruct (startZoneFade ld r (advanced (ticked dt a))) as [[started|e] a' es];
      cbn [after] in *; [same | done].
Qed.

Lemma Installed_loop t : preserves Installed (loop ld t).
Proof.
  unfold loop.
  repeat first [ installed_step | apply Installed_update | apply render_preserves ].
Qed.

Lemma Installed_start t0 r0 t : preserves Installed (start ld t0 r0 t).
Proof.
  unfold start.
  repeat first [ installed_step | apply Installed_startZoneFade
               | apply Installed_loop ].
Qed.

Lemma Installed_reset : preserves Installed reset.
Proof.
  intros a [Hc Hz Hu]. rewrite reset_run. cbn [after].
  split; unfold rewound; fields.
  - lia.
  - intros c Hin. rewrite clearedZones_lookup, decide_True by done.
    destruct (Hz c Hin) as [z ->]. by eexists.
  - intros c Hin. rewrite clearedUsed_lookup, decide_True by done.
    destruct (Hu c Hin) as [u ->]. by eexists.
Qed.

Lemma Installed_setImages a images cats :
  cats <> [] -> Installed (after (setImages images cats a)).
Proof.
  intros Hne. rewrite setImages_run, reset_run. cbn [after].
  split; unfold rewound; fields.
  - destruct cats; [done | cbn; lia].
  - intros c Hin. rewrite clearedZones_lookup, decide_True by done.
    unfold freshZones. rewrite fresh_lookup, decide_True by done. by eexists.
  - intros c Hin. rewrite clearedUsed_lookup, decide_True by done.
    unfold freshUsed. rewrite fresh_lookup, decide_True by done. by eexists.
Qed.

Lemma Installed_run op :
  isSetImages op = false -> preserves Installed (run ld op).
Proof.
  intros Hop. destruct op; try discriminate Hop; cbn [run].
  - unfold setFrame. installed_step.
  - unfold setBackground. installed_step.
  - apply Installed_reset.
  - apply Installed_start.
  - unfold stop. repeat installed_step.
  - unfold pause. repeat installed_step.
  - unfold resume. repeat first [ installed_step | apply Installed_loop ].
  - unfold beginTransition. repeat installed_step.
  - apply Installed_update.
  - apply render_preserves.
  - unfold resize. repeat first [ installed_step | apply render_preserves ].
  - apply Installed_loop.
  - installed_step.
  - installed_step.
  - installed_step.
  - installed_step.
  - installed_step.
  - installed_step.
Qed.

End OwnProperties.

Lemma reachable_installed a : reachable a -> categories a <> [] -> Installed a.
Proof.
  induction 1 as [cv reduced|a ld op _ IH]; [done|].
  destruct (isSetImages op) eqn:Hop.
  - destruct op; try discriminate Hop. cbn [run]. intros Hne.
    rewrite setImages_run, reset_run in Hne.
    by apply Installed_setImages.
  - intros Hne. apply Installed_run; [done|].
    rewrite (run_keeps_categories ld op Hop a) in Hne. by apply IH.
Qed.

(** In every state the engine can reach, each category has a zone and
    a used set of its own and the active key is a category; with no
    category the active key is ["undefined"] and there is no zone. *)
Lemma engine_reads_its_own_properties a :
  reachable a ->
  (forall c, c ∈ categories a ->
     is_Some (zones a !! c) /\ is_Some (usedImages a !! c)) /\
  (categories a <> [] -> activeKey a ∈ categories a) /\
  (categories a = [] -> activeKey a = "undefined" /\ zones a = ∅).
Proof.
  intros Hreach. split_and!.
  - intros c Hin.
    assert (Hne : categories a <> []) by (intros H0; rewrite H0 in Hin; by inversion Hin).
    pose proof (reachable_installed a Hreach Hne) as Ha.
    split; [by apply (installed_zones a Ha) | by apply (installed_used a Ha)].
  - intros Hne. by apply installed_active, reachable_installed.
  - intros Hnil. split.
    + unfold activeKey. by rewrite Hnil.
    + apply map_empty. intros k.
      destruct (zones a !! k) as [z|] eqn:Hz; [|done].
      pose proof (inv_dom a (reachable_Inv a Hreach) k (ex_intro _ z Hz)) as Hin.
      rewrite Hnil in Hin. by inversion Hin.
Qed.

(** With at least one category installed, and image lists that are
    listed for the categories, neither [update] nor [render] throws,
    whatever the lists hold, and the engine stays that way. *)
Lemma installed_engine_never_throws ld a dt r :
  reachable a -> categories a <> [] ->
  listed (imagesByColor a) (categories a) ->
  outcome (update ld dt r a) = Normal tt /\
  outcome (render a) = Normal tt /\
  categories (after (update ld dt r a)) <> [].
Proof.
  intros Hreach Hne Hl. pose proof (reachable_ready a Hreach Hne Hl) as Ha.
  destruct (update_ready ld a dt r Ha) as [H1 H2].
  split_and!; [exact H1 | apply render_returns |].
  pose proof (run_keeps_categories ld (CallUpdate dt r) eq_refl a) as Hk.
  cbn [run] in Hk. by rewrite Hk.
Qed.

(** ** The premium variant's curves *)

(** Under reduced motion the premium engine fades over 0.15 s; the
    midpoint sample is the linear 1/2, and here the zone curve gives
    27/32 at that point. *)
Lemma premium_reduced_midpoint :
  Premium.effectiveFadeDuration true (17 # 10) = 15 # 100 /\
  Premium.zoneAlpha true (15 # 200) (15 # 100) == 1 # 2 /\
  Premium.easeZoneFade (1 # 2) == 27 # 32 /\
  ~ Premium.zoneAlpha true (15 # 200) (15 # 100)
      == Premium.easeZoneFade (1 # 2).
Proof. split_and!; vm_compute; (reflexivity || discriminate). Qed.

(** A quarter into a dissolve the global alpha follows the quintic
    curve, a quarter into a zone fade the zone alpha follows the zone
    curve: the two policies differ in this variant as well. *)
Lemma premium_dissolve_is_not_the_zone_curve :
  Premium.dissolve (17 # 10) (17 # 40) (Premium.mkDissolve true 1 None)
    = (Premium.mkDissolve true
         (1 - Premium.easeInOutSoft (Qmin ((0 + (17 # 40)) / (17 # 10)) 1))
         (Some (0 + (17 # 40))), false, true) /\
  1 - Premium.easeInOutSoft (Qmin ((0 + (17 # 40)) / (17 # 10)) 1) == 63 # 64 /\
  Premium.zoneAlpha false (17 # 40) (17 # 10) == 3332 # 8192 /\
  ~ 1 - Premium.easeInOutSoft (1 # 4)
      == 1 - Premium.zoneAlpha false (17 # 40) (17 # 10).
Proof. split_and!; vm_compute; (reflexivity || discriminate). Qed.

(** * Further properties of the code *)

(** ** Fitting an image to the surface *)

Section Fitting.

Implicit Types (a : Animator) (img : Image) (al : Q).

(** A quotient times its divisor. *)
Lemma Qdiv_cancel x y : ~ y == 0 -> y * (x / y) == x.
Proof. intros Hy. field. exact Hy. Qed.

(** X1.  An image with positive dimensions drawn with an opacity of at
    least 0.001 on a surface of positive size is drawn once, scaled
    uniformly (its aspect ratio is kept), as large as the surface
    allows (it spans the whole width or the whole height and exceeds
    neither), and centred; the opacity set before the draw is the
    layer's opacity times the transition alpha.  The engine itself is
    left as it was. *)
Theorem drawImage_fits_and_centres a img al :
  0 < img_width img -> 0 < img_height img ->
  0 < viewWidth a -> 0 < viewHeight a ->
  1 # 1000 <= al ->
  exists x y w h,
    drawImage (Some img) al a =
      mkReply (Normal tt) a
        [Ctx (SetGlobalAlpha (al * transitionAlpha a)); Ctx (DrawImage img x y w h)] /\
    0 <= x /\ 0 <= y /\
    x + w + x == viewWidth a /\ y + h + y == viewHeight a /\
    w * img_height img == h * img_width img /\
    (w == viewWidth a \/ h == viewHeight a).
Proof.
  intros Hiw Hih HW HH Hal.
  rewrite drawImage_run by (by apply Js_lt_false).
  unfold paint, fitted. cbn [map fst snd].
  set (W := viewWidth a) in *. set (H := viewHeight a) in *.
  set (iw := img_width img) in *. set (ih := img_height img) in *.
  set (s := Qmin (W / iw) (H / ih)).
  exists ((W - iw * s) / 2), ((H - ih * s) / 2), (iw * s), (ih * s).
  split; [reflexivity|].
  assert (Hw : iw * (W / iw) == W) by (apply Qdiv_cancel; lra).
  assert (Hh : ih * (H / ih) == H) by (apply Qdiv_cancel; lra).
  assert (Hs1 : s <= W / iw) by apply Q.le_min_l.
  assert (Hs2 : s <= H / ih) by apply Q.le_min_r.
  assert (Hs : s == W / iw \/ s == H / ih).
  { unfold s. destruct (Q.min_spec (W / iw) (H / ih)) as [[_ ->]|[_ ->]];
      [by left | by right]. }
  assert (Hs0 : 0 <= s).
  { apply Q.min_glb; apply Qdiv_nonneg; lra. }
  clearbody s W H iw ih.
  set (p := W / iw) in *. set (q := H / ih) in *. clearbody p q.
  assert (Hx : (W - iw * s) / 2 == (W - iw * s) * (1 # 2)) by field.
  assert (Hy : (H - ih * s) / 2 == (H - ih * s) * (1 # 2)) by field.
  assert (HwW : iw * s <= W) by nra.
  assert (HhH : ih * s <= H) by nra.
  split_and!.
  - rewrite Hx. lra.
  - rewrite Hy. lra.
  - rewrite Hx. lra.
  - rewrite Hy. lra.
  - lra.
  - destruct Hs as [Hs|Hs]; [left | right]; rewrite Hs; assumption.
Qed.

End Fitting.

(** A landscape image on a square surface. *)
Definition landscape : Image := mkImage "p1" 1600 900.

Lemma drawImage_fits_and_centres_witness :
  exists x y w h,
    drawImage (Some landscape) 1 (new_Animator (mkCanvas 800 800) false) =
      mkReply (Normal tt) (new_Animator (mkCanvas 800 800) false)
        [Ctx (SetGlobalAlpha (1 * transitionAlpha (new_Animator (mkCanvas 800 800) false)));
         Ctx (DrawImage landscape x y w h)] /\
    0 <= x /\ 0 <= y /\
    x + w + x == viewWidth (new_Animator (mkCanvas 800 800) false) /\
    y + h + y == viewHeight (new_Animator (mkCanvas 800 800) false) /\
    w * img_height landscape == h * img_width landscape /\
    (w == viewWidth (new_Animator (mkCanvas 800 800) false) \/
     h == viewHeight (new_Animator (mkCanvas 800 800) false)).
Proof.
  apply (drawImage_fits_and_centres (new_Animator (mkCanvas 800 800) false)
           landscape 1); vm_compute; (reflexivity || discriminate).
Defined.

(** ** Resizing, pausing and stopping *)

Section Visibility.

Variable ld : string -> option Image.
Implicit Types (a : Animator).

(** The engine after the assignments of [resize]. *)
Definition resized (w h d : Q) a : Animator :=
  setDpr d (setDisplayHeight h (setDisplayWidth w
    (setCanvas (mkCanvas (Js.unsigned_long 300 (w * d))
                         (Js.unsigned_long 150 (h * d))) a))).

(** What the canvas element makes of a size assigned to it. *)
Lemma trunc_floor x : 0 <= x -> Js.trunc x = Qfloor x.
Proof. intros Hx. unfold Js.trunc. apply Qle_bool_iff in Hx. by rewrite Hx. Qed.


Lemma unsigned_long_small dflt x :
  0 <= x -> x < inject_Z (2 ^ 31) ->
  Js.unsigned_long dflt x = inject_Z (Qfloor x).
Proof.
  intros H0 H1. unfold Js.unsigned_long. rewrite trunc_floor by done.
  assert (Hf0 : (0 <= Qfloor x)%Z).
  { change 0%Z with (Qfloor 0). by apply Qfloor_resp_le. }
  assert (Hf1 : (Qfloor x < 2 ^ 31)%Z).
  { rewrite Zlt_Qlt. eapply Qle_lt_trans; [apply Qfloor_le | exact H1]. }
  rewrite Z.mod_small by lia.
  destruct (Z.leb_spec (Qfloor x) 2147483647) as [|Hgt]; [done | lia].
Qed.

Lemma unsigned_long_integer dflt x (n : Z) :
  (0 <= n <= 2147483647)%Z -> x == inject_Z n ->
  Js.unsigned_long dflt x = inject_Z n.
Proof.
  intros Hn Hx. rewrite unsigned_long_small.
  - by rewrite Hx, Qfloor_Z.
  - rewrite Hx. change 0 with (inject_Z 0). rewrite <- Zle_Qle. lia.
  - rewrite Hx, <- Zlt_Qlt. lia.
Qed.


Lemma num_or_size w d dflt : Js.num_or w (Js.unsigned_long dflt (w * d)) == w.
Proof.
  unfold Js.num_or. destruct (Qeq_bool w 0) eqn:E; [|reflexivity].
  apply Qeq_bool_iff in E.
  rewrite (unsigned_long_integer dflt (w * d) 0);
    [by rewrite E | lia | rewrite E; ring].
Qed.

Lemma resize_run a w h d :
  resize w h d a =
    mkReply (Normal tt) (resized w h d a)
      ([SetCanvasSize (w * d) (h * d); SetCanvasStyle w h;
        Ctx (SetTransform d 0 0 d 0 0)] ++
       (if running a && negb (paused a)
        then emitted (render (resized w h d a)) else []))%list.
Proof.
  unfold resize. step.
  change (setDpr d (setDisplayHeight h (setDisplayWidth w (setCanvas _ a))))
    with (resized w h d a).
  replace (running (resized w h d a)) with (running a) by reflexivity.
  replace (paused (resized w h d a)) with (paused a) by reflexivity.
  destruct (running a && negb (paused a)).
  - rewrite run_when_true.
    destruct (render_calls_only (resized w h d a)) as [es Hes].
    rewrite Hes. reflexivity.
  - reflexivity.
Qed.


(** The engine after [pause] has marked it paused and dropped the
    pending frame. *)
Definition halted a : Animator := setAnimationId None (setPaused true a).

Lemma pause_run a :
  running a = true ->
  pause a =
    mkReply (Normal tt) (halted a)
      match animationId a with
      | Some id => [CancelAnimationFrame id]
      | None => []
      end.
Proof.
  intros Hr. unfold pause. step. rewrite Hr. cbn [negb]. step. fields.
  destruct (animationId a) as [id|] eqn:Hid.
  - step. reflexivity.
  - rewrite run_ret_end. apply reply_ext. unfold halted.
    same_engine. by rewrite Hid.
Qed.

Lemma loop_idle a (t : Tick) :
  running a = false \/ paused a = true ->
  loop ld t a = mkReply (Normal tt) a [].
Proof.
  intros Hor. unfold loop. step.
  replace (negb (running a) || paused a) with true; [reflexivity|].
  destruct Hor as [-> | ->]; [reflexivity | by destruct (running a)].
Qed.

(** X3.  Pausing a running engine cancels the pending frame if there is
    one and makes the frame callback inert: a frame that still arrives
    changes nothing and draws nothing.  A [resume] that follows puts
    the engine back exactly where it was, the clocks restarted at the
    time of the resume and a new frame requested: the time spent
    paused is not animated. *)
Theorem pause_then_resume_keeps_the_animation a (t0 : Q) (t : Tick) :
  running a = true -> paused a = false ->
  now t - t0 < frameInterval a * (9 # 10) ->
  let p := after (pause a) in
  emitted (pause a) =
    match animationId a with
    | Some id => [CancelAnimationFrame id]
    | None => []
    end /\
  isRunning p = mkReply (Normal false) p [] /\
  (forall t', loop ld t' p = mkReply (Normal tt) p []) /\
  resume ld t0 t p =
    mkReply (Normal tt)
      (setAnimationId (Some (handle t)) (setLastFrameTime t0 (setLastTime t0 a)))
      [RequestAnimationFrame (handle t)].
Proof.
  intros Hr Hp Hearly. cbv zeta. rewrite (pause_run a Hr). cbn [after emitted].
  split_and!.
  - reflexivity.
  - unfold isRunning. step. unfold halted. fields. rewrite Hr. reflexivity.
  - intros t'. apply loop_idle. right. reflexivity.
  - unfold resume. step. unfold halted at 1 2. fields. rewrite Hr. cbn [negb orb].
    step. fields.
    rewrite loop_too_early; fields; [|exact Hr|reflexivity|exact Hearly].
    apply reply_ext. unfold halted. same_engine. by rewrite Hp.
Qed.

(** X4.  After [stop] nothing moves: a frame callback that was already
    queued, [pause] and [resume] all return without changing the engine
    or calling anything, [isRunning] answers false, and a [resize] sets
    the sizes without drawing.  [stop] itself cancels the pending frame
    if there is one. *)
Theorem stopped_engine_is_inert a :
  let s := after (stop a) in
  emitted (stop a) =
    match animationId a with
    | Some id => [CancelAnimationFrame id]
    | None => []
    end /\
  (forall t, loop ld t s = mkReply (Normal tt) s []) /\
  pause s = mkReply (Normal tt) s [] /\
  (forall t0 t, resume ld t0 t s = mkReply (Normal tt) s []) /\
  isRunning s = mkReply (Normal false) s [] /\
  (forall w h d,
     emitted (resize w h d s) =
       [SetCanvasSize (w * d) (h * d); SetCanvasStyle w h;
        Ctx (SetTransform d 0 0 d 0 0)]).
Proof.
  cbv zeta. rewrite stop_run. cbn [after emitted].
  set (s := setAnimationId None (setPaused false (setRunning false a))).
  assert (Hr : running s = false) by reflexivity.
  split_and!.
  - reflexivity.
  - intros t. apply loop_idle. by left.
  - unfold pause. step. rewrite Hr. reflexivity.
  - intros t0 t. unfold resume. step. rewrite Hr. reflexivity.
  - unfold isRunning. step. rewrite Hr. reflexivity.
  - intros w h d. unfold resize. step. reflexivity.
Qed.

End Visibility.

(** A running engine with two zones, shown at work. *)
Lemma duoStarted_reachable : reachable duoStarted.
Proof.
  apply (reach_step _ loaded (CallStart 0 0 (mkTick 0 0 1))).
  apply (reach_step _ loaded
           (CallSetImages {[ "pink" := ["p1"; "p2"]; "green" := ["g1"; "g2"] ]}
              ["pink"; "green"])).
  apply reach_new.
Qed.

Lemma pause_then_resume_keeps_the_animation_witness :
  let p := after (pause duoStarted) in
  emitted (pause duoStarted) =
    match animationId duoStarted with
    | Some id => [CancelAnimationFrame id]
    | None => []
    end /\
  isRunning p = mkReply (Normal false) p [] /\
  (forall t', loop loaded t' p = mkReply (Normal tt) p []) /\
  resume loaded 5 (mkTick 5 0 2) p =
    mkReply (Normal tt)
      (setAnimationId (Some 2%positive)
         (setLastFrameTime 5 (setLastTime 5 duoStarted)))
      [RequestAnimationFrame 2%positive].
Proof.
  apply (pause_then_resume_keeps_the_animation loaded duoStarted 5 (mkTick 5 0 2));
    vm_compute; reflexivity.
Defined.

(** ** One executed frame *)

Section Frames.

Variable ld : string -> option Image.
Implicit Types (a : Animator).

(** The delta [loop] hands to [update], in seconds. *)
Definition frameDelta (t : Tick) a : Q :=
  Qmin ((now t - lastTime a) / 1000) (1 # 10).

(** The engine after [loop] has taken the frame's time and counted
    it. *)
Definition clocked (t : Tick) a : Animator :=
  setFrameCount (S (frameCount a)) (setLastTime (now t) (setLastFrameTime (now t) a)).

(** The engine after the frame-rate bookkeeping. *)
Definition counted (t : Tick) a : Animator :=
  if Js.ge (now t - fpsTime a) 1000
  then setFpsTime (now t) (setFrameCount 0
         (setCurrentFps (S (frameCount a)) (clocked t a)))
  else clocked t a.

(** The observer call of the bookkeeping. *)
Definition fpsCalls (t : Tick) a : list Event :=
  if Js.ge (now t - fpsTime a) 1000 && onFpsUpdate a
  then [FpsUpdate (S (frameCount a))] else [].

(** A frame that is due, in full. *)
Lemma loop_frame a (t : Tick) :
  running a = true -> paused a = false ->
  frameInterval a * (9 # 10) <= now t - lastFrameTime a ->
  loop ld t a =
    match update ld (frameDelta t a) (rnd t) (counted t a) with
    | mkReply (Normal _) a' es =>
        mkReply (Normal tt) (setAnimationId (Some (handle t)) a')
          (fpsCalls t a ++ es ++ emitted (render a')
             ++ [RequestAnimationFrame (handle t)])%list
    | mkReply (Thrown e) a' es => mkReply (Thrown e) a' (fpsCalls t a ++ es)%list
    end.
Proof.
  intros Hr Hp Hdue. unfold loop. step. rewrite Hr, Hp. cbn [negb orb].
  apply Js_lt_false in Hdue. rewrite Hdue. step. fields.
  fold (frameDelta t a).
  change (setFrameCount (S (frameCount a)) _) with (clocked t a).
  replace (fpsTime (clocked t a)) with (fpsTime a) by reflexivity.
  assert (Htail : forall b,
    (update ld (frameDelta t a) (rnd t) ;; render ;;
     emit (RequestAnimationFrame (handle t)) ;;
     assign (setAnimationId (Some (handle t)))) b =
    match update ld (frameDelta t a) (rnd t) b with
    | mkReply (Normal _) a' es =>
        mkReply (Normal tt) (setAnimationId (Some (handle t)) a')
          (es ++ emitted (render a') ++ [RequestAnimationFrame (handle t)])%list
    | mkReply (Thrown e) a' es => mkReply (Thrown e) a' es
    end).
  { intros b. rewrite run_seq.
    destruct (update ld (frameDelta t a) (rnd t) b) as [[v|e] a' es];
      cbn [outcome after emitted]; [|reflexivity].
    rewrite run_seq. destruct (render_calls_only a') as [rs Hrs].
    rewrite Hrs. cbn [outcome after emitted]. reflexivity. }
  unfold counted, fpsCalls.
  destruct (Js.ge (now t - fpsTime a) 1000); cbn [andb].
  - step. fields.
    replace (frameCount (clocked t a)) with (S (frameCount a)) by reflexivity.
    replace (onFpsUpdate (clocked t a)) with (onFpsUpdate a) by reflexivity.
    destruct (onFpsUpdate a).
    + step. unfold logged. rewrite Htail.
      destruct (update _ _ _ _) as [[v|e] a' es]; reflexivity.
    + step. rewrite Htail.
      destruct (update _ _ _ _) as [[v|e] a' es]; reflexivity.
  - step. rewrite Htail.
    destruct (update _ _ _ _) as [[v|e] a' es]; reflexivity.
Qed.

End Frames.

(** ** Which collaborators a method calls *)

(** [emitsOnly P c]: every call [c] makes satisfies [P]. *)
Definition emitsOnly {A} (P : Event -> bool) (c : M A) : Prop :=
  forall a, forallb P (emitted (c a)) = true.

Lemma only_ret {A} P (v : A) : emitsOnly P (ret v).
Proof. by intros a. Qed.

Lemma only_this P : emitsOnly P this.
Proof. by intros a. Qed.

Lemma only_assign P f : emitsOnly P (assign f).
Proof. by intros a. Qed.

Lemma only_throw {A} P e : emitsOnly P (@throw A e).
Proof. by intros a. Qed.

Lemma only_emit P e : P e = true -> emitsOnly P (emit e).
Proof. intros He a. cbn. by rewrite He. Qed.

Lemma only_bind {A B} P (c : M A) (k : A -> M B) :
  emitsOnly P c -> (forall v, emitsOnly P (k v)) -> emitsOnly P (bind c k).
Proof.
  intros Hc Hk a. unfold bind. specialize (Hc a).
  destruct (outcome (c a)) as [v|e]; cbn [emitted]; [|done].
  by rewrite forallb_app, Hc, (Hk v).
Qed.

Lemma only_when P b (c : M unit) : emitsOnly P c -> emitsOnly P (when b c).
Proof. intros Hc. destruct b; [done | apply only_ret]. Qed.

Lemma only_for_of {X} P (xs : list X) (body : X -> M unit) :
  (forall x, emitsOnly P (body x)) -> emitsOnly P (for_of xs body).
Proof.
  intros Hb. induction xs as [|x xs IH]; cbn [for_of].
  - apply only_ret.
  - apply only_bind; [apply Hb | by intros _].
Qed.

Ltac only_step :=
  lazymatch goal with
  | |- emitsOnly _ (bind _ _) => apply only_bind; [|intros ?]
  | |- emitsOnly _ (ret _) => apply only_ret
  | |- emitsOnly _ this => apply only_this
  | |- emitsOnly _ (assign _) => apply only_assign
  | |- emitsOnly _ (throw _) => apply only_throw
  | |- emitsOnly _ (emit _) => apply only_emit; reflexivity
  | |- emitsOnly _ (when _ _) => apply only_when
  | |- emitsOnly _ (for_of _ _) => apply only_for_of; intros ?
  | |- emitsOnly _ (zoneAssign _ _) => unfold zoneAssign
  | |- emitsOnly _ (if ?b then _ else _) => destruct b
  | |- emitsOnly _ (match ?x with _ => _ end) => destruct x
  end.

(** The calls of the scheduler: a console warning or one of the two
    observers it notifies. *)
Definition isNotice (e : Event) : bool :=
  match e with
  | ConsoleWarn _ | StatusUpdate _ _ | TransitionComplete => true
  | _ => false
  end.

(** A call on the 2D context. *)
Definition isContextCall (e : Event) : bool :=
  match e with Ctx _ => true | _ => false end.

Definition isFpsUpdate (e : Event) : bool :=
  match e with FpsUpdate _ => true | _ => false end.

Lemma update_only ld P dt r :
  (forall e, isNotice e = true -> P e = true) ->
  emitsOnly P (update ld dt r).
Proof.
  intros HP.
  assert (H1 : forall m, P (ConsoleWarn m) = true) by (intros; by apply HP).
  assert (H2 : forall c n, P (StatusUpdate c n) = true) by (intros; by apply HP).
  assert (H3 : P TransitionComplete = true) by by apply HP.
  unfold update, completeZoneFade, advanceToNextZone, startZoneFade, getRandomImage.
  repeat first
    [ only_step
    | lazymatch goal with
      | |- emitsOnly _ (emit _) => apply only_emit; first [apply H1 | apply H2 | apply H3]
      end ].
Qed.

Lemma render_only P :
  (forall e, isContextCall e = true -> P e = true) -> emitsOnly P render.
Proof.
  intros HP. unfold render, drawImage.
  repeat first
    [ only_step
    | lazymatch goal with
      | |- emitsOnly _ (emit (Ctx ?op)) => apply only_emit; by apply HP
      end ].
Qed.

Section FrameProperties.

Variable ld : string -> option Image.
Implicit Types (a : Animator).

Lemma frameDelta_range a (t : Tick) :
  lastTime a <= now t -> 0 <= frameDelta t a /\ frameDelta t a <= 1 # 10.
Proof.
  intros Hmono. unfold frameDelta. split; [|apply Q.le_min_r].
  apply Q.min_glb; [|lra].
  apply Qdiv_nonneg; lra.
Qed.

(** What [update] does to the state clock. *)
Lemma update_clock a dt r :
  0 <= dt -> 0 <= stateTime a ->
  0 <= stateTime (after (update ld dt r a)) /\
  stateTime (after (update ld dt r a)) <= stateTime a + dt.
Proof.
  intros Hdt Hs.
  destruct (transitioningOut a) eqn:Hout.
  { rewrite update_transitioning_out by done.
    destruct (Js.le _ 0); cbn [after]; fields; lra. }
  destruct (state a) eqn:Hst.
  - rewrite update_idle by done. cbn [after]. unfold ticked. fields. lra.
  - rewrite update_fading by done.
    assert (Hf : stateTime (faded (ticked dt a)) = stateTime a + dt).
    { unfold faded. destruct (zones _ !! activeKey _) as [z|]; [|done].
      by destruct (incoming z). }
    destruct (Js.ge _ _).
    + destruct (zones _ !! activeKey _) as [z|]; cbn [after].
      * unfold promoted. fields. lra.
      * rewrite Hf. lra.
    + cbn [after]. rewrite Hf. lra.
  - rewrite update_holding by done.
    destruct (Js.ge _ _); [|cbn [after]; unfold ticked; fields; lra].
    destruct (startZoneFade_cases ld (advanced (ticked dt a)) r)
      as [e u es Hu Hno|u es Hu|u z img es Hu Hz Himg]; cbn [after]; fields;
      unfold advanced, ticked; fields; lra.
Qed.

(** X5.  However long the browser stalled, one frame moves the
    animation clock forward by at most 0.1 s, and never backwards as
    long as the browser's clock does not run backwards. *)
Theorem frame_advances_the_clock_by_at_most_100ms a (t : Tick) :
  0 <= stateTime a -> lastTime a <= now t ->
  0 <= stateTime (after (loop ld t a)) /\
  stateTime (after (loop ld t a)) <= stateTime a + (1 # 10).
Proof.
  intros Hs Hmono.
  destruct (running a) eqn:Hr; [|rewrite loop_idle by (by left); cbn [after]; lra].
  destruct (paused a) eqn:Hp; [rewrite loop_idle by (by right); cbn [after]; lra|].
  destruct (Qlt_le_dec (now t - lastFrameTime a) (frameInterval a * (9 # 10)))
    as [Hearly|Hdue].
  { rewrite loop_too_early by done. cbn [after]. fields. lra. }
  rewrite loop_frame by done.
  destruct (frameDelta_range a t Hmono) as [Hd0 Hd1].
  assert (Hc : stateTime (counted t a) = stateTime a).
  { unfold counted. by destruct (Js.ge _ 1000). }
  pose proof (update_clock (counted t a) (frameDelta t a) (rnd t) Hd0) as Hclock.
  rewrite Hc in Hclock. specialize (Hclock Hs).
  destruct (update ld _ _ _) as [[v|e] a' es]; cbn [after] in *; fields; lra.
Qed.

End FrameProperties.

Lemma frame_advances_the_clock_by_at_most_100ms_witness :
  0 <= stateTime (after (loop loaded (mkTick 5000 0 2) duoStarted)) /\
  stateTime (after (loop loaded (mkTick 5000 0 2) duoStarted))
    <= stateTime duoStarted + (1 # 10).
Proof.
  apply (frame_advances_the_clock_by_at_most_100ms loaded duoStarted (mkTick 5000 0 2));
    vm_compute; discriminate.
Defined.

Section FrameRate.

Variable ld : string -> option Image.
Implicit Types (a : Animator).

(** The fields of the frame-rate meter. *)
Definition meter a : nat * nat * Q := (currentFps a, frameCount a, fpsTime a).

Lemma update_keeps_meter dt r : keeps meter (update ld dt r).
Proof.
  unfold update, completeZoneFade, advanceToNextZone.
  keeps_field_with ltac:(by apply startZoneFade_keeps).
Qed.

(** How often the frame-rate observer was called. *)
Definition fpsReports (es : list Event) : list nat :=
  omap (fun e => match e with FpsUpdate n => Some n | _ => None end) es.

Lemma fpsReports_none es :
  forallb (fun e => negb (isFpsUpdate e)) es = true -> fpsReports es = [].
Proof.
  induction es as [|e es IH]; [done|]. cbn [forallb]. intros [He Hes]%andb_prop.
  unfold fpsReports. cbn [omap]. destruct e; try discriminate He; by apply IH.
Qed.

Lemma fpsReports_app es1 es2 :
  fpsReports (es1 ++ es2) = (fpsReports es1 ++ fpsReports es2)%list.
Proof. apply omap_app. Qed.

(** X6.  A frame that is due is counted.  When at least a second has
    passed since the meter was last read out, [fps] becomes the number
    of frames counted since then, this one included, the count restarts
    at 0 from the frame's time, and the frame-rate observer, if one is
    installed, is called once with that number.  Otherwise the count
    goes up by one, [fps] keeps its value and the observer is not
    called.  Neither [update] nor [render] touches the meter. *)
Theorem fps_counts_the_frames_of_the_last_second a (t : Tick) :
  running a = true -> paused a = false ->
  frameInterval a * (9 # 10) <= now t - lastFrameTime a ->
  let rep := loop ld t a in
  (1000 <= now t - fpsTime a ->
     outcome (fps (after rep)) = Normal (S (frameCount a)) /\
     frameCount (after rep) = O /\ fpsTime (after rep) = now t /\
     fpsReports (emitted rep) = if onFpsUpdate a then [S (frameCount a)] else []) /\
  (now t - fpsTime a < 1000 ->
     outcome (fps (after rep)) = Normal (currentFps a) /\
     frameCount (after rep) = S (frameCount a) /\ fpsTime (after rep) = fpsTime a /\
     fpsReports (emitted rep) = []).
Proof.
  intros Hr Hp Hdue. cbv zeta. rewrite loop_frame by done.
  pose proof (update_keeps_meter (frameDelta t a) (rnd t) (counted t a)) as Hkeep.
  pose proof (update_only ld (fun e => negb (isFpsUpdate e)) (frameDelta t a) (rnd t))
    as Hupd.
  specialize (Hupd ltac:(by intros []) (counted t a)).
  pose proof (render_only (fun e => negb (isFpsUpdate e)) ltac:(by intros [])) as Hren.
  unfold fps. unfold counted, fpsCalls in *.
  assert (Hlog : forall a' es,
    forallb (fun e => negb (isFpsUpdate e)) es = true ->
    fpsReports (es ++ emitted (render a') ++ [RequestAnimationFrame (handle t)]) = [] /\
    fpsReports es = []).
  { intros a' es Hes. rewrite !fpsReports_app.
    rewrite (fpsReports_none _ Hes), (fpsReports_none _ (Hren a')). done. }
  split.
  - intros Hsec. apply Js_le_spec in Hsec. fold (Js.ge (now t - fpsTime a) 1000) in Hsec.
    rewrite Hsec in *. cbn [andb].
    destruct (update ld _ _ _) as [[v|e] a' es]; cbn [after outcome emitted] in *;
      destruct (Hlog a' es Hupd) as [Hl1 Hl2];
      rewrite fpsReports_app, ?Hl1, ?Hl2; step; fields;
      injection Hkeep as -> -> ->; by destruct (onFpsUpdate a).
  - intros Hsec. apply Js_le_false in Hsec. fold (Js.ge (now t - fpsTime a) 1000) in Hsec.
    rewrite Hsec in *. cbn [andb].
    destruct (update ld _ _ _) as [[v|e] a' es]; cbn [after outcome emitted] in *;
      destruct (Hlog a' es Hupd) as [Hl1 Hl2];
      rewrite ?Hl1, ?Hl2; step; fields;
      by injection Hkeep as -> -> ->.
Qed.

(** X7.  [update] never draws and never schedules: every call it makes
    is a console warning, a status update or the transition-complete
    notification.  [render] calls the 2D context and nothing else, and
    neither of them asks the browser for a frame. *)
Theorem update_and_render_keep_to_their_collaborators a dt r :
  forallb isNotice (emitted (update ld dt r a)) = true /\
  forallb isContextCall (emitted (render a)) = true.
Proof.
  split.
  - by apply update_only.
  - by apply render_only.
Qed.

End FrameRate.

Lemma fps_counts_the_frames_of_the_last_second_witness :
  let rep := loop loaded (mkTick 1000 0 2) duoStarted in
  (1000 <= 1000 - fpsTime duoStarted ->
     outcome (fps (after rep)) = Normal (S (frameCount duoStarted)) /\
     frameCount (after rep) = O /\ fpsTime (after rep) = 1000 /\
     fpsReports (emitted rep)
       = if onFpsUpdate duoStarted then [S (frameCount duoStarted)] else []) /\
  (1000 - fpsTime duoStarted < 1000 ->
     outcome (fps (after rep)) = Normal (currentFps duoStarted) /\
     frameCount (after rep) = S (frameCount duoStarted) /\
     fpsTime (after rep) = fpsTime duoStarted /\
     fpsReports (emitted rep) = []).
Proof.
  apply (fps_counts_the_frames_of_the_last_second loaded duoStarted (mkTick 1000 0 2)).
  - vm_compute. reflexivity.
  - vm_compute. reflexivity.
  - vm_compute. discriminate.
Defined.

(** ** Every way a selection and a fade start can end *)

Section Outcomes.

Variable ld : string -> option Image.
Implicit Types (a : Animator) (color : option string) (r : Q).

(** The ways [getRandomImage] ends: nothing to select; a selection
    that misses the array after the window was cleared (only for a
    random value outside [0,1)); a TypeError, for lack of an image
    list or of a used set that the engine has as its own; or an image
    of the category, recorded in a window that was the old one or,
    after exhaustion, empty. *)
Lemma getRandomImage_shape a color r :
  let key := Js.key color in
  let images := default [] (imagesByColor a !! key) in
  getRandomImage color r a = mkReply (Normal None) a [] \/
  (images <> [] /\
   getRandomImage color r a =
     mkReply (Normal None) (setUsedImages (<[key := ∅]> (usedImages a)) a) []) \/
  (exists what,
     (imagesByColor a !! key = None \/ usedImages a !! key = None) /\
     getRandomImage color r a = mkReply (Thrown (TypeError what)) a []) \/
  (exists src u,
     src ∈ images /\ (u = ∅ \/ usedImages a !! key = Some u) /\
     getRandomImage color r a =
       mkReply (Normal (Some src))
         (setUsedImages (<[key := {[src]} ∪ u]> (usedImages a)) a) []).
Proof.
  cbv zeta. remember (getRandomImage color r a) as rep eqn:Hrep.
  symmetry in Hrep. revert Hrep. unfold getRandomImage. step.
  destruct (imagesByColor a !! Js.key color) as [images|] eqn:Himg.
  2:{ destruct (Js.member (Js.key color) Js.ObjectPrototype) as [m|] eqn:Hm;
        [|rewrite !(get_undefined _ _ Himg Hm); by intros <-; left].
      rewrite !(get_foreign _ _ _ Himg Hm).
      destruct m as [[|n]|]; cbn [noLength Nat.eqb]; cbv iota;
        [by intros <-; left | |].
      all: intros <-; right; right; left; eexists; split; [by left | reflexivity]. }
  rewrite !(get_own _ _ _ Himg). cbn [noLength from_option id].
  destruct images as [|im0 images']; [by intros <-; left|].
  change (length (im0 :: images') =? 0)%nat with false. cbv iota.
  assert (Hne : im0 :: images' <> []) by done.
  revert Hne. generalize (im0 :: images'). clear Himg. intros images Hne.
  destruct (Js.get (usedImages a) _) as [u0|m|] eqn:Hused.
  2:{ assert (Hnone : usedImages a !! Js.key color = None).
      { apply get_not_Own. intros v. by rewrite Hused. }
      intros <-; right; right; left; eexists; (split; [by right | reflexivity]). }
  all: set (available := filter _ images).
  all: assert (Hsub : forall src, src ∈ available -> src ∈ images)
         by (intros src Hin; by apply list_elem_of_filter in Hin as [_ ?]).
  all: destruct (length available =? 0)%nat; step.
  1,3: destruct (Js.floor_index _) as [i|]; [|intros <-; right; left; by split].
  1,2: destruct (images !! i) as [src|] eqn:Hsrc; [|intros <-; right; left; by split].
  1,2: step; cbn [usedImages setUsedImages];
       rewrite (get_own _ _ _ (lookup_insert_eq _ _ _)); step;
       intros <-; right; right; right; exists src, ∅; split_and!;
       [ by eapply list_elem_of_lookup_2 | by left
       | rewrite run_ret_end; apply reply_ext; unfold setUsedImages; cbn;
         by rewrite insert_insert_eq ].
  all: destruct (Js.floor_index _) as [i|]; [|by intros <-; left].
  all: destruct (available !! i) as [src|] eqn:Hsrc; [|by intros <-; left].
  all: step; rewrite Hused; step; intros <-.
  - apply get_Own_inv in Hused.
    right. right. right. exists src, u0. split_and!.
    + apply Hsub. by eapply list_elem_of_lookup_2.
    + by right.
    + reflexivity.
  - assert (Hnone : usedImages a !! Js.key color = None).
    { apply get_not_Own. intros v. by rewrite Hused. }
    right. right. left. eexists. split; [by right | reflexivity].
Qed.

(** [startZoneFade] in terms of the selection it makes. *)
Lemma startZoneFade_run a r :
  startZoneFade ld r a =
    match getRandomImage (categories a !! currentZoneIndex a) r a with
    | mkReply (Normal (Some src)) a' es =>
        if negb (Js.truthy_str (Some src))
        then mkReply (Normal false) a'
               (es ++ [ConsoleWarn ("No images for color: " ++ activeKey a)])%list
        else
        match ld src with
        | None =>
            mkReply (Normal false) a'
              (es ++ [ConsoleWarn ("Image not loaded: " ++ src)])%list
        | Some img =>
            match zones a' !! activeKey a with
            | None =>
                mkReply (Thrown (TypeError "this.zones[color] is undefined")) a' es
            | Some z =>
                mkReply (Normal true)
                  (setZones (<[activeKey a := mkZone (current z) (Some img) 0]>
                               (zones a')) a')
                  (es ++ if onStatusUpdate a'
                         then [StatusUpdate (categories a !! currentZoneIndex a)
                                 (currentSet a' + 1)]
                         else [])%list
            end
        end
    | mkReply (Normal None) a' es =>
        mkReply (Normal false) a'
          (es ++ [ConsoleWarn ("No images for color: " ++ activeKey a)])%list
    | mkReply (Thrown e) a' es => mkReply (Thrown e) a' es
    end.
Proof.
  unfold startZoneFade. step. rewrite run_seq.
  set (color := categories a !! currentZoneIndex a).
  change (Js.key color) with (activeKey a).
  destruct (getRandomImage color r a) as [[[src|]|e] a' es]; cbn [outcome after emitted].
  3: reflexivity.
  2: reflexivity.
  destruct (negb (Js.truthy_str (Some src))); [reflexivity|].
  destruct (ld src) as [img|]; [|reflexivity].
  step. destruct (zones a' !! activeKey a) as [z|] eqn:Hz.
  2:{ cbn. by rewrite app_nil_r. }
  unfold zoneAssign. step. fields.
  rewrite (alter_twice _ _ _ _ z Hz). cbn [withAlpha withIncoming current incoming alpha].
  destruct (onStatusUpdate a').
  - rewrite run_when_true, run_emit, run_ret_end. reflexivity.
  - rewrite run_when_false. step. rewrite run_ret_end. cbn. by rewrite app_nil_r.
Qed.

(** X8.  The edges of a selection.  For a colour that has an empty
    image list, or no list and a name that is not that of a member of
    [Object.prototype], [getRandomImage] returns null and leaves the
    engine alone; so it does for [toString], [valueOf] and
    [toLocaleString] without a list, members whose [length] is 0.  For
    another colour without a list that names a member of
    [Object.prototype], such as [constructor], it throws a TypeError:
    what it finds is no array.  For a colour that has images but no
    used set (one that is not among the categories handed to
    [setImages]) it throws a TypeError as well, on the inherited
    member it takes for the used set or, if there is none, when it
    records its choice.  Whenever it throws it leaves the engine
    alone, and it never calls anybody. *)
Theorem getRandomImage_without_images_or_window a color r :
  (plain (imagesByColor a) (Js.key color) ->
   default [] (imagesByColor a !! Js.key color) = [] ->
     getRandomImage color r a = mkReply (Normal None) a []) /\
  (imagesByColor a !! Js.key color = None ->
   Js.member (Js.key color) Js.ObjectPrototype = Some (Js.Method 0) ->
     getRandomImage color r a = mkReply (Normal None) a []) /\
  (forall m,
   imagesByColor a !! Js.key color = None ->
   Js.member (Js.key color) Js.ObjectPrototype = Some m -> m <> Js.Method 0 ->
     getRandomImage color r a =
       mkReply (Thrown (TypeError "images.filter is not a function")) a []) /\
  (imagesByColor a !! "constructor" = None ->
     getRandomImage (Some "constructor") r a =
       mkReply (Thrown (TypeError "images.filter is not a function")) a []) /\
  (default [] (imagesByColor a !! Js.key color) <> [] ->
   usedImages a !! Js.key color = None ->
   0 <= r -> r < 1 ->
     getRandomImage color r a =
       mkReply
         (Thrown (TypeError
            match Js.member (Js.key color) Js.ObjectPrototype with
            | Some _ => "used.has is not a function"
            | None => "this.usedImages[color] is undefined"
            end)) a []) /\
  emitted (getRandomImage color r a) = [].
Proof.
  assert (Hthrow : forall color m,
    imagesByColor a !! Js.key color = None ->
    Js.member (Js.key color) Js.ObjectPrototype = Some m -> m <> Js.Method 0 ->
    getRandomImage color r a =
      mkReply (Thrown (TypeError "images.filter is not a function")) a []).
  { clear color. intros color m Hnone Hm Hm0. unfold getRandomImage. step.
    rewrite !(get_foreign _ _ _ Hnone Hm).
    by destruct m as [[|n]|]. }
  split_and!.
  - intros Hplain Hnil. unfold getRandomImage. step.
    rewrite (get_plain _ _ Hplain).
    destruct (imagesByColor a !! Js.key color) as [images|]; cbn [noLength]; [|done].
    cbn in Hnil. by rewrite Hnil.
  - intros Hnone Hm. unfold getRandomImage. step.
    by rewrite (get_foreign _ _ _ Hnone Hm).
  - exact (Hthrow color).
  - intros Hnone. by apply (Hthrow (Some "constructor") (Js.Method 1)).
  - intros Hne Hnone Hr0 Hr1.
    destruct (imagesByColor a !! Js.key color) as [images|] eqn:Himg; [|done].
    cbn [from_option id] in Hne.
    unfold getRandomImage. step.
    rewrite (get_own _ _ _ Himg). cbn [noLength].
    replace (length images =? 0)%nat with false
      by (destruct images; [done | reflexivity]).
    destruct (Js.member (Js.key color) Js.ObjectPrototype) as [m|] eqn:Hm.
    { by rewrite !(get_foreign _ _ _ Hnone Hm). }
    rewrite !(get_undefined _ _ Hnone Hm).
    set (available := filter _ images).
    assert (Hall : available = images).
    { unfold available. clear.
      induction images as [|x xs IH]; [done|].
      rewrite filter_cons_True by set_solver. by rewrite IH. }
    clearbody available. rewrite Hall.
    replace (length images =? 0)%nat with false
      by (destruct images; [done | reflexivity]).
    step.
    assert (Hlen : (0 < length images)%nat) by (destruct images; [done | simpl; lia]).
    destruct (floor_index_lt r (length images) Hr0 Hr1 Hlen) as (i & Hi & Hlt).
    destruct (lookup_lt_is_Some_2 images i Hlt) as [src Hsrc].
    rewrite Hi, Hsrc. step. by rewrite (get_undefined _ _ Hnone Hm).
  - destruct (getRandomImage_shape a color r)
      as [H|[[_ H]|[(what & _ & H)|(src & u & _ & _ & H)]]]; by rewrite H.
Qed.

End Outcomes.

(** ** Where the images of a zone come from *)

(** A call or an assignment together with what the image cache answers
    while it runs. *)
Definition Step : Type := (string -> option Image) * Op.

(** A history of an engine: one operation after the other, an
    operation that threw included. *)
Fixpoint runs (steps : list Step) (a : Animator) : Animator :=
  match steps with
  | [] => a
  | s :: rest => runs rest (after (run (fst s) (snd s) a))
  end.

(** The image a zone has on screen or fading in. *)
Definition shows (z : Zone) (img : Image) : Prop :=
  current z = Some img \/ incoming z = Some img.

Section Provenance.

(** What is known of the images the cache hands out for a source. *)
Variable R : string -> Image -> Prop.

Implicit Types (a b : Animator) (z : Zone) (k : string).

Definition honest (ld : string -> option Image) : Prop :=
  forall src img, ld src = Some img -> R src img.

(** Every image in a zone was handed out for a source of the zone's
    own category, and every used set holds sources of its own category
    only. *)
Record Sourced a : Prop := mkSourced {
  sourced_zones : forall k z img,
    zones a !! k = Some z -> shows z img ->
    exists src, src ∈ default [] (imagesByColor a !! k) /\ R src img;
  sourced_used : forall k u src,
    usedImages a !! k = Some u -> src ∈ u ->
    src ∈ default [] (imagesByColor a !! k)
}.

Lemma Sourced_sched a b :
  Sourced a -> zones b = zones a -> usedImages b = usedImages a ->
  imagesByColor b = imagesByColor a -> Sourced b.
Proof.
  intros [Hz Hu] Ez Eu Ei. split.
  - intros k z img. rewrite Ez, Ei. apply Hz.
  - intros k u src. rewrite Eu, Ei. apply Hu.
Qed.

Ltac kept := eapply Sourced_sched; [eassumption | reflexivity ..].

Ltac sourced_step :=
  first
    [ pres_step
    | lazymatch goal with
      | |- preserves _ (assign _) => apply pres_assign; intros ? ?; kept
      end ].

Lemma Sourced_zone a k z :
  Sourced a ->
  (forall img, shows z img ->
     exists src, src ∈ default [] (imagesByColor a !! k) /\ R src img) ->
  Sourced (setZones (<[k := z]> (zones a)) a).
Proof.
  intros [Hz Hu] Hnew. split; fields; [|exact Hu].
  intros k' z' img. destruct (decide (k = k')) as [<-|Hne].
  - rewrite lookup_insert_eq. intros [= <-]. apply Hnew.
  - rewrite lookup_insert_ne by done. apply Hz.
Qed.

Lemma Sourced_window a k u :
  Sourced a ->
  (forall src, src ∈ u -> src ∈ default [] (imagesByColor a !! k)) ->
  Sourced (setUsedImages (<[k := u]> (usedImages a)) a).
Proof.
  intros [Hz Hu] Hnew. split; fields; [exact Hz|].
  intros k' u' src. destruct (decide (k = k')) as [<-|Hne].
  - rewrite lookup_insert_eq. intros [= <-]. apply Hnew.
  - rewrite lookup_insert_ne by done. apply Hu.
Qed.

Lemma Sourced_getRandomImage color r :
  preserves Sourced (getRandomImage color r).
Proof.
  intros a Ha.
  destruct (getRandomImage_shape a color r)
    as [H|[[_ H]|[(what & _ & H)|(src & u & Hsrc & Hu & H)]]]; rewrite H; cbn [after].
  - exact Ha.
  - apply Sourced_window; [exact Ha | set_solver].
  - exact Ha.
  - apply Sourced_window; [exact Ha|]. intros x [->%elem_of_singleton|Hx]%elem_of_union.
    + exact Hsrc.
    + destruct Hu as [->|Hu]; [set_solver|].
      by apply (sourced_used a Ha _ u).
Qed.

Section WithCache.

Variable ld : string -> option Image.
Hypothesis Hld : honest ld.

Lemma Sourced_startZoneFade r : preserves Sourced (startZoneFade ld r).
Proof using Hld.
  intros a Ha. rewrite startZoneFade_run.
  pose proof (Sourced_getRandomImage (categories a !! currentZoneIndex a) r a Ha)
    as Hsel.
  destruct (getRandomImage_shape a (categories a !! currentZoneIndex a) r)
    as [H|[[_ H]|[(what & _ & H)|(src & u & Hsrc & Hu & H)]]];
    rewrite H in *; cbn [after] in *; try exact Hsel.
  destruct (negb (Js.truthy_str (Some src))); [exact Hsel|].
  destruct (ld src) as [img|] eqn:Himg; [|exact Hsel].
  set (a' := setUsedImages _ a) in *.
  destruct (zones a' !! activeKey a) as [z|] eqn:Hz; cbn [after]; [|exact Hsel].
  apply Sourced_zone; [exact Hsel|].
  intros img' [Hcur|Hinc].
  - apply (sourced_zones a' Hsel _ z img' Hz). by left.
  - cbn in Hinc. injection Hinc as <-. exists src. split; [exact Hsrc | by apply Hld].
Qed.

Lemma Sourced_update dt r : preserves Sourced (update ld dt r).
Proof using Hld.
  intros a Ha. destruct (transitioningOut a) eqn:Hout.
  { rewrite update_transitioning_out by done.
    destruct (Js.le _ 0); cbn [after]; kept. }
  assert (Ht : Sourced (ticked dt a)) by (unfold ticked; kept).
  set (t := ticked dt a) in *.
  destruct (state a) eqn:Hst.
  - by rewrite update_idle.
  - rewrite update_fading by done. fold t.
    assert (Hf : Sourced (faded t)).
    { unfold faded. destruct (zones t !! activeKey t) as [z|] eqn:Hz; [|done].
      destruct (incoming z); [|done].
      apply Sourced_zone; [exact Ht|]. intros img Himg.
      apply (sourced_zones t Ht _ z img Hz). exact Himg. }
    destruct (Js.ge _ _); [|done].
    set (f := faded t) in *.
    destruct (zones f !! activeKey f) as [z|] eqn:Hz; cbn [after]; [|done].
    apply (Sourced_sched
             (setZones (<[activeKey f := mkZone (incoming z) None 0]> (zones f)) f));
      [|reflexivity ..].
    apply Sourced_zone; [exact Hf|]. intros img [Hcur|Hinc]; [|done].
    apply (sourced_zones f Hf _ z img Hz). by right.
  - rewrite update_holding by done. fold t.
    destruct (Js.ge _ _); [|done].
    assert (Hadv : Sourced (advanced t)) by (unfold advanced; kept).
    pose proof (Sourced_startZoneFade r _ Hadv) as Hrep.
    destruct (startZoneFade ld r (advanced t)) as [[started|e] a' es];
      cbn [after] in *; [kept | exact Hrep].
Qed.

Lemma Sourced_loop t : preserves Sourced (loop ld t).
Proof using Hld.
  unfold loop.
  repeat first [ sourced_step | apply Sourced_update | apply render_preserves ].
Qed.

Lemma Sourced_start t0 r0 t : preserves Sourced (start ld t0 r0 t).
Proof using Hld.
  unfold start.
  repeat first [ sourced_step | apply Sourced_startZoneFade | apply Sourced_loop ].
Qed.

End WithCache.

Lemma Sourced_reset : preserves Sourced reset.
Proof.
  intros a Ha. rewrite reset_run. cbn [after]. split; unfold rewound; fields.
  - intros k z img. rewrite clearedZones_lookup.
    destruct (decide (k ∈ categories a)).
    + destruct (zones a !! k); [|done]. intros [= <-] [?|?]; done.
    + apply (sourced_zones a Ha).
  - intros k u src. rewrite clearedUsed_lookup.
    destruct (decide (k ∈ categories a)).
    + destruct (usedImages a !! k); [|done]. intros [= <-]. set_solver.
    + apply (sourced_used a Ha).
Qed.

Lemma Sourced_setImages images cats : preserves Sourced (setImages images cats).
Proof.
  intros a _. rewrite setImages_run, reset_run. cbn [after].
  split; unfold rewound; fields.
  - intros k z img. rewrite clearedZones_lookup.
    unfold freshZones. rewrite fresh_lookup.
    destruct (decide (k ∈ cats)).
    + intros [= <-] [?|?]; done.
    + by rewrite lookup_empty.
  - intros k u src. rewrite clearedUsed_lookup.
    unfold freshUsed. rewrite fresh_lookup.
    destruct (decide (k ∈ cats)).
    + intros [= <-]. set_solver.
    + by rewrite lookup_empty.
Qed.

Lemma Sourced_run ld op : honest ld -> preserves Sourced (run ld op).
Proof.
  intros Hld. destruct op; cbn [run].
  - apply Sourced_setImages.
  - unfold setFrame. sourced_step.
  - unfold setBackground. sourced_step.
  - apply Sourced_reset.
  - by apply Sourced_start.
  - unfold stop. repeat sourced_step.
  - unfold pause. repeat sourced_step.
  - unfold resume. repeat first [ sourced_step | by apply Sourced_loop ].
  - unfold beginTransition. repeat sourced_step.
  - by apply Sourced_update.
  - apply render_preserves.
  - unfold resize. repeat first [ sourced_step | apply render_preserves ].
  - by apply Sourced_loop.
  - sourced_step.
  - sourced_step.
  - sourced_step.
  - sourced_step.
  - sourced_step.
  - sourced_step.
Qed.

Lemma Sourced_new cv reduced : Sourced (new_Animator cv reduced).
Proof. split; intros k ? ?; cbn; by rewrite lookup_empty. Qed.

Lemma Sourced_runs steps a :
  Forall (fun s : Step => honest (fst s)) steps -> Sourced a -> Sourced (runs steps a).
Proof.
  intros Hsteps. revert a. induction Hsteps as [|s steps Hs _ IH]; intros a Ha; [done|].
  cbn [runs]. apply IH. by apply Sourced_run.
Qed.

End Provenance.

(** X9.  Whatever is called, in whatever order, and whatever it
    throws: an image that a zone shows or fades in was handed out by
    the image cache for a source listed under the zone's own category.
    [R] is anything known of the cache's answers, for instance that the
    image handed out for a source was loaded from it. *)
Theorem zones_show_images_of_their_own_category
    (R : string -> Image -> Prop) (steps : list Step) cv reduced k z img :
  Forall (fun s : Step => forall src i, fst s src = Some i -> R src i) steps ->
  zones (runs steps (new_Animator cv reduced)) !! k = Some z ->
  shows z img ->
  exists src,
    src ∈ default [] (imagesByColor (runs steps (new_Animator cv reduced)) !! k) /\
    R src img.
Proof.
  intros Hsteps Hz Himg.
  pose proof (Sourced_runs R steps (new_Animator cv reduced) Hsteps
                (Sourced_new R cv reduced)) as Hs.
  exact (sourced_zones R _ Hs k z img Hz Himg).
Qed.

(** X10.  In every history the used set of a category holds sources of
    that category only. *)
Theorem used_sets_hold_sources_of_their_own_category
    (steps : list Step) cv reduced k u src :
  usedImages (runs steps (new_Animator cv reduced)) !! k = Some u ->
  src ∈ u ->
  src ∈ default [] (imagesByColor (runs steps (new_Animator cv reduced)) !! k).
Proof.
  intros Hu Hsrc.
  assert (Hsteps : Forall (fun s : Step => honest (fun _ _ => True) (fst s)) steps).
  { apply Forall_forall. intros s _ ? ? _. exact I. }
  pose proof (Sourced_runs (fun _ _ => True) steps (new_Animator cv reduced) Hsteps
                (Sourced_new _ cv reduced)) as Hs.
  exact (sourced_used _ _ Hs k u src Hu Hsrc).
Qed.

(** The history that leads to [duoStarted]. *)
Definition duoHistory : list Step :=
  [(loaded, CallSetImages {[ "pink" := ["p1"; "p2"]; "green" := ["g1"; "g2"] ]}
              ["pink"; "green"]);
   (loaded, CallStart 0 0 (mkTick 0 0 1))].

Lemma zones_show_images_of_their_own_category_witness :
  exists src,
    src ∈ default []
            (imagesByColor (runs duoHistory (new_Animator (mkCanvas 800 800) false))
               !! "pink") /\
    img_src (mkImage "p1" 800 800) = src.
Proof.
  apply (zones_show_images_of_their_own_category
           (fun src img => img_src img = src) duoHistory (mkCanvas 800 800) false
           "pink" (mkZone None (Some (mkImage "p1" 800 800)) 0) (mkImage "p1" 800 800)).
  - repeat constructor; by intros src i [= <-].
  - vm_compute. reflexivity.
  - right. reflexivity.
Defined.

Lemma used_sets_hold_sources_of_their_own_category_witness :
  "p1" ∈ default []
           (imagesByColor (runs duoHistory (new_Animator (mkCanvas 800 800) false))
              !! "pink").
Proof.
  apply (used_sets_hold_sources_of_their_own_category duoHistory (mkCanvas 800 800)
           false "pink" {[ "p1" ]} "p1").
  - vm_compute. reflexivity.
  - set_solver.
Defined.

(** ** Resetting an engine that runs *)

Definition isStop (op : Op) : bool :=
  match op with CallStop => true | _ => false end.

Section Frozen.

Implicit Types (a b : Animator).

(** A running engine that animates nothing. *)
Record Frozen a : Prop := mkFrozen {
  frozen_running : running a = true;
  frozen_idle : state a = IDLE;
  frozen_zones : forall k z, zones a !! k = Some z -> z = emptyZone
}.

Lemma Frozen_sched a b :
  Frozen a -> running b = running a -> state b = state a -> zones b = zones a ->
  Frozen b.
Proof. intros [H1 H2 H3] E1 E2 E3. split; by rewrite ?E1, ?E2, ?E3. Qed.

Ltac still := eapply Frozen_sched; [eassumption | reflexivity ..].

Ltac frozen_step :=
  first
    [ pres_step
    | lazymatch goal with
      | |- preserves _ (assign _) => apply pres_assign; intros ? ?; still
      end ].

Lemma Frozen_update ld dt r : preserves Frozen (update ld dt r).
Proof.
  intros a Ha. destruct (transitioningOut a) eqn:Hout.
  - rewrite update_transitioning_out by done.
    destruct (Js.le _ 0); cbn [after]; still.
  - rewrite update_idle by (done || apply Ha). cbn [after]. unfold ticked. still.
Qed.

Lemma Frozen_loop ld t : preserves Frozen (loop ld t).
Proof.
  unfold loop.
  repeat first [ frozen_step | apply Frozen_update | apply render_preserves ].
Qed.

Lemma Frozen_reset a :
  running a = true ->
  (forall k z, zones a !! k = Some z -> k ∈ categories a \/ z = emptyZone) ->
  Frozen (after (reset a)).
Proof.
  intros Hr Hdom. rewrite reset_run. cbn [after]. unfold rewound.
  split; fields; [exact Hr | reflexivity |].
  intros k z. rewrite clearedZones_lookup.
  destruct (decide (k ∈ categories a)) as [|Hout].
  - destruct (zones a !! k); [|done]. by intros [= <-].
  - intros Hz. by destruct (Hdom k z Hz).
Qed.

Lemma Frozen_setImages images cats a :
  running a = true -> Frozen (after (setImages images cats a)).
Proof.
  intros Hr. rewrite setImages_run. apply Frozen_reset; fields; [exact Hr|].
  intros k z. unfold freshZones. rewrite fresh_lookup.
  destruct (decide (k ∈ cats)); [by left|]. by rewrite lookup_empty.
Qed.

Lemma Frozen_run ld op : isStop op = false -> preserves Frozen (run ld op).
Proof.
  intros Hop. destruct op; try discriminate Hop; cbn [run].
  - intros a Ha. apply Frozen_setImages, Ha.
  - unfold setFrame. frozen_step.
  - unfold setBackground. frozen_step.
  - intros a Ha. apply Frozen_reset; [apply Ha|].
    intros k z Hz. right. by apply (frozen_zones a Ha k).
  - intros a Ha. rewrite start_running by apply Ha. exact Ha.
  - unfold pause. repeat frozen_step.
  - unfold resume. repeat first [ frozen_step | apply Frozen_loop ].
  - unfold beginTransition. repeat frozen_step.
  - apply Frozen_update.
  - apply render_preserves.
  - unfold resize. repeat first [ frozen_step | apply render_preserves ].
  - apply Frozen_loop.
  - frozen_step.
  - frozen_step.
  - frozen_step.
  - frozen_step.
  - frozen_step.
  - frozen_step.
Qed.

Lemma Frozen_runs steps a :
  Forall (fun s : Step => isStop (snd s) = false) steps ->
  Frozen a -> Frozen (runs steps a).
Proof.
  intros Hsteps. revert a. induction Hsteps as [|s steps Hs _ IH]; intros a Ha; [done|].
  cbn [runs]. apply IH. by apply Frozen_run.
Qed.

Lemma Frozen_layers a :
  Frozen a ->
  layers a =
    (match backgroundImage a with Some bg => [(bg, 1)] | None => [] end ++
     match frameImage a with Some fr => [(fr, 1)] | None => [] end)%list.
Proof.
  intros Ha. unfold layers.
  assert (Hnil : forall cats,
    concat (map (fun color =>
                   match zones a !! color with
                   | Some z => zoneLayers z
                   | None => []
                   end) cats) = []).
  { induction cats as [|c cats IH]; [done|]. cbn [map concat]. rewrite IH.
    destruct (zones a !! c) as [z|] eqn:Hz; [|done].
    by rewrite (frozen_zones a Ha c z Hz). }
  by rewrite Hnil.
Qed.

End Frozen.

(** X11.  [reset] does not stop the engine.  Called on an engine that
    runs, it leaves it running in the IDLE state with every zone
    empty, and nothing short of [stop] gets it out of there: [start]
    returns at once because the engine already runs, and frames,
    updates, pauses and resumes, new images, a new frame or background
    all leave it IDLE with empty zones, so that every frame drawn shows
    the background and the frame overlay alone. *)
Theorem reset_without_stop_halts_the_slideshow a (steps : list Step) :
  reachable a -> running a = true ->
  Forall (fun s : Step => isStop (snd s) = false) steps ->
  let b := runs steps (after (reset a)) in
  running b = true /\ state b = IDLE /\
  (forall k z, zones b !! k = Some z -> z = emptyZone) /\
  layers b =
    (match backgroundImage b with Some bg => [(bg, 1)] | None => [] end ++
     match frameImage b with Some fr => [(fr, 1)] | None => [] end)%list.
Proof.
  intros Hreach Hr Hsteps. cbv zeta.
  assert (Hb : Frozen (runs steps (after (reset a)))).
  { apply Frozen_runs; [exact Hsteps|]. apply Frozen_reset; [exact Hr|].
    intros k z Hz. left. apply (inv_dom a (reachable_Inv a Hreach)). by rewrite Hz. }
  split_and!; [apply Hb | apply Hb | apply Hb | by apply Frozen_layers].
Qed.

Lemma reset_without_stop_halts_the_slideshow_witness :
  let b := runs [(loaded, Frame (mkTick 100 0 2));
                 (loaded, CallStart 200 0 (mkTick 200 0 3))]
             (after (reset duoStarted)) in
  running b = true /\ state b = IDLE /\
  (forall k z, zones b !! k = Some z -> z = emptyZone) /\
  layers b =
    (match backgroundImage b with Some bg => [(bg, 1)] | None => [] end ++
     match frameImage b with Some fr => [(fr, 1)] | None => [] end)%list.
Proof.
  apply (reset_without_stop_halts_the_slideshow duoStarted
           [(loaded, Frame (mkTick 100 0 2));
            (loaded, CallStart 200 0 (mkTick 200 0 3))]).
  - exact duoStarted_reachable.
  - vm_compute. reflexivity.
  - repeat constructor.
Defined.

(** ** A selected image that is not loaded *)

Section FailedLoad.

Variable ld : string -> option Image.
Implicit Types (a : Animator).

Lemma truthy_nonempty src : src <> "" -> Js.truthy_str (Some src) = true.
Proof. by destruct src. Qed.

(** X12.  When the hold of a zone ends and the image selected for the
    next zone is not in the image cache, [update] logs a warning and
    enters FADING all the same, with no zone changed but the image
    marked as used.  The fade then runs its full time with nothing to
    fade, and the [update] that completes it promotes the missing
    incoming image: the zone loses the image it was showing and stays
    empty until a later fade succeeds. *)
Theorem failed_load_blanks_the_zone a dt r dt' r' images used z :
  transitioningOut a = false -> state a = HOLDING ->
  holdDuration a <= stateTime a + dt ->
  let key := activeKey (advanced (ticked dt a)) in
  imagesByColor a !! key = Some images -> images <> [] -> "" ∉ images ->
  usedImages a !! key = Some used ->
  zones a !! key = Some z -> incoming z = None ->
  (forall src, src ∈ images -> ld src = None) ->
  0 <= r -> r < 1 ->
  effectiveFadeDuration a <= dt' ->
  exists src,
    src ∈ images /\
    let first := update ld dt r a in
    let second := update ld dt' r' (after first) in
    outcome first = Normal tt /\
    emitted first = [ConsoleWarn ("Image not loaded: " ++ src)] /\
    state (after first) = FADING /\
    zones (after first) = zones a /\
    src ∈ default ∅ (usedImages (after first) !! key) /\
    outcome second = Normal tt /\
    state (after second) = HOLDING /\
    zones (after second) !! key = Some emptyZone.
Proof.
  intros Hout Hst Hhold key Himg Hne Hempty Hused Hz Hinc Hmiss Hr0 Hr1 Hfade.
  set (b := advanced (ticked dt a)) in *.
  assert (Hkey : Js.key (categories b !! currentZoneIndex b) = key) by reflexivity.
  destruct (getRandomImage_run b (categories b !! currentZoneIndex b) r images used)
    as (i & src & _ & Hsrc & Hsel); rewrite ?Hkey; try done.
  cbv zeta in Hsel. rewrite Hkey in Hsel.
  set (pool := if decide (availableOf images used = []) then images
               else availableOf images used) in *.
  set (window := if decide (availableOf images used = []) then ∅ else used) in *.
  assert (Hin : src ∈ images).
  { apply list_elem_of_lookup_2 in Hsrc. unfold pool in Hsrc.
    destruct (decide (availableOf images used = [])); [done|].
    by apply list_elem_of_filter in Hsrc as [_ ?]. }
  exists src. split; [exact Hin|]. cbv zeta.
  assert (Hfirst : update ld dt r a =
    mkReply (Normal tt)
      (setStateTime 0 (setState FADING
         (setUsedImages (<[key := {[src]} ∪ window]> (usedImages b)) b)))
      [ConsoleWarn ("Image not loaded: " ++ src)]).
  { rewrite update_holding by done.
    apply Js_le_spec in Hhold. unfold Js.ge. unfold ticked at 1. fields.
    rewrite Hhold. fold b. rewrite startZoneFade_run, Hsel.
    rewrite truthy_nonempty by (intros ->; done). cbn [negb].
    by rewrite (Hmiss src Hin). }
  rewrite Hfirst. cbn [outcome emitted after].
  set (a1 := setStateTime 0 (setState FADING _)).
  assert (Hz1 : zones a1 !! activeKey a1 = Some z) by exact Hz.
  assert (Hsecond : update ld dt' r' a1 =
    mkReply (Normal tt) (promoted (faded (ticked dt' a1)) z) []).
  { rewrite update_fading by done.
    assert (Hf : faded (ticked dt' a1) = ticked dt' a1).
    { unfold faded. change (zones (ticked dt' a1)) with (zones a1).
      change (activeKey (ticked dt' a1)) with (activeKey a1).
      by rewrite Hz1, Hinc. }
    rewrite Hf.
    change (stateTime (ticked dt' a1)) with (0 + dt').
    change (effectiveFadeDuration a1) with (effectiveFadeDuration a).
    assert (Hge : Js.ge (0 + dt') (effectiveFadeDuration a) = true).
    { apply Js_le_spec. lra. }
    rewrite Hge.
    change (zones (ticked dt' a1)) with (zones a1).
    change (activeKey (ticked dt' a1)) with (activeKey a1).
    by rewrite Hz1. }
  rewrite Hsecond. cbn [outcome after].
  split_and!; try reflexivity.
  - unfold a1. fields. rewrite lookup_insert_eq. cbn. set_solver.
  - unfold promoted. fields.
    assert (Hf : faded (ticked dt' a1) = ticked dt' a1).
    { unfold faded. change (zones (ticked dt' a1)) with (zones a1).
      change (activeKey (ticked dt' a1)) with (activeKey a1).
      by rewrite Hz1, Hinc. }
    rewrite Hf. change (activeKey (ticked dt' a1)) with key.
    rewrite lookup_insert_eq. by rewrite Hinc.
Qed.

End FailedLoad.

(** An image cache that holds nothing. *)
Definition unloaded (src : string) : option Image := None.

Lemma failed_load_blanks_the_zone_witness :
  exists src,
    src ∈ ["p1"; "p2"] /\
    let first := update unloaded (17 # 10) (1 # 2) pinkHolding in
    let second := update unloaded (17 # 10) 0 (after first) in
    outcome first = Normal tt /\
    emitted first = [ConsoleWarn ("Image not loaded: " ++ src)] /\
    state (after first) = FADING /\
    zones (after first) = zones pinkHolding /\
    src ∈ default ∅ (usedImages (after first) !! "pink") /\
    outcome second = Normal tt /\
    state (after second) = HOLDING /\
    zones (after second) !! "pink" = Some emptyZone.
Proof.
  apply (failed_load_blanks_the_zone unloaded pinkHolding (17 # 10) (1 # 2) (17 # 10) 0
           ["p1"; "p2"] {[ "p1" ]} (mkZone (Some (mkImage "p1" 800 800)) None 0)).
  - vm_compute. reflexivity.
  - vm_compute. reflexivity.
  - vm_compute. discriminate.
  - vm_compute. reflexivity.
  - discriminate.
  - set_solver.
  - vm_compute. reflexivity.
  - vm_compute. reflexivity.
  - reflexivity.
  - reflexivity.
  - vm_compute. discriminate.
  - vm_compute. reflexivity.
  - vm_compute. discriminate.
Defined.

(** ** A selected image that is loaded *)

Section LoadedImage.

Variable ld : string -> option Image.
Implicit Types (a : Animator).

(** X28.  The engine at work.  When the hold of a zone ends and the
    cache holds the images of the next category, [update] selects one
    of them (one not in the used set, unless all are), makes the image
    the cache returns for it the incoming image of the next zone with
    alpha 0, keeping what the zone shows, tells the status observer
    the category and the cycle number counted from 1, and enters
    FADING.  The [update] that completes the fade leaves that image as
    the zone's current image, with no incoming image and alpha 0, in
    state HOLDING. *)
Theorem completed_fade_shows_the_selected_image a dt r dt' r' images used z :
  transitioningOut a = false -> state a = HOLDING ->
  holdDuration a <= stateTime a + dt ->
  let b := advanced (ticked dt a) in
  let key := activeKey b in
  imagesByColor a !! key = Some images -> images <> [] -> "" ∉ images ->
  usedImages a !! key = Some used ->
  zones a !! key = Some z ->
  (forall src, src ∈ images -> is_Some (ld src)) ->
  0 <= r -> r < 1 ->
  effectiveFadeDuration a <= dt' ->
  exists src img,
    src ∈ images /\ ld src = Some img /\
    (~ exhausted images used -> src ∉ used) /\
    let first := update ld dt r a in
    let second := update ld dt' r' (after first) in
    outcome first = Normal tt /\
    emitted first =
      (if onStatusUpdate a
       then [StatusUpdate (categories b !! currentZoneIndex b) (currentSet b + 1)]
       else []) /\
    state (after first) = FADING /\ stateTime (after first) = 0 /\
    zones (after first) = <[key := mkZone (current z) (Some img) 0]> (zones a) /\
    src ∈ default ∅ (usedImages (after first) !! key) /\
    outcome second = Normal tt /\
    state (after second) = HOLDING /\
    zones (after second) !! key = Some (mkZone (Some img) None 0).
Proof.
  intros Hout Hst Hhold b key Himg Hne Hempty Hused Hz Hloaded Hr0 Hr1 Hfade.
  assert (Hkey : Js.key (categories b !! currentZoneIndex b) = key) by reflexivity.
  destruct (getRandomImage_run b (categories b !! currentZoneIndex b) r images used)
    as (i & src & _ & Hsrc & Hsel); rewrite ?Hkey; try done.
  cbv zeta in Hsel. rewrite Hkey in Hsel.
  set (pool := if decide (availableOf images used = []) then images
               else availableOf images used) in *.
  set (window := if decide (availableOf images used = []) then ∅ else used) in *.
  assert (Hin : src ∈ images /\ (~ exhausted images used -> src ∉ used)).
  { apply list_elem_of_lookup_2 in Hsrc. unfold pool in Hsrc.
    destruct (decide (availableOf images used = [])) as [Hav|Hav].
    - split; [done|]. intros Hex. destruct Hex. by apply availableOf_nil.
    - apply list_elem_of_filter in Hsrc as [? ?]. by split. }
  destruct Hin as [Hin Hfresh].
  destruct (Hloaded src Hin) as [img Hld].
  exists src, img. split_and!; [exact Hin | exact Hld | exact Hfresh |]. cbv zeta.
  set (u := <[key := {[src]} ∪ window]> (usedImages b)).
  assert (Hfirst : update ld dt r a =
    mkReply (Normal tt)
      (setStateTime 0 (setState FADING
         (setZones (<[key := mkZone (current z) (Some img) 0]> (zones a))
            (setUsedImages u b))))
      (if onStatusUpdate a
       then [StatusUpdate (categories b !! currentZoneIndex b) (currentSet b + 1)]
       else [])).
  { rewrite update_holding by done.
    apply Js_le_spec in Hhold. unfold Js.ge. unfold ticked at 1. fields.
    rewrite Hhold. fold b. rewrite startZoneFade_run, Hsel.
    rewrite truthy_nonempty by (intros ->; done). cbn [negb].
    rewrite Hld. fold u. fold key.
    replace (zones (setUsedImages u b) !! key) with (Some z) by (symmetry; exact Hz).
    replace (onStatusUpdate (setUsedImages u b)) with (onStatusUpdate a) by reflexivity.
    replace (currentSet (setUsedImages u b)) with (currentSet b) by reflexivity.
    replace (zones (setUsedImages u b)) with (zones a) by reflexivity.
    reflexivity. }
  rewrite Hfirst. cbn [outcome emitted after].
  set (a1 := setStateTime 0 (setState FADING _)).
  set (z1 := mkZone (current z) (Some img) 0).
  assert (Hz1 : zones a1 !! activeKey a1 = Some z1).
  { unfold a1. fields. change (activeKey _) with key. apply lookup_insert_eq. }
  set (t1 := ticked dt' a1).
  assert (Hzt : zones t1 !! activeKey t1 = Some z1) by exact Hz1.
  assert (Hf : faded t1 =
    setZones (<[activeKey t1 := withAlpha (fadingAlpha t1) z1]> (zones t1)) t1).
  { unfold faded. by rewrite Hzt. }
  assert (Hsecond : update ld dt' r' a1 =
    mkReply (Normal tt) (promoted (faded t1) (withAlpha (fadingAlpha t1) z1)) []).
  { rewrite update_fading by done. fold t1. rewrite Hf. fields.
    change (stateTime t1) with (0 + dt').
    change (effectiveFadeDuration a1) with (effectiveFadeDuration a).
    assert (Hge : Js.ge (0 + dt') (effectiveFadeDuration a) = true).
    { apply Js_le_spec. lra. }
    rewrite Hge.
    change (activeKey (setZones _ t1)) with (activeKey t1).
    by rewrite lookup_insert_eq. }
  rewrite Hsecond. cbn [outcome after].
  split_and!; try reflexivity.
  - unfold a1. fields. unfold u. rewrite lookup_insert_eq. cbn. set_solver.
  - unfold promoted. fields. rewrite Hf.
    change (activeKey (setZones _ t1)) with (activeKey t1).
    by rewrite lookup_insert_eq.
Qed.

End LoadedImage.

Lemma completed_fade_shows_the_selected_image_witness :
  exists src img,
    src ∈ ["p1"; "p2"] /\ loaded src = Some img /\
    (~ exhausted ["p1"; "p2"] {[ "p1" ]} -> src ∉ ({[ "p1" ]} : gset string)) /\
    let b := advanced (ticked (17 # 10) pinkHolding) in
    let first := update loaded (17 # 10) (1 # 2) pinkHolding in
    let second := update loaded (17 # 10) 0 (after first) in
    outcome first = Normal tt /\
    emitted first =
      (if onStatusUpdate pinkHolding
       then [StatusUpdate (categories b !! currentZoneIndex b) (currentSet b + 1)]
       else []) /\
    state (after first) = FADING /\ stateTime (after first) = 0 /\
    zones (after first) =
      <["pink" := mkZone (current (mkZone (Some (mkImage "p1" 800 800)) None 0))
                    (Some img) 0]> (zones pinkHolding) /\
    src ∈ default ∅ (usedImages (after first) !! "pink") /\
    outcome second = Normal tt /\
    state (after second) = HOLDING /\
    zones (after second) !! "pink" = Some (mkZone (Some img) None 0).
Proof.
  apply (completed_fade_shows_the_selected_image loaded pinkHolding (17 # 10) (1 # 2)
           (17 # 10) 0 ["p1"; "p2"] {[ "p1" ]}
           (mkZone (Some (mkImage "p1" 800 800)) None 0)).
  - vm_compute. reflexivity.
  - vm_compute. reflexivity.
  - vm_compute. discriminate.
  - vm_compute. reflexivity.
  - discriminate.
  - by intros [[=]|[[=]|?%elem_of_nil]%elem_of_cons]%elem_of_cons.
  - vm_compute. reflexivity.
  - vm_compute. reflexivity.
  - intros src _. by eexists.
  - vm_compute. discriminate.
  - vm_compute. reflexivity.
  - vm_compute. discriminate.
Defined.

(** ** Operations that return *)

(** [returnsOn P c]: on an engine that satisfies [P], [c] returns. *)
Definition returnsOn {A} (P : Animator -> Prop) (c : M A) : Prop :=
  forall a, P a -> exists v, outcome (c a) = Normal v.

Section Returning.

Context {A B : Type} (P : Animator -> Prop).

Lemma returns_ret (v : A) : returnsOn P (ret v).
Proof. intros a _. by eexists. Qed.

Lemma returns_this : returnsOn P this.
Proof. intros a _. by eexists. Qed.

Lemma returns_emit e : returnsOn P (emit e).
Proof. intros a _. by eexists. Qed.

Lemma returns_assign f : returnsOn P (assign f).
Proof. intros a _. by eexists. Qed.

Lemma returns_bind (c : M A) (k : A -> M B) :
  returnsOn P c -> preserves P c -> (forall v, returnsOn P (k v)) ->
  returnsOn P (bind c k).
Proof.
  intros Hc Hp Hk a Ha. unfold bind.
  destruct (Hc a Ha) as [v Hv]. rewrite Hv. cbn [outcome].
  apply (Hk v). by apply Hp.
Qed.

End Returning.

Lemma returns_when P b (c : M unit) : returnsOn P c -> returnsOn P (when b c).
Proof. intros Hc. destruct b; [done | apply returns_ret]. Qed.

Section NeverThrows.

Variable ld : string -> option Image.
Implicit Types (a b : Animator).

Ltac same := eapply Ready_same; [eassumption | reflexivity ..].

Ltac ready_step :=
  first
    [ pres_step
    | lazymatch goal with
      | |- preserves _ (assign _) => apply pres_assign; intros ? ?; same
      end ].

Ltac returns_step :=
  lazymatch goal with
  | |- returnsOn _ (bind _ _) => apply returns_bind; [| |intros ?]
  | |- returnsOn _ (ret _) => apply returns_ret
  | |- returnsOn _ this => apply returns_this
  | |- returnsOn _ (emit _) => apply returns_emit
  | |- returnsOn _ (assign _) => apply returns_assign
  | |- returnsOn _ (when _ _) => apply returns_when
  | |- returnsOn _ (if ?b then _ else _) => destruct b
  | |- returnsOn _ (match ?x with _ => _ end) => destruct x
  end.

Lemma update_returns dt r : returnsOn Ready (update ld dt r).
Proof. intros a Ha. exists tt. apply (update_ready ld a dt r Ha). Qed.

Lemma startZoneFade_returns r : returnsOn Ready (startZoneFade ld r).
Proof.
  intros a Ha.
  destruct (startZoneFade_ready ld a r Ha) as (started & a' & es & -> & _ & _).
  by eexists.
Qed.

Lemma startZoneFade_keeps_ready r : preserves Ready (startZoneFade ld r).
Proof.
  intros a Ha.
  by destruct (startZoneFade_ready ld a r Ha) as (started & a' & es & -> & ? & _).
Qed.

Lemma render_returnsOn P : returnsOn P render.
Proof. intros a _. exists tt. apply render_returns. Qed.

Ltac ready_leaf :=
  first [ apply Ready_update | apply startZoneFade_keeps_ready
        | apply render_preserves | apply Ready_loop ].

Lemma loop_returns t : returnsOn Ready (loop ld t).
Proof.
  unfold loop.
  repeat first [ returns_step | apply update_returns | apply render_returnsOn
               | ready_step | ready_leaf ].
Qed.

Lemma start_returns t0 r0 t : returnsOn Ready (start ld t0 r0 t).
Proof.
  unfold start.
  repeat first [ returns_step | apply startZoneFade_returns | apply loop_returns
               | ready_step | ready_leaf ].
Qed.

Lemma resume_returns t0 t : returnsOn Ready (resume ld t0 t).
Proof.
  unfold resume.
  repeat first [ returns_step | apply loop_returns | ready_step | ready_leaf ].
Qed.

Lemma for_of_returns {X} P (xs : list X) (body : X -> M unit) :
  (forall x, returnsOn P (body x)) -> (forall x, preserves P (body x)) ->
  returnsOn P (for_of xs body).
Proof.
  intros Hr Hp. induction xs as [|x xs IH]; cbn [for_of].
  - apply returns_ret.
  - apply returns_bind; [apply Hr | apply Hp | by intros _].
Qed.

Lemma run_returns op : returnsOn Ready (run ld op).
Proof.
  destruct op; cbn [run].
  - intros a _. exists tt. by rewrite setImages_run, reset_run.
  - unfold setFrame. returns_step.
  - unfold setBackground. returns_step.
  - intros a _. exists tt. by rewrite reset_run.
  - apply start_returns.
  - intros a _. exists tt. by rewrite stop_run.
  - unfold pause. repeat first [ returns_step | ready_step ].
  - apply resume_returns.
  - unfold beginTransition. repeat first [ returns_step | ready_step ].
  - apply update_returns.
  - apply render_returnsOn.
  - unfold resize.
    repeat first [ returns_step | apply render_returnsOn | ready_step ].
  - apply loop_returns.
  - returns_step.
  - returns_step.
  - returns_step.
  - returns_step.
  - returns_step.
  - returns_step.
Qed.

End NeverThrows.

(** X13.  Once [setImages] has installed at least one category, and
    image lists in which every category has a list of its own or a
    name that is not that of a member of [Object.prototype], none of
    the operations of [Op] throws: not [start], not a frame, not
    [update], [resume], [render] or [resize], whatever the lists and
    the image cache hold, whatever the order of the calls before, and
    whatever the random source and the clock return.  (The scheduler's
    own moves, called out of turn, are not among them.) *)
Theorem no_operation_throws_once_categories_are_installed ld op a :
  reachable a -> categories a <> [] ->
  listed (imagesByColor a) (categories a) ->
  outcome (run ld op a) = Normal tt.
Proof.
  intros Hreach Hne Hl.
  destruct (run_returns ld op a (reachable_ready a Hreach Hne Hl)) as [[] Hv].
  exact Hv.
Qed.

Lemma no_operation_throws_once_categories_are_installed_witness :
  outcome (run loaded (Frame (mkTick 100 0 2)) duoStarted) = Normal tt.
Proof.
  apply (no_operation_throws_once_categories_are_installed loaded
           (Frame (mkTick 100 0 2)) duoStarted).
  - exact duoStarted_reachable.
  - vm_compute. discriminate.
  - apply listed_names. vm_compute. by repeat constructor.
Defined.

(** ** Installing images *)

(** X14.  [setImages] replaces whatever the engine held: afterwards
    there is a zone for exactly the categories given, each empty, and a
    used set for exactly those categories, each empty; the image lists
    and the category list are the ones given (a category listed twice
    is no problem); the scheduler is rewound to IDLE at the first
    category of cycle 0 with the global alpha at 1.  It does not touch
    the running and paused flags, the timing, the frame or the
    background, never throws and calls nobody. *)
Theorem setImages_installs_empty_zones a images cats :
  let rep := setImages images cats a in
  outcome rep = Normal tt /\ emitted rep = [] /\
  imagesByColor (after rep) = images /\ categories (after rep) = cats /\
  (forall k, zones (after rep) !! k = if decide (k ∈ cats) then Some emptyZone else None) /\
  (forall k, usedImages (after rep) !! k = if decide (k ∈ cats) then Some ∅ else None) /\
  (state (after rep) = IDLE /\ stateTime (after rep) = 0 /\
   currentZoneIndex (after rep) = O /\ currentSet (after rep) = O /\
   transitioningOut (after rep) = false /\ transitionAlpha (after rep) = 1) /\
  (running (after rep) = running a /\ paused (after rep) = paused a /\
   fadeDuration (after rep) = fadeDuration a /\ holdDuration (after rep) = holdDuration a /\
   frameImage (after rep) = frameImage a /\ backgroundImage (after rep) = backgroundImage a).
Proof.
  cbv zeta. rewrite setImages_run, reset_run. cbn [outcome emitted after].
  unfold rewound. fields. split_and!; try reflexivity.
  - intros k. rewrite clearedZones_lookup. unfold freshZones. rewrite fresh_lookup.
    rewrite lookup_empty. by destruct (decide (k ∈ cats)).
  - intros k. rewrite clearedUsed_lookup. unfold freshUsed. rewrite fresh_lookup.
    rewrite lookup_empty. by destruct (decide (k ∈ cats)).
Qed.

(** ** The easing curve *)

Lemma cube_mono x y : 0 <= x -> x <= y -> x * x * x <= y * y * y.
Proof.
  intros Hx Hxy. assert (x * x <= y * y) by nra. assert (0 <= x * x) by nra. nra.
Qed.

(** X15.  [easeInOutCubic] starts at 0, ends at 1, passes through 1/2
    halfway, never decreases on the way, and is symmetric about the
    midpoint: the second half of a fade mirrors the first. *)
Theorem easeInOutCubic_rises_symmetrically s t :
  0 <= s -> s <= t -> t <= 1 ->
  easeInOutCubic 0 == 0 /\ easeInOutCubic (1 # 2) == 1 # 2 /\ easeInOutCubic 1 == 1 /\
  easeInOutCubic s <= easeInOutCubic t /\
  easeInOutCubic (1 - t) == 1 - easeInOutCubic t.
Proof.
  intros Hs Hst Ht.
  assert (Hhalf : forall c, c / 2 == c * (1 # 2)) by (intros; field).
  split_and!; try (vm_compute; reflexivity).
  - unfold easeInOutCubic.
    destruct (Js.lt s (1 # 2)) eqn:Ls; destruct (Js.lt t (1 # 2)) eqn:Lt;
      rewrite ?Js_lt_spec, ?Js_lt_false in *; cbn [Js.pow]; rewrite ?Hhalf.
    + pose proof (cube_mono s t Hs Hst). lra.
    + pose proof (cube_mono s (1 # 2) Hs ltac:(lra)) as H1.
      pose proof (cube_mono 0 (-2 * t + 2) ltac:(lra) ltac:(lra)) as H2.
      pose proof (cube_mono (-2 * t + 2) 1 ltac:(lra) ltac:(lra)) as H3.
      set (q := -2 * t + 2) in *. clearbody q.
      assert (E : q * (q * q) == q * q * q) by ring. rewrite E. lra.
    + lra.
    + pose proof (cube_mono (-2 * t + 2) (-2 * s + 2) ltac:(lra) ltac:(lra)) as H1.
      set (p := -2 * s + 2) in *. set (q := -2 * t + 2) in *. clearbody p q.
      assert (E : forall x, x * (x * x) == x * x * x) by (intros; ring).
      rewrite !E. lra.
  - unfold easeInOutCubic.
    destruct (Js.lt (1 - t) (1 # 2)) eqn:L1; destruct (Js.lt t (1 # 2)) eqn:L2;
      rewrite ?Js_lt_spec, ?Js_lt_false in *; cbn [Js.pow]; rewrite ?Hhalf.
    + lra.
    + ring.
    + ring.
    + assert (Et : t == 1 # 2) by lra. rewrite Et. reflexivity.
Qed.

Lemma easeInOutCubic_rises_symmetrically_witness :
  easeInOutCubic 0 == 0 /\ easeInOutCubic (1 # 2) == 1 # 2 /\ easeInOutCubic 1 == 1 /\
  easeInOutCubic (1 # 4) <= easeInOutCubic (3 # 4) /\
  easeInOutCubic (1 - (3 # 4)) == 1 - easeInOutCubic (3 # 4).
Proof.
  apply (easeInOutCubic_rises_symmetrically (1 # 4) (3 # 4)); vm_compute; discriminate.
Defined.

(** ** The cursor over many advances *)

(** [k] calls of [advanceToNextZone] in a row. *)
Fixpoint advances (k : nat) (a : Animator) : Animator :=
  match k with
  | O => a
  | S k' => after (advanceToNextZone (advances k' a))
  end.

Lemma succ_mod_wrap m n : (0 < n)%nat -> (S (m mod n) = n)%nat ->
  (S m mod n = 0 /\ S m / n = S (m / n))%nat.
Proof.
  intros Hn Hw. pose proof (Nat.div_mod_eq m n) as Hm.
  assert (E : (S m = n * S (m / n) + 0)%nat) by nia.
  split.
  - symmetry. apply (Nat.mod_unique (S m) n (S (m / n)) 0); [lia | exact E].
  - symmetry. apply (Nat.div_unique (S m) n (S (m / n)) 0); [lia | exact E].
Qed.

Lemma succ_mod_step m n : (0 < n)%nat -> (S (m mod n) < n)%nat ->
  (S m mod n = S (m mod n) /\ S m / n = m / n)%nat.
Proof.
  intros Hn Hw. pose proof (Nat.div_mod_eq m n) as Hm.
  assert (E : (S m = n * (m / n) + S (m mod n))%nat) by nia.
  split.
  - symmetry. apply (Nat.mod_unique (S m) n (m / n) (S (m mod n))); [lia | exact E].
  - symmetry. apply (Nat.div_unique (S m) n (m / n) (S (m mod n))); [lia | exact E].
Qed.

(** X16.  The cursor goes round the categories in their declared
    order: after [k] advances from index [i] it stands at
    [(i + k) mod n], where [n] is the number of categories, and the
    cycle counter has gone up by the number of times the cursor passed
    the last category, [(i + k) / n], counted modulo 1000.  The
    advances change nothing else. *)
Theorem cursor_goes_round_the_categories a k :
  (currentZoneIndex a < length (categories a))%nat ->
  (currentSet a < 1000)%nat ->
  let n := length (categories a) in
  let b := advances k a in
  currentZoneIndex b = ((currentZoneIndex a + k) mod n)%nat /\
  currentSet b = ((currentSet a + (currentZoneIndex a + k) / n) mod 1000)%nat /\
  b = setCurrentSet (currentSet b) (setCurrentZoneIndex (currentZoneIndex b) a).
Proof.
  intros Hi Hc. cbv zeta.
  set (n := length (categories a)) in *. set (i := currentZoneIndex a) in *.
  set (c := currentSet a) in *.
  assert (Hn : (0 < n)%nat) by lia.
  induction k as [|k IH].
  - cbn [advances]. rewrite !Nat.add_0_r.
    rewrite (Nat.mod_small i n) by lia. rewrite (Nat.div_small i n) by lia.
    rewrite Nat.add_0_r, (Nat.mod_small c 1000) by lia.
    split_and!; [done | done | by same_engine].
  - destruct IH as (IHi & IHc & IHb).
    cbn [advances]. set (b := advances k a) in *.
    rewrite advanceToNextZone_run. cbn [after]. fields.
    assert (Hcat : categories b = categories a) by (by rewrite IHb).
    unfold nextIndex, nextSet. rewrite Hcat. fold n. rewrite IHi, IHc.
    replace (i + S k)%nat with (S (i + k)) by lia.
    pose proof (Nat.mod_upper_bound (i + k) n ltac:(lia)) as Hlt.
    pose proof (Nat.mod_upper_bound (c + (i + k) / n) 1000 ltac:(lia)) as Hlt'.
    destruct (Nat.leb_spec n (S ((i + k) mod n))) as [Hwrap|Hstep].
    + destruct (succ_mod_wrap (i + k) n Hn ltac:(lia)) as [-> ->].
      replace (c + S ((i + k) / n))%nat with (S (c + (i + k) / n)) by lia.
      destruct (Nat.leb_spec 1000 (S ((c + (i + k) / n) mod 1000))) as [Hw|Hs].
      * destruct (succ_mod_wrap (c + (i + k) / n) 1000 ltac:(lia) ltac:(lia)) as [-> _].
        split_and!; [done | done |]. rewrite IHb. by same_engine.
      * destruct (succ_mod_step (c + (i + k) / n) 1000 ltac:(lia) ltac:(lia)) as [-> _].
        split_and!; [done | done |]. rewrite IHb. by same_engine.
    + destruct (succ_mod_step (i + k) n Hn Hstep) as [-> ->].
      split_and!; [done | done |]. rewrite IHb. by same_engine.
Qed.

Lemma cursor_goes_round_the_categories_witness :
  let b := advances 5 duoStarted in
  currentZoneIndex b = ((currentZoneIndex duoStarted + 5) mod 2)%nat /\
  currentSet b = ((currentSet duoStarted + (currentZoneIndex duoStarted + 5) / 2)
                    mod 1000)%nat /\
  b = setCurrentSet (currentSet b) (setCurrentZoneIndex (currentZoneIndex b) duoStarted).
Proof.
  apply (cursor_goes_round_the_categories duoStarted 5); vm_compute; lia.
Defined.

(** ** The premium variant's quality tiers *)

Section QualityTiers.

Import Adaptive.

(** The device memory and the core count [detectQualityTier] works
    with: 4 where the browser reports none (or 0). *)
Definition memoryOr4 (nav : Navigator) : Q :=
  match deviceMemory nav with Some m => Js.num_or m 4 | None => 4 end.

Definition coresOr4 (nav : Navigator) : nat :=
  match hardwareConcurrency nav with Some (S n) => S n | _ => 4%nat end.

(** X17.  The tier detected at start is A or B, never C.  It is A
    exactly for a Safari (a user agent that names Safari and not
    Chrome), for a device with at least 8 GB and 8 cores, and for a
    device that is not an Android one and has at least 4 GB and 4
    cores, where a figure the browser does not report counts as 4. *)
Theorem detectQualityTier_is_A_or_B nav :
  detectQualityTier nav <> TierC /\
  (detectQualityTier nav = TierA <->
     (contains "Safari" (userAgent nav) = true /\
      contains "Chrome" (userAgent nav) = false) \/
     (8 <= memoryOr4 nav /\ (8 <= coresOr4 nav)%nat) \/
     (contains "Android" (userAgent nav) = false /\
      4 <= memoryOr4 nav /\ (4 <= coresOr4 nav)%nat)).
Proof.
  unfold detectQualityTier. fold (memoryOr4 nav). fold (coresOr4 nav).
  set (m := memoryOr4 nav). set (c := coresOr4 nav).
  destruct (contains "Safari" (userAgent nav)),
           (contains "Chrome" (userAgent nav)),
           (contains "Android" (userAgent nav)); cbn [andb negb orb];
    unfold Js.ge;
    destruct (Js.le 8 m) eqn:H8; destruct (Js.le 4 m) eqn:H4;
    destruct (Js.lt m 4) eqn:L4;
    destruct (Nat.leb_spec 8 c); destruct (Nat.leb_spec 4 c);
    rewrite ?Js_le_spec, ?Js_le_false, ?Js_lt_spec, ?Js_lt_false in *;
    cbn [andb orb]; (split; [discriminate|]);
    (split; [intros ?; try discriminate; (tauto || (exfalso; lra) || (exfalso; lia))
            | intros [[? ?]|[[? ?]|(? & ? & ?)]]; try reflexivity; try discriminate;
              exfalso; (lra || lia)]).
Qed.

End QualityTiers.

Section AdaptiveQuality.

Import Adaptive.

(** The position of a tier, best first. *)
Definition tierRank (t : Tier) : nat :=
  match t with TierA => 0 | TierB => 1 | TierC => 2 end.

(** X18.  [checkAdaptiveQuality] only ever lowers the tier, by one
    step at a time, and never touches the window of frame times; with
    fewer than 30 frame times recorded it does nothing.  The observer,
    when one is installed, is called exactly when the tier changed,
    with the new tier. *)
Theorem checkAdaptiveQuality_only_downgrades q :
  let q' := fst (checkAdaptiveQuality q) in
  let calls := snd (checkAdaptiveQuality q) in
  frameTimes q' = frameTimes q /\ onQualityChange q' = onQualityChange q /\
  (tierRank (qualityTier q) <= tierRank (qualityTier q') <= S (tierRank (qualityTier q)))%nat /\
  ((length (frameTimes q) < 30)%nat -> q' = q /\ calls = []) /\
  (onQualityChange q = false -> calls = []) /\
  (onQualityChange q = true ->
     (qualityTier q' = qualityTier q -> calls = []) /\
     (qualityTier q' <> qualityTier q ->
        exists fps, calls = [QualityChange (qualityTier q') fps])).
Proof.
  cbv zeta. unfold checkAdaptiveQuality.
  destruct (Nat.ltb_spec (length (frameTimes q)) 30) as [Hfew|Hmany].
  { cbn [fst snd]. split_and!; try done; lia. }
  destruct (Qeq_bool _ 0).
  { cbn [fst snd]. split_and!; try done; lia. }
  destruct (Js.lt _ 55); destruct (Js.lt _ 45);
    destruct (qualityTier q) eqn:Ht; destruct (onQualityChange q) eqn:Ho;
    cbn [andb isTier fst snd frameTimes qualityTier onQualityChange tierRank];
    rewrite ?Ht, ?Ho; cbn [tierRank];
    (split_and!; try done; try lia;
     try (intros _; split; [discriminate | intros _; by eexists])).
Qed.

(** The sum [reduce] computes. *)
Lemma sum_frameTimes_nonneg (l : list Q) acc :
  0 <= acc -> Forall (fun x => 0 < x) l -> 0 <= foldl Qplus acc l.
Proof.
  intros Hacc Hl. revert acc Hacc. induction Hl as [|x l Hx _ IH]; intros acc Hacc.
  - exact Hacc.
  - cbn [foldl]. apply IH. lra.
Qed.

(** X19.  The thresholds of [checkAdaptiveQuality], read on the window
    itself.  With [n >= 30] frame times recorded whose sum [s] is
    positive, tier A drops to B exactly when the frames took more than
    1000/55 ms on average, that is when [55 * s > 1000 * n], and tier
    B drops to C exactly when [45 * s > 1000 * n]; tier C stays. *)
Theorem checkAdaptiveQuality_thresholds q :
  (30 <= length (frameTimes q))%nat ->
  0 < foldl Qplus 0 (frameTimes q) ->
  let n := inject_Z (Z.of_nat (length (frameTimes q))) in
  let s := foldl Qplus 0 (frameTimes q) in
  let q' := fst (checkAdaptiveQuality q) in
  (qualityTier q = TierA -> (qualityTier q' = TierB <-> 1000 * n < 55 * s)) /\
  (qualityTier q = TierA -> (qualityTier q' = TierA <-> 55 * s <= 1000 * n)) /\
  (qualityTier q = TierB -> (qualityTier q' = TierC <-> 1000 * n < 45 * s)) /\
  (qualityTier q = TierB -> (qualityTier q' = TierB <-> 45 * s <= 1000 * n)) /\
  (qualityTier q = TierC -> q' = q).
Proof.
  intros Hn Hs. cbv zeta. unfold checkAdaptiveQuality.
  set (s := foldl Qplus 0 (frameTimes q)) in *.
  set (n := inject_Z (Z.of_nat (length (frameTimes q)))).
  assert (Hn0 : 0 < n).
  { unfold n. change 0 with (inject_Z 0). rewrite <- Zlt_Qlt. lia. }
  destruct (Nat.ltb_spec (length (frameTimes q)) 30) as [Hfew|_]; [lia|].
  assert (Havg : 0 < s / n).
  { unfold Qdiv. apply Qmult_lt_0_compat; [exact Hs|]. by apply Qinv_lt_0_compat. }
  destruct (Qeq_bool (s / n) 0) eqn:Hz.
  { apply Qeq_bool_iff in Hz. lra. }
  assert (Hfps : forall c, 0 < c -> (1000 / (s / n) < c <-> 1000 * n < c * s)).
  { intros c Hc.
    assert (E : 1000 / (s / n) == 1000 * n / s) by (field; split; lra).
    rewrite E. split; intros H.
    - apply (Qmult_lt_r _ _ s Hs) in H.
      assert (E2 : 1000 * n / s * s == 1000 * n) by (field; lra).
      rewrite E2 in H. exact H.
    - apply (Qmult_lt_r _ _ s Hs).
      assert (E2 : 1000 * n / s * s == 1000 * n) by (field; lra).
      rewrite E2. exact H. }
  pose proof (Hfps 55 ltac:(lra)) as H55. pose proof (Hfps 45 ltac:(lra)) as H45.
  destruct (Js.lt (1000 / (s / n)) 55) eqn:L55;
    destruct (Js.lt (1000 / (s / n)) 45) eqn:L45;
    rewrite ?Js_lt_spec, ?Js_lt_false in *;
    destruct (qualityTier q) eqn:Ht;
    cbn [andb isTier fst qualityTier]; rewrite ?Ht;
    (split_and!; intros Hq; try discriminate Hq; try reflexivity;
     (split; intros Hx; try discriminate Hx; try reflexivity;
      first [ tauto | lra | (exfalso; tauto) | (exfalso; lra)
            | (apply H55 in L55; lra) | (apply H45 in L45; lra)
            | (exfalso; apply H55 in Hx; lra) | (exfalso; apply H45 in Hx; lra)
            | idtac ])).
Qed.

(** The window after a run of frames. *)
Definition tracked (es : list Q) (q : Quality) : Quality :=
  foldl (fun q e => trackFrameTime e q) q es.

(** X20.  The window of frame times is a sliding one: it never holds
    more than 60 entries, and after any run of frames it holds the most
    recent 60 of everything recorded, oldest first.  Recording a frame
    time changes neither the tier nor the observer. *)
Theorem frame_times_are_the_last_sixty es q :
  (length (frameTimes q) <= 60)%nat ->
  let all := (frameTimes q ++ es)%list in
  frameTimes (tracked es q) = drop (length all - 60) all /\
  (length (frameTimes (tracked es q)) <= 60)%nat /\
  qualityTier (tracked es q) = qualityTier q /\
  onQualityChange (tracked es q) = onQualityChange q.
Proof.
  intros Hlen. cbv zeta.
  assert (Hmain : frameTimes (tracked es q)
                  = drop (length (frameTimes q ++ es) - 60) (frameTimes q ++ es) /\
                  qualityTier (tracked es q) = qualityTier q /\
                  onQualityChange (tracked es q) = onQualityChange q).
  { revert q Hlen. induction es as [|e es IH]; intros q Hlen.
    - cbn [tracked foldl]. rewrite app_nil_r.
      replace (length (frameTimes q) - 60)%nat with 0%nat by lia. done.
    - cbn [tracked foldl]. fold (tracked es (trackFrameTime e q)).
      destruct (IH (trackFrameTime e q)) as (IH1 & IH2 & IH3).
      { unfold trackFrameTime. cbn [frameTimes].
        destruct (Nat.ltb_spec 60 (length (frameTimes q ++ [e]))) as [Hgt|Hle].
        - destruct (frameTimes q) as [|x l]; cbn [app tail length] in *; [lia|].
          rewrite length_app in *. cbn [length] in *. lia.
        - exact Hle. }
      rewrite IH1, IH2, IH3. split; [|done].
      unfold trackFrameTime. cbn [frameTimes].
      destruct (Nat.ltb_spec 60 (length (frameTimes q ++ [e]))) as [Hgt|Hle].
      + rewrite length_app in Hgt. cbn [length] in Hgt.
        assert (H60 : length (frameTimes q) = 60%nat) by lia.
        destruct (frameTimes q) as [|x l] eqn:El; [discriminate H60|].
        cbn [app tail]. rewrite !length_app. cbn [length]. rewrite !length_app.
        cbn [length] in *.
        replace (S (length l + S (length es)) - 60)%nat
          with (S (length l + 1 + length es - 60)) by lia.
        cbn [drop]. by rewrite <- app_assoc.
      + by rewrite <- app_assoc. }
  destruct Hmain as (H1 & H2 & H3). split_and!; try done.
  rewrite H1, length_drop. lia.
Qed.

End AdaptiveQuality.

(** Thirty frames of 20 ms each on a tier A device. *)
Definition slowFrames : Adaptive.Quality :=
  Adaptive.mkQuality (replicate 30 (20 : Q)) Adaptive.TierA true.

Lemma checkAdaptiveQuality_thresholds_witness :
  let n := inject_Z (Z.of_nat (length (Adaptive.frameTimes slowFrames))) in
  let s := foldl Qplus 0 (Adaptive.frameTimes slowFrames) in
  let q' := fst (Adaptive.checkAdaptiveQuality slowFrames) in
  (Adaptive.qualityTier slowFrames = Adaptive.TierA ->
     (Adaptive.qualityTier q' = Adaptive.TierB <-> 1000 * n < 55 * s)) /\
  (Adaptive.qualityTier slowFrames = Adaptive.TierA ->
     (Adaptive.qualityTier q' = Adaptive.TierA <-> 55 * s <= 1000 * n)) /\
  (Adaptive.qualityTier slowFrames = Adaptive.TierB ->
     (Adaptive.qualityTier q' = Adaptive.TierC <-> 1000 * n < 45 * s)) /\
  (Adaptive.qualityTier slowFrames = Adaptive.TierB ->
     (Adaptive.qualityTier q' = Adaptive.TierB <-> 45 * s <= 1000 * n)) /\
  (Adaptive.qualityTier slowFrames = Adaptive.TierC -> q' = slowFrames).
Proof.
  apply (checkAdaptiveQuality_thresholds slowFrames).
  - vm_compute. lia.
  - vm_compute. reflexivity.
Defined.

Lemma frame_times_are_the_last_sixty_witness :
  let all := (Adaptive.frameTimes slowFrames ++ replicate 40 (16 : Q))%list in
  Adaptive.frameTimes (tracked (replicate 40 (16 : Q)) slowFrames) = drop (length all - 60) all /\
  (length (Adaptive.frameTimes (tracked (replicate 40 (16 : Q)) slowFrames)) <= 60)%nat /\
  Adaptive.qualityTier (tracked (replicate 40 (16 : Q)) slowFrames) = Adaptive.qualityTier slowFrames /\
  Adaptive.onQualityChange (tracked (replicate 40 (16 : Q)) slowFrames)
    = Adaptive.onQualityChange slowFrames.
Proof.
  apply (frame_times_are_the_last_sixty (replicate 40 (16 : Q)) slowFrames).
  vm_compute. lia.
Defined.

(** ** The premium variant's opacities *)

Section PremiumOpacity.

Lemma pow_unit x n : unit_interval x -> unit_interval (Js.pow x n).
Proof.
  intros [H0 H1]. induction n as [|n IH]; [split; cbn; lra|].
  destruct n as [|n]; [by split|].
  change (Js.pow x (S (S n))) with (x * Js.pow x (S n)).
  destruct IH as [I0 I1]. set (p := Js.pow x (S n)) in *. clearbody p.
  split; nra.
Qed.

Lemma premium_easeOut_unit p : unit_interval p -> unit_interval (Premium.easeOut p).
Proof.
  intros [H0 H1]. unfold Premium.easeOut.
  destruct (pow_unit (1 - p) 3) as [P0 P1]; [split; lra|].
  split; lra.
Qed.

Lemma premium_easeInOutSoft_unit p :
  unit_interval p -> unit_interval (Premium.easeInOutSoft p).
Proof.
  intros [H0 H1]. unfold Premium.easeInOutSoft.
  destruct (Js.lt p (1 # 2)) eqn:Hlt.
  - apply Js_lt_spec in Hlt.
    assert (A2 : 0 <= p * p /\ p * p <= 1 # 4) by (split; nra).
    assert (A3 : 0 <= p * p * p /\ p * p * p <= 1 # 8) by (split; nra).
    assert (A4 : 0 <= p * p * p * p /\ p * p * p * p <= 1 # 16) by (split; nra).
    assert (A5 : 0 <= p * p * p * p * p /\ p * p * p * p * p <= 1 # 32) by (split; nra).
    assert (E : 16 * p * p * p * p * p == 16 * (p * p * p * p * p)) by ring.
    unfold unit_interval. rewrite E. split; lra.
  - apply Js_lt_false in Hlt.
    destruct (pow_unit (-2 * p + 2) 5) as [P0 P1]; [split; lra|].
    set (c := Js.pow _ 5) in *. clearbody c.
    assert (Hhalf : c / 2 == c * (1 # 2)) by field.
    unfold unit_interval. rewrite Hhalf. split; lra.
Qed.

Lemma premium_easeZoneFade_unit p :
  unit_interval p -> unit_interval (Premium.easeZoneFade p).
Proof.
  intros [H0 H1]. unfold Premium.easeZoneFade. cbv zeta.
  set (s := p * (2 - p)).
  assert (S0 : 0 <= s) by (unfold s; nra).
  assert (S1 : s <= 1) by (unfold s; nra).
  clearbody s.
  assert (0 <= s * s) by nra. assert (s * s <= 1) by nra.
  split; [nra|].
  assert (E : 1 - s * s * (3 - 2 * s) == (1 - s) * (1 - s) * (1 + 2 * s)) by ring.
  assert (0 <= (1 - s) * (1 - s) * (1 + 2 * s)) by
    (apply Qmult_le_0_compat; [nra | lra]).
  lra.
Qed.

(** X21.  In the premium variant too the opacities stay within [0,1]:
    for a positive fade duration and time that does not run
    backwards, the global alpha the dissolve computes, fading out or
    fading back in, and the alpha the FADING branch gives the active
    zone are both between 0 and 1, however large the frame delta. *)
Theorem premium_opacities_stay_in_unit_interval eff dt d reduced stateTime :
  0 < eff -> 0 <= dt -> 0 <= Premium.timeOrZero (Premium.transitionTime d) ->
  unit_interval (Premium.transitionAlpha d) -> 0 <= stateTime ->
  unit_interval (Premium.transitionAlpha (fst (fst (Premium.dissolve eff dt d)))) /\
  0 <= Premium.timeOrZero
         (Premium.transitionTime (fst (fst (Premium.dissolve eff dt d)))) /\
  unit_interval (Premium.zoneAlpha reduced stateTime eff).
Proof.
  intros Heff Hdt Htime Halpha Hstate.
  assert (Hprog : forall x, 0 <= x -> unit_interval (Qmin (x / eff) 1)).
  { intros x Hx. apply Qmin_unit. by apply Qdiv_nonneg. }
  assert (Hsum : 0 <= Premium.timeOrZero (Premium.transitionTime d) + dt) by lra.
  assert (Hz : forall v, 0 <= v -> 0 <= Premium.timeOrZero (Some v)).
  { intros v Hv. unfold Premium.timeOrZero, Js.num_or.
    destruct (Qeq_bool v 0); lra. }
  split_and!.
  - unfold Premium.dissolve.
    destruct (Premium.transitioningOut d).
    + destruct (Js.ge _ 1); cbn [fst Premium.transitionAlpha]; [split; lra|].
      destruct (premium_easeInOutSoft_unit _ (Hprog _ Hsum)). split; lra.
    + destruct (Js.lt _ 1); [|exact Halpha].
      destruct (Js.ge _ 1); cbn [fst Premium.transitionAlpha]; [split; lra|].
      apply premium_easeOut_unit, Hprog, Hsum.
  - unfold Premium.dissolve.
    destruct (Premium.transitioningOut d).
    + destruct (Js.ge _ 1); cbn [fst Premium.transitionTime]; by apply Hz.
    + destruct (Js.lt _ 1); [|exact Htime].
      destruct (Js.ge _ 1); cbn [fst Premium.transitionTime]; by apply Hz.
  - unfold Premium.zoneAlpha. cbv zeta. destruct reduced.
    + by apply Hprog.
    + by apply premium_easeZoneFade_unit, Hprog.
Qed.

End PremiumOpacity.

Lemma premium_opacities_stay_in_unit_interval_witness :
  unit_interval
    (Premium.transitionAlpha
       (fst (fst (Premium.dissolve (17 # 10) (1 # 10) (Premium.mkDissolve true 1 None))))) /\
  0 <= Premium.timeOrZero
         (Premium.transitionTime
            (fst (fst (Premium.dissolve (17 # 10) (1 # 10)
                         (Premium.mkDissolve true 1 None))))) /\
  unit_interval (Premium.zoneAlpha false (1 # 2) (17 # 10)).
Proof.
  apply (premium_opacities_stay_in_unit_interval (17 # 10) (1 # 10)
           (Premium.mkDissolve true 1 None) false (1 # 2)).
  - vm_compute. reflexivity.
  - vm_compute. discriminate.
  - vm_compute. discriminate.
  - split; vm_compute; discriminate.
  - vm_compute. discriminate.
Defined.

(** ** The image cache *)

Section ImageCache.

Import Loader.

Implicit Types (l : ImageLoader) (src : string).

Lemma map_get_set {V} (m : JsMap V) k v k' :
  map_get (map_set m k v) k' = if decide (k = k') then Some v else map_get m k'.
Proof.
  induction m as [|[k0 v0] m IH]; cbn [map_set map_get].
  - done.
  - destruct (decide (k0 = k)) as [->|Hne]; cbn [map_get].
    + by destruct (decide (k = k')).
    + rewrite IH. destruct (decide (k0 = k')) as [->|]; [|done].
      by rewrite decide_False by done.
Qed.

Lemma has_get l src : has l src = true <-> is_Some (get l src).
Proof.
  unfold has, get, map_has.
  destruct (map_get (bitmapCache l) src); cbn [orb]; [by split; eauto|].
  destruct (map_get (cache l) src); split; (done || eauto || by intros [? ?]).
Qed.

Lemma has_get_false l src : has l src = false <-> get l src = None.
Proof.
  unfold has, get, map_has.
  destruct (map_get (bitmapCache l) src); cbn [orb]; [by split|].
  by destruct (map_get (cache l) src).
Qed.

(** The first loop of [preloadAll], from any point on. *)
Lemma gather_spec l sources g :
  toLoad (gather l sources g) =
    (toLoad g ++ filter (fun src => has l src = false) sources)%list /\
  loaded (gather l sources g) =
    (loaded g + length (filter (fun src => has l src = true) sources))%nat /\
  (forall src,
     map_get (results (gather l sources g)) src =
       if decide (src ∈ sources /\ has l src = true)
       then get l src else map_get (results g) src).
Proof.
  revert g. induction sources as [|s sources IH]; intros g; cbn [gather].
  - rewrite app_nil_r, Nat.add_0_r. split_and!; try done.
    all: intros src; rewrite decide_False; [done|]; intros [H%elem_of_nil _]; done.
  - specialize (IH
      match map_get (bitmapCache l) s with
      | Some bitmap => mkGathered (map_set (results g) s bitmap) (S (loaded g)) (toLoad g)
      | None =>
          match map_get (cache l) s with
          | Some img => mkGathered (map_set (results g) s img) (S (loaded g)) (toLoad g)
          | None => mkGathered (results g) (loaded g) (toLoad g ++ [s])
          end
      end).
    destruct IH as (IH1 & IH2 & IH3). rewrite IH1, IH2. clear IH1 IH2.
    assert (Hcase :
      (has l s = true /\ exists v, get l s = Some v /\
         match map_get (bitmapCache l) s with
         | Some bitmap =>
             mkGathered (map_set (results g) s bitmap) (S (loaded g)) (toLoad g)
         | None =>
             match map_get (cache l) s with
             | Some img =>
                 mkGathered (map_set (results g) s img) (S (loaded g)) (toLoad g)
             | None => mkGathered (results g) (loaded g) (toLoad g ++ [s])
             end
         end = mkGathered (map_set (results g) s v) (S (loaded g)) (toLoad g)) \/
      (has l s = false /\ get l s = None /\
         match map_get (bitmapCache l) s with
         | Some bitmap =>
             mkGathered (map_set (results g) s bitmap) (S (loaded g)) (toLoad g)
         | None =>
             match map_get (cache l) s with
             | Some img =>
                 mkGathered (map_set (results g) s img) (S (loaded g)) (toLoad g)
             | None => mkGathered (results g) (loaded g) (toLoad g ++ [s])
             end
         end = mkGathered (results g) (loaded g) (toLoad g ++ [s]))).
    { unfold has, get, map_has.
      destruct (map_get (bitmapCache l) s) as [b|]; [left; by eauto|].
      destruct (map_get (cache l) s) as [i|]; [left; by eauto | right; done]. }
    destruct Hcase as [(Hhas & v & Hget & Heq)|(Hhas & Hget & Heq)];
      rewrite Heq in *; clear Heq; cbn [toLoad loaded results] in *.
    + rewrite filter_cons_False by (by rewrite Hhas).
      rewrite filter_cons_True by done. cbn [length].
      split_and!; [done | lia |].
      intros src. rewrite IH3, map_get_set.
      destruct (decide (src ∈ sources /\ has l src = true)) as [[Hin Hs]|Hno].
      * rewrite decide_True; [done|]. split; [by apply list_elem_of_further | done].
      * destruct (decide (s = src)) as [->|Hne].
        -- rewrite decide_True; [done|]. split; [apply list_elem_of_here | done].
        -- rewrite decide_False; [done|]. intros [Hin Hs]. apply Hno.
           apply elem_of_cons in Hin as [->|Hin]; done.
    + rewrite filter_cons_True by done.
      rewrite filter_cons_False by (by rewrite Hhas).
      rewrite <- app_assoc. split_and!; [done | done |].
      intros src. rewrite IH3.
      destruct (decide (src ∈ sources /\ has l src = true)) as [[Hin Hs]|Hno].
      * rewrite decide_True; [done|]. split; [by apply list_elem_of_further | done].
      * rewrite decide_False; [done|]. intros [Hin Hs]. apply Hno.
        apply elem_of_cons in Hin as [->|Hin]; [congruence | done].
Qed.

(** X22.  [preloadAll] first sorts its sources by what the cache
    holds.  The sources not cached are queued in the order given,
    repeats included; every cached source is counted, repeats
    included, and entered in the results with the image [get] returns
    for it (the bitmap where there is one); so what is counted and
    what is queued add up to the number of sources.  When every source
    is cached, none included, [preloadAll] returns these results at
    once, after one progress call that reports all of them loaded if a
    callback was passed and there is at least one source. *)
Theorem preloadAll_sorts_its_sources_by_the_cache
    deviceMemory innerWidth l sources onProgress :
  let g := gather l sources (mkGathered [] 0 []) in
  toLoad g = filter (fun src => has l src = false) sources /\
  loaded g = length (filter (fun src => has l src = true) sources) /\
  (loaded g + length (toLoad g) = length sources)%nat /\
  (forall src,
     map_get (results g) src =
       if decide (src ∈ sources /\ has l src = true) then get l src else None) /\
  ((forall src, src ∈ sources -> has l src = true) ->
     preloadAll deviceMemory innerWidth l sources onProgress =
       Returned (results g)
         (if onProgress && (0 <? length sources)%nat
          then [Progress (length sources) (length sources)] else [])).
Proof.
  cbv zeta.
  destruct (gather_spec l sources (mkGathered [] 0 [])) as (H1 & H2 & H3).
  cbn [toLoad loaded results app Nat.add] in *.
  assert (Hsum : (length (filter (fun src => has l src = true) sources)
                  + length (filter (fun src => has l src = false) sources)
                  = length sources)%nat).
  { clear. induction sources as [|s sources IH]; [done|].
    destruct (has l s) eqn:Hs.
    - rewrite filter_cons_True by done. rewrite filter_cons_False by (by rewrite Hs).
      cbn [length]. lia.
    - rewrite filter_cons_False by (by rewrite Hs). rewrite filter_cons_True by done.
      cbn [length]. lia. }
  split_and!; [exact H1 | exact H2 | by rewrite H1, H2 | exact H3 |].
  intros Hall. unfold preloadAll. rewrite H1, H2.
  assert (Hnone : filter (fun src => has l src = false) sources = []).
  { clear -Hall. induction sources as [|s sources IH]; [done|].
    rewrite filter_cons_False by (rewrite Hall; [done | apply list_elem_of_here]).
    apply IH. intros src Hin. apply Hall. by apply list_elem_of_further. }
  rewrite Hnone in *. cbn [length Nat.eqb]. rewrite Nat.add_0_r in Hsum.
  by rewrite Hsum.
Qed.


End ImageCache.



Section ClearedCache.

Implicit Types (a : Animator).

(** With nothing in the image cache no fade starts. *)
Lemma empty_cache_starts_no_fade (ld : string -> option Image) a r :
  (forall src, ld src = None) ->
  outcome (startZoneFade ld r a) <> Normal true /\
  zones (after (startZoneFade ld r a)) = zones a.
Proof.
  intros Hnone. rewrite startZoneFade_run.
  destruct (getRandomImage_shape a (categories a !! currentZoneIndex a) r)
    as [H|[[_ H]|[(what & _ & H)|(src & u & _ & _ & H)]]]; rewrite H; cbn [outcome after];
    try done.
  destruct (negb (Js.truthy_str (Some src))); [done|].
  by rewrite Hnone.
Qed.

(** X24.  [clear] closes every cached bitmap once, in the order they
    were cached, and empties both caches, so that afterwards [get]
    finds no image and [has] no source; loads still under way are not
    cancelled.  An engine that draws its images from the cleared cache
    starts no fade: [startZoneFade] does not return true and leaves the
    zones as they are, until images have been loaded again. *)
Theorem cleared_cache_starts_no_fade (l : Loader.ImageLoader) a r :
  let l' := fst (Loader.clear l) in
  snd (Loader.clear l) =
    map Loader.CloseBitmap (Loader.map_values (Loader.bitmapCache l)) /\
  Loader.size l' = O /\
  (forall src, Loader.get l' src = None /\ Loader.has l' src = false) /\
  Loader.abortControllers l' = Loader.abortControllers l /\
  outcome (startZoneFade (Loader.get l') r a) <> Normal true /\
  zones (after (startZoneFade (Loader.get l') r a)) = zones a.
Proof.
  cbv zeta. split_and!; try reflexivity; try done.
  - by apply empty_cache_starts_no_fade.
  - by apply empty_cache_starts_no_fade.
Qed.

End ClearedCache.

(** ** The application's helpers *)

Section Application.

Implicit Types (a : Animator).

(** X25.  After the application's [handleResize] the drawing surface
    is a square whose side is a whole number of pixels, the largest
    that fits the container; backing store and display size agree (the
    pixel ratio is 1, and the side of a container's rectangle, which
    is not negative and below 2^31, is a size the canvas element takes
    as it is); a frame is drawn at once exactly when the engine is
    running and not paused, and the animation is not touched. *)
Theorem handleResize_makes_the_largest_square a rectWidth rectHeight :
  let rep := App.handleResize rectWidth rectHeight a in
  let side := inject_Z (Qfloor (Qmin rectWidth rectHeight)) in
  outcome rep = Normal tt /\
  viewWidth (after rep) == side /\ viewHeight (after rep) == side /\
  canvas (after rep) =
    mkCanvas (Js.unsigned_long 300 (side * 1)) (Js.unsigned_long 150 (side * 1)) /\
  (0 <= rectWidth -> 0 <= rectHeight ->
   Qmin rectWidth rectHeight < inject_Z (2 ^ 31) ->
     canvas (after rep) = mkCanvas side side) /\
  side <= rectWidth /\ side <= rectHeight /\
  Qmin rectWidth rectHeight < side + 1 /\
  zones (after rep) = zones a /\ state (after rep) = state a /\
  stateTime (after rep) = stateTime a /\
  (running a && negb (paused a) = false ->
     emitted rep = [SetCanvasSize (side * 1) (side * 1); SetCanvasStyle side side;
                    Ctx (SetTransform 1 0 0 1 0 0)]).
Proof.
  cbv zeta. unfold App.handleResize. cbv zeta.
  set (side := inject_Z (Qfloor (Qmin rectWidth rectHeight))).
  rewrite resize_run. cbn [outcome after emitted].
  assert (Hfloor : side <= Qmin rectWidth rectHeight) by apply Qfloor_le.
  assert (Hlt : Qmin rectWidth rectHeight < side + 1).
  { unfold side. pose proof (Qlt_floor (Qmin rectWidth rectHeight)) as H.
    rewrite inject_Z_plus in H. exact H. }
  pose proof (Q.le_min_l rectWidth rectHeight).
  pose proof (Q.le_min_r rectWidth rectHeight).
  split_and!; try reflexivity; try lra.
  - unfold viewWidth, resized. fields. apply num_or_size.
  - unfold viewHeight, resized. fields. apply num_or_size.
  - intros Hw Hh Hmax. unfold resized. fields.
    assert (Hs0 : (0 <= Qfloor (Qmin rectWidth rectHeight))%Z).
    { change 0%Z with (Qfloor 0). apply Qfloor_resp_le. by apply Q.min_glb. }
    assert (Hs1 : (Qfloor (Qmin rectWidth rectHeight) < 2 ^ 31)%Z).
    { rewrite Zlt_Qlt. eapply Qle_lt_trans; [apply Qfloor_le | exact Hmax]. }
    rewrite !(unsigned_long_integer _ (side * 1) (Qfloor (Qmin rectWidth rectHeight)));
      [reflexivity | lia | unfold side; ring | lia | unfold side; ring].
  - intros ->. reflexivity.
Qed.

#[local] Instance Zle_total : Total Z.le.
Proof. intros x y. lia. Qed.

(** The selection loop of [findBestIntroResolution] on a sorted list. *)
Lemma best_of_sorted target (l : list Z) best :
  StronglySorted Z.le l -> Forall (Z.le best) l ->
  let r := foldl (fun best res => if (res <=? target)%Z then res else best) best l in
  (r = best \/ r ∈ l) /\
  (forall k, k ∈ l -> (k <= target)%Z -> (k <= r)%Z) /\
  ((r <= target)%Z \/ r = best).
Proof.
  intros Hsorted. cbv zeta. revert best.
  induction Hsorted as [|x l Hl IH Hx]; intros best Hbest; cbn [foldl].
  - split_and!; [by left | by intros k ?%elem_of_nil | by right].
  - apply Forall_cons in Hbest as [Hbx Hbest].
    destruct (Z.leb_spec x target) as [Hle|Hgt].
    + destruct (IH x Hx) as (I1 & I2 & I3). split_and!.
      * destruct I1 as [-> |I1]; right; [apply list_elem_of_here|].
        by apply list_elem_of_further.
      * intros k [-> |Hk]%elem_of_cons Hkt; [|by apply I2].
        destruct I1 as [-> |I1]; [lia|].
        by apply (proj1 (Forall_forall _ _) Hx).
      * left. destruct I3 as [?| ->]; lia.
    + destruct (IH best Hbest) as (I1 & I2 & I3). split_and!.
      * destruct I1 as [-> |I1]; [by left | right; by apply list_elem_of_further].
      * intros k [-> |Hk]%elem_of_cons Hkt; [lia|by apply I2].
      * destruct I1 as [-> |I1]; [by right|].
        destruct I3 as [I3|I3]; [|by right].
        pose proof (proj1 (Forall_forall _ _) Hx _ I1). lia.
Qed.

(** X26.  [findBestIntroResolution] answers null when the
    configuration has no intros or an empty set of them.  Otherwise it
    answers one of the resolutions on offer: the largest one that does
    not exceed the target when there is such a one, and the smallest
    one on offer when all exceed the target. *)
Theorem findBestIntroResolution_picks_the_closest_from_below keys target :
  App.findBestIntroResolution None target = None /\
  App.findBestIntroResolution (Some []) target = None /\
  (keys <> [] ->
   exists best,
     App.findBestIntroResolution (Some keys) target = Some best /\
     best ∈ keys /\
     ((exists k, k ∈ keys /\ (k <= target)%Z) ->
        (best <= target)%Z /\ forall k, k ∈ keys -> (k <= target)%Z -> (k <= best)%Z) /\
     ((forall k, k ∈ keys -> (target < k)%Z) ->
        forall k, k ∈ keys -> (best <= k)%Z)).
Proof.
  split_and!; [reflexivity | reflexivity |].
  intros Hne. unfold App.findBestIntroResolution. cbv zeta.
  pose proof (merge_sort_Permutation Z.le keys) as Hperm.
  pose proof (StronglySorted_merge_sort Z.le keys) as Hsorted.
  destruct (merge_sort Z.le keys) as [|first rest] eqn:Hsort.
  { apply Permutation_nil_l in Hperm. congruence. }
  assert (Hin : forall k, k ∈ first :: rest <-> k ∈ keys).
  { intros k. by rewrite Hperm. }
  assert (Hmin : Forall (Z.le first) (first :: rest)).
  { apply Forall_cons. split; [lia|]. by apply StronglySorted_cons in Hsorted as [? _]. }
  destruct (best_of_sorted target (first :: rest) first Hsorted Hmin)
    as (I1 & I2 & I3).
  eexists. split; [reflexivity|].
  set (r := foldl _ first (first :: rest)) in *.
  assert (Hr : r ∈ first :: rest).
  { destruct I1 as [-> |I1]; [apply list_elem_of_here | exact I1]. }
  split_and!.
  - by apply Hin.
  - intros (k & Hk & Hkt). apply Hin in Hk. split.
    + destruct I3 as [I3| ->]; [exact I3|].
      pose proof (proj1 (Forall_forall _ _) Hmin k Hk). lia.
    + intros k' Hk' Hkt'. apply I2; [by apply Hin | exact Hkt'].
  - intros Hall k Hk. apply Hin in Hk.
    destruct I3 as [I3| ->].
    + apply Hin in Hr. specialize (Hall r Hr). lia.
    + by apply (proj1 (Forall_forall _ _) Hmin).
Qed.

Lemma foldl_max_spec (l : list Z) (m : Z) :
  let r := foldl Z.max m l in
  (r = m \/ r ∈ l) /\ (m <= r)%Z /\ (forall k, k ∈ l -> (k <= r)%Z).
Proof.
  cbv zeta. revert m. induction l as [|x l IH]; intros m; cbn [foldl].
  - split_and!; [by left | lia | by intros k ?%elem_of_nil].
  - destruct (IH (Z.max m x)) as (I1 & I2 & I3). split_and!.
    + destruct I1 as [I1|I1]; [|right; by apply list_elem_of_further].
      rewrite I1.
      destruct (Z.max_spec m x) as [[_ ->]|[_ ->]];
        [right; apply list_elem_of_here | by left].
    + lia.
    + intros k [-> |Hk]%elem_of_cons; [lia | by apply I3].
Qed.

(** X27.  [getOptimalResolution] answers null for a missing or empty
    list and otherwise one of the resolutions on offer.  On a mobile
    screen (narrower or lower than 600 pixels) it answers the largest
    resolution of at most 1680 when there is one; in every other case
    1680 when that is on offer, and failing that the first
    resolution of the list. *)
Theorem getOptimalResolution_prefers_1680 w h first rest :
  let available := first :: rest in
  App.getOptimalResolution w h None = None /\
  App.getOptimalResolution w h (Some []) = None /\
  exists best,
    App.getOptimalResolution w h (Some available) = Some best /\
    best ∈ available /\
    (App.isMobile w h = true -> (exists r, r ∈ available /\ (r <= 1680)%Z) ->
       (best <= 1680)%Z /\
       forall r, r ∈ available -> (r <= 1680)%Z -> (r <= best)%Z) /\
    (App.isMobile w h = false \/ (forall r, r ∈ available -> (1680 < r)%Z) ->
       (1680%Z ∈ available -> best = 1680%Z) /\
       (1680%Z ∉ available -> best = first)).
Proof.
  cbv zeta. split_and!; [reflexivity | reflexivity |].
  unfold App.getOptimalResolution. cbv zeta.
  set (available := first :: rest).
  assert (Hfilter : forall r,
    r ∈ filter (fun r => (r <= 1680)%Z) available <-> r ∈ available /\ (r <= 1680)%Z).
  { intros r. rewrite list_elem_of_filter. tauto. }
  assert (Hplain : exists best,
    (if decide (1680%Z ∈ available) then Some 1680%Z else Some first) = Some best /\
    best ∈ available /\
    (1680%Z ∈ available -> best = 1680%Z) /\ (1680%Z ∉ available -> best = first)).
  { destruct (decide (1680%Z ∈ available)) as [Hin|Hout].
    - exists 1680%Z. by split_and!.
    - exists first. split_and!; [done | apply list_elem_of_here | done | done]. }
  destruct (App.isMobile w h) eqn:Hmob.
  - destruct (filter (fun r => (r <= 1680)%Z) available) as [|m ms] eqn:Hpref.
    + destruct Hplain as (best & -> & Hb1 & Hb2 & Hb3).
      exists best. split_and!; [done | done | | done].
      intros _ (r & Hr & Hle). exfalso.
      assert (Hx : r ∈ ([] : list Z)) by by apply Hfilter.
      by apply elem_of_nil in Hx.
    + destruct (foldl_max_spec ms m) as (I1 & I2 & I3). cbv zeta in *.
      set (best := foldl Z.max m ms) in *.
      assert (Hbest : best ∈ m :: ms).
      { destruct I1 as [-> |I1]; [apply list_elem_of_here | by apply list_elem_of_further]. }
      apply Hfilter in Hbest as [Hb1 Hb2].
      exists best. split_and!; [done | done | |].
      * intros _ _. split; [exact Hb2|]. intros r Hr Hle.
        assert (Hx : r ∈ m :: ms) by by apply Hfilter.
        apply elem_of_cons in Hx as [-> |Hx]; [exact I2 | by apply I3].
      * intros [?|Hall]; [done|]. specialize (Hall best Hb1). lia.
  - destruct Hplain as (best & Hbest & Hb1 & Hb2 & Hb3).
    exists best. split_and!; [|done| |done].
    + by destruct (filter _ available).
    + done.
Qed.

End Application.

(** ** Loading a style *)

Section LoadingStyles.

Variable ld : string -> option Image.
Implicit Types (a b : Animator).

Lemma run_then {A B} (c : M A) (k : A -> M B) a v a' es :
  c a = mkReply (Normal v) a' es ->
  (x <- c ;; k x) a =
    mkReply (outcome (k v a')) (after (k v a')) (es ++ emitted (k v a')).
Proof. intros Hc. rewrite run_seq, Hc. reflexivity. Qed.

Lemma loadStyle_halt_run a :
  exists es, App.loadStyle_halt a = mkReply (Normal tt) (after (App.loadStyle_halt a)) es /\
             running (after (App.loadStyle_halt a)) = false /\
             frameInterval (after (App.loadStyle_halt a)) = frameInterval a.
Proof.
  unfold App.loadStyle_halt. rewrite (run_then _ _ _ _ _ _ (stop_run a)).
  rewrite reset_run. cbn [outcome after emitted]. eexists. split; [reflexivity|].
  unfold rewound. fields. done.
Qed.

Lemma loadStyle_install_run bg images cats a :
  App.loadStyle_install bg images cats a =
    mkReply (Normal tt) (after (setImages images cats (setBackgroundImage bg a))) [].
Proof.
  unfold App.loadStyle_install, setBackground. step.
  by rewrite setImages_run, reset_run.
Qed.

(** What a freshly installed engine looks like. *)
Record Fresh (bg : option Image) images cats (a : Animator) : Prop := mkFresh {
  fresh_idle : state a = IDLE;
  fresh_cursor : currentZoneIndex a = O /\ currentSet a = O;
  fresh_alpha : transitioningOut a = false /\ transitionAlpha a = 1;
  fresh_images : imagesByColor a = images /\ categories a = cats;
  fresh_background : backgroundImage a = bg;
  fresh_zones : forall k,
    zones a !! k = if decide (k ∈ cats) then Some emptyZone else None;
  fresh_used : forall k,
    usedImages a !! k = if decide (k ∈ cats) then Some ∅ else None
}.

Lemma setImages_fresh bg images cats a :
  Fresh bg images cats (after (setImages images cats (setBackgroundImage bg a))).
Proof.
  rewrite setImages_run, reset_run. cbn [after]. unfold rewound.
  split; fields; try done.
  - intros k. rewrite clearedZones_lookup. unfold freshZones. rewrite fresh_lookup.
    rewrite lookup_empty. by destruct (decide (k ∈ cats)).
  - intros k. rewrite clearedUsed_lookup. unfold freshUsed. rewrite fresh_lookup.
    rewrite lookup_empty. by destruct (decide (k ∈ cats)).
Qed.

Lemma Fresh_ready bg images cats a :
  cats <> [] -> listed images cats -> Fresh bg images cats a -> Ready a.
Proof.
  intros Hne Hl [_ [Hi _] _ [Him Hc] _ Hz Hu]. split.
  - rewrite Hi, Hc. destruct cats; [done | cbn; lia].
  - intros c Hin. rewrite Hc in Hin. rewrite Hz, decide_True by done. by eexists.
  - intros c Hin. rewrite Hc in Hin. rewrite Hu, decide_True by done. by eexists.
  - by rewrite Him, Hc.
Qed.

(** [start] from the point where it has set its flags and clocks. *)
Lemma start_primed p bg images cats frame (r0 : Q) (t : Tick) (t0 fi : Q) :
  cats <> [] -> listed images cats -> Fresh bg images cats p ->
  running p = true -> paused p = false -> lastFrameTime p = t0 ->
  frameInterval p = fi -> frameImage p = frame ->
  now t - t0 < fi * (9 # 10) ->
  match startZoneFade ld r0 p with
  | mkReply (Normal _) a' es =>
      exists es', loop ld t (fadingFrom a') = mkReply (Normal tt)
                    (setAnimationId (Some (handle t)) (fadingFrom a')) es' /\
      running a' = true /\ paused a' = false /\
      (currentZoneIndex a' = O /\ currentSet a' = O) /\
      (transitioningOut a' = false /\ transitionAlpha a' = 1) /\
      (categories a' = cats /\ imagesByColor a' = images /\
       backgroundImage a' = bg /\ frameImage a' = frame) /\
      (forall k, k ∉ cats -> zones a' !! k = None) /\
      (forall k, k ∈ cats ->
         exists z, zones a' !! k = Some z /\ current z = None /\ alpha z = 0 /\
                   (Some k <> head cats -> incoming z = None))
  | mkReply (Thrown _) _ _ => False
  end.
Proof.
  intros Hne Hl Hfp Hp1 Hp2 Hp3 Hp4 Hp5 Hearly.
  pose proof (Fresh_ready bg images cats p Hne Hl Hfp) as Hready.
  destruct Hfp as [_ [Hi Hs] [Hto Hta] [Him Hc] Hbg Hz Hu].
  assert (Hkey : Some (activeKey p) = head cats).
  { unfold activeKey. rewrite Hi, Hc. destruct cats; [done | reflexivity]. }
  assert (Hin0 : activeKey p ∈ cats).
  { rewrite <- Hc. by apply ready_active. }
  assert (Hzk0 : zones p !! activeKey p = Some emptyZone).
  { by rewrite Hz, decide_True. }
  assert (Hloop : forall a',
    running a' = true -> paused a' = false -> lastFrameTime a' = t0 ->
    frameInterval a' = fi ->
    loop ld t (fadingFrom a') =
      mkReply (Normal tt) (setAnimationId (Some (handle t)) (fadingFrom a'))
        [RequestAnimationFrame (handle t)]).
  { intros a' H1 H2 H3 H4.
    apply loop_too_early; unfold fadingFrom; fields; [done | done |].
    by rewrite H3, H4. }
  destruct (startZoneFade_cases ld p r0) as [e u es Hk Hno|u es Hk|u z img es Hk Hzk Himg].
  - destruct Hno.
    split_and!; [by rewrite Hzk0 | by apply (ready_used p Hready), ready_active
                | by apply (ready_listed p Hready), ready_active].
  - eexists. split; [apply Hloop; fields; done|]. fields.
    split_and!; try done.
    + intros k Hk'. by rewrite Hz, decide_False.
    + intros k Hk'. exists emptyZone. rewrite Hz, decide_True by done.
      by split_and!.
  - rewrite Hzk0 in Hzk. injection Hzk as <-.
    eexists. split; [apply Hloop; fields; done|]. fields.
    split_and!; try done.
    + intros k Hk'. rewrite lookup_insert_ne by (by intros <-).
      by rewrite Hz, decide_False.
    + intros k Hk'. destruct (decide (activeKey p = k)) as [<-|Hne'].
      * rewrite lookup_insert_eq. eexists. split; [reflexivity|].
        split_and!; [done | done |]. intros Hx. by destruct Hx.
      * rewrite lookup_insert_ne by done. exists emptyZone.
        rewrite Hz, decide_True by done. by split_and!.
Qed.

(** [start] on a freshly installed engine that does not run. *)
Lemma start_fresh a3 bg images cats frame (t0 r0 : Q) (t : Tick) fi :
  cats <> [] -> listed images cats -> Fresh bg images cats a3 -> running a3 = false ->
  frameImage a3 = frame -> frameInterval a3 = fi ->
  now t - t0 < fi * (9 # 10) ->
  let rep := start ld t0 r0 t a3 in
  let b := after rep in
  outcome rep = Normal tt /\
  (running b = true /\ paused b = false /\ state b = FADING /\ stateTime b = 0) /\
  (currentZoneIndex b = O /\ currentSet b = O) /\
  (transitioningOut b = false /\ transitionAlpha b = 1) /\
  (categories b = cats /\ imagesByColor b = images /\
   backgroundImage b = bg /\ frameImage b = frame) /\
  (forall k, k ∉ cats -> zones b !! k = None) /\
  (forall k, k ∈ cats ->
     exists z, zones b !! k = Some z /\ current z = None /\ alpha z = 0 /\
               (Some k <> head cats -> incoming z = None)).
Proof.
  intros Hne Hl Hf3 Hr3 Hfr Hint2 Hearly. cbv zeta.
  rewrite start_run by exact Hr3.
  assert (Hfp : Fresh bg images cats (primed t0 a3)) by (destruct Hf3; by split).
  assert (Hp : running (primed t0 a3) = true /\ paused (primed t0 a3) = false /\
               lastFrameTime (primed t0 a3) = t0 /\
               frameInterval (primed t0 a3) = fi /\ frameImage (primed t0 a3) = frame).
  { unfold primed. fields. by rewrite Hint2, Hfr. }
  destruct Hp as (Hp1 & Hp2 & Hp3 & Hp4 & Hp5).
  pose proof (start_primed (primed t0 a3) bg images cats frame r0 t t0 fi
                Hne Hl Hfp Hp1 Hp2 Hp3 Hp4 Hp5 Hearly) as Hstart.
  destruct (startZoneFade ld r0 (primed t0 a3)) as [[started|e] a' es]; [|done].
  destruct Hstart as (es' & Hloop & H1 & H2 & H3 & H4 & H5 & H6 & H7).
  rewrite Hloop. cbn [outcome after emitted]. clear Hloop.
  revert H1 H2 H3 H4 H5 H6 H7. generalize a'. clear. intros a' H1 H2 H3 H4 H5 H6 H7.
  destruct H3, H4, H5 as (? & ? & ? & ?).
  unfold fadingFrom. fields. by split_and!.
Qed.

(** X29.  A style load that nothing interrupts restarts the slideshow
    from scratch, whatever the engine was doing before.  With at least
    one category, image lists that list the categories ([loadStyle]
    gives every category a list of its own), and the frame that
    [start] requests arriving within the frame interval, no call
    throws and the engine ends up running and not paused, in FADING
    with state time 0, at the first category of cycle 0, with the
    global alpha at 1, holding the new images, categories, background
    and frame; it has a zone for exactly the new categories, none of
    them showing anything yet, and only the zone of the first category
    may have an image fading in. *)
Theorem loadStyle_restarts_the_slideshow a bg images cats frame (t0 r0 : Q) (t : Tick) :
  cats <> [] ->
  listed images cats ->
  now t - t0 < frameInterval a * (9 # 10) ->
  let rep := App.loadStyle ld bg images cats frame t0 r0 t a in
  let b := after rep in
  outcome rep = Normal tt /\
  (running b = true /\ paused b = false /\ state b = FADING /\ stateTime b = 0) /\
  (currentZoneIndex b = O /\ currentSet b = O) /\
  (transitioningOut b = false /\ transitionAlpha b = 1) /\
  (categories b = cats /\ imagesByColor b = images /\
   backgroundImage b = bg /\ frameImage b = frame) /\
  (forall k, k ∉ cats -> zones b !! k = None) /\
  (forall k, k ∈ cats ->
     exists z, zones b !! k = Some z /\ current z = None /\ alpha z = 0 /\
               (Some k <> head cats -> incoming z = None)).
Proof.
  intros Hne Hl Hearly. cbv zeta. unfold App.loadStyle.
  destruct (loadStyle_halt_run a) as (es1 & Hhalt & Hrun1 & Hint1).
  set (a1 := after (App.loadStyle_halt a)) in *. clearbody a1.
  rewrite (run_then _ _ _ _ _ _ Hhalt).
  rewrite (run_then _ _ _ _ _ _ (loadStyle_install_run bg images cats a1)).
  pose proof (setImages_fresh bg images cats a1) as Hfresh.
  assert (Hrun2 : running (after (setImages images cats (setBackgroundImage bg a1)))
                  = false).
  { rewrite setImages_run, reset_run. cbn [after]. unfold rewound. fields. exact Hrun1. }
  assert (Hint2 : frameInterval (after (setImages images cats (setBackgroundImage bg a1)))
                  = frameInterval a).
  { rewrite setImages_run, reset_run. cbn [after]. unfold rewound. fields. exact Hint1. }
  set (a2 := after (setImages images cats (setBackgroundImage bg a1))) in *.
  clearbody a2. clear Hhalt Hrun1 Hint1.
  unfold App.loadStyle_start, setFrame. rewrite run_assign.
  set (a3 := setFrameImage frame a2).
  assert (Hf3 : Fresh bg images cats a3) by (destruct Hfresh; by split).
  assert (Hr3 : running a3 = false) by exact Hrun2.
  assert (Hfr : frameImage a3 = frame) by reflexivity.
  assert (Hint3 : frameInterval a3 = frameInterval a) by exact Hint2.
  clearbody a3.
  pose proof (start_fresh a3 bg images cats frame t0 r0 t (frameInterval a)
                Hne Hl Hf3 Hr3 Hfr Hint3 Hearly) as Hstart.
  cbv zeta in Hstart. cbn [outcome after emitted]. exact Hstart.
Qed.

(** X30.  Style loads that overlap freeze the slideshow.  When a second
    style is chosen while the first is still loading, both loads halt
    the engine, the first one to finish installs its images and starts
    it, and the second one then installs its images on the engine that
    runs: its [setImages] resets the scheduler to IDLE and its
    [start] returns at once because the engine already runs.  The
    engine is left running in IDLE with every zone empty, and stays so
    whatever happens next short of a [stop]. *)
Theorem overlapping_style_loads_freeze_the_slideshow
    a bgA imagesA catsA frameA (tA0 rA0 : Q) (tA : Tick)
    bgB imagesB catsB frameB (tB0 rB0 : Q) (tB : Tick) (steps : list Step) :
  let a1 := after (App.loadStyle_halt (after (App.loadStyle_halt a))) in
  let a2 := after (App.loadStyle_start ld frameA tA0 rA0 tA
                     (after (App.loadStyle_install bgA imagesA catsA a1))) in
  let lastLoad :=
    x <- App.loadStyle_install bgB imagesB catsB ;;
    App.loadStyle_start ld frameB tB0 rB0 tB in
  let b := after (lastLoad a2) in
  outcome (lastLoad a2) = Normal tt /\
  running b = true /\ state b = IDLE /\ categories b = catsB /\
  (forall k z, zones b !! k = Some z -> z = emptyZone) /\
  (Forall (fun s : Step => isStop (snd s) = false) steps ->
     running (runs steps b) = true /\ state (runs steps b) = IDLE /\
     forall k z, zones (runs steps b) !! k = Some z -> z = emptyZone).
Proof.
  cbv zeta.
  set (a1 := after (App.loadStyle_halt (after (App.loadStyle_halt a)))).
  set (a2 := after (App.loadStyle_start ld frameA tA0 rA0 tA _)).
  assert (Hr2 : running a2 = true).
  { unfold a2, App.loadStyle_start, setFrame. rewrite run_assign.
    apply start_leaves_running. }
  clearbody a2. clear a1.
  rewrite (run_then _ _ _ _ _ _ (loadStyle_install_run bgB imagesB catsB a2)).
  set (a3 := after (setImages imagesB catsB (setBackgroundImage bgB a2))).
  assert (Hf3 : Frozen a3) by (by apply Frozen_setImages).
  assert (Hc3 : categories a3 = catsB).
  { unfold a3. by rewrite setImages_run, reset_run. }
  clearbody a3.
  unfold App.loadStyle_start, setFrame. rewrite run_assign.
  rewrite start_running by (fields; apply Hf3).
  cbn [outcome after emitted].
  assert (Hb : Frozen (setFrameImage frameB a3)) by (destruct Hf3; by split).
  split_and!; [done | apply Hb | apply Hb | exact Hc3 | apply Hb |].
  intros Hsteps. pose proof (Frozen_runs steps _ Hsteps Hb) as Hfin.
  split_and!; apply Hfin.
Qed.

End LoadingStyles.

(** A style of two categories, loaded into a stopped engine. *)
Lemma loadStyle_restarts_the_slideshow_witness :
  let rep := App.loadStyle loaded None
               {[ "pink" := ["p1"; "p2"]; "green" := ["g1"; "g2"] ]}
               ["pink"; "green"] None 0 0 (mkTick 0 0 1) duoStarted in
  let b := after rep in
  outcome rep = Normal tt /\
  (running b = true /\ paused b = false /\ state b = FADING /\ stateTime b = 0) /\
  (currentZoneIndex b = O /\ currentSet b = O) /\
  (transitioningOut b = false /\ transitionAlpha b = 1) /\
  (categories b = ["pink"; "green"] /\
   imagesByColor b = {[ "pink" := ["p1"; "p2"]; "green" := ["g1"; "g2"] ]} /\
   backgroundImage b = None /\ frameImage b = None) /\
  (forall k, k ∉ ["pink"; "green"] -> zones b !! k = None) /\
  (forall k, k ∈ ["pink"; "green"] ->
     exists z, zones b !! k = Some z /\ current z = None /\ alpha z = 0 /\
               (Some k <> head ["pink"; "green"] -> incoming z = None)).
Proof.
  apply (loadStyle_restarts_the_slideshow loaded duoStarted None
           {[ "pink" := ["p1"; "p2"]; "green" := ["g1"; "g2"] ]}
           ["pink"; "green"] None 0 0 (mkTick 0 0 1)).
  - discriminate.
  - apply listed_names. by repeat constructor.
  - vm_compute. reflexivity.
Defined.
